(** * A distributed message queue over Redis: the queue operation engine

    Shallow embedding of [backend/src/utils/helpers.ts],
    [backend/src/modules/internal/queues/queues.service.ts] with the parts of
    its controller that parse request parameters, and
    [backend/src/modules/api/api.service.ts] with its controller.

    The engine keeps no state of its own: every effect is a Redis command, a
    reading of the system clock or a random draw.  All three are explicit
    here.  The Redis keyspace is a finite map from key to value; each request
    sent is appended to a log; clock readings, random bytes and store failures
    come from oracles, gathered in a record together with the JSON codec.

    The file has three parts: the model, the definitions used to state
    properties of it, and the properties with their proofs.  [listQueues] and
    [getSystemStats], which take no queue name and scan the keyspace, come
    with the rest of the backend after the engine, on a world that also
    records the scanning commands. *)

From Stdlib Require Import ZArith Lia Ascii String.
From stdpp Require Import base option list strings pretty gmap.

Local Open Scope string_scope.
Local Open Scope list_scope.
#[local] Set Warnings "-register-all".

(** ** JavaScript strings and numbers as the code uses them

    A JavaScript string is written here as its UTF-8 text, byte by byte, which
    is how a string literal of this file is read.

    Every number the services receive comes out of [parseInt], so it is a
    double that is an integer, one of the two infinities, or [NaN]. *)

Inductive jsnum :=
| Num (z : Z)
| NaN
| Inf (negative : bool).

(** [a > b] for a literal [b]; any comparison with [NaN] is false. *)
Definition js_gt (a : jsnum) (b : Z) : bool :=
  match a with
  | Num z => (b <? z)%Z
  | NaN => false
  | Inf negative => negb negative
  end.

(** [Math.floor(a / d)] for a positive literal [d]. *)
Definition Math_floor_div (a : jsnum) (d : Z) : jsnum :=
  match a with
  | Num z => Num (z / d)
  | NaN => NaN
  | Inf negative => Inf negative
  end.

(** [Math.min(a, b)] for a literal [b]. *)
Definition Math_min (a : jsnum) (b : Z) : jsnum :=
  match a with
  | Num z => Num (Z.min z b)
  | NaN => NaN
  | Inf true => Inf true
  | Inf false => Num b
  end.

(** Unary minus; [-0] reaches Redis as the text [0]. *)
Definition js_neg (a : jsnum) : jsnum :=
  match a with
  | Num z => Num (- z)
  | NaN => NaN
  | Inf negative => Inf (negb negative)
  end.

Definition js_sub (a b : jsnum) : jsnum :=
  match a, b with
  | Num x, Num y => Num (x - y)
  | Inf s, Num _ => Inf s
  | Num _, Inf s => Inf (negb s)
  | Inf s, Inf s' => if Bool.eqb s s' then NaN else Inf s
  | _, _ => NaN
  end.

(** The double nearest to an integer, ties going to the even significand:
    integers below [2^53] in size are doubles themselves, larger ones are
    rounded to 53 significant bits, and what rounds to [2^1024] or beyond is
    an infinity. *)
Definition to_double (z : Z) : jsnum :=
  let a := Z.abs z in
  let e := Z.log2 a in
  if (e <? 53)%Z then Num z
  else
    let sh := (e - 52)%Z in
    let q := Z.shiftr a sh in
    let r := Z.land a (Z.ones sh) in
    let half := Z.shiftl 1 (sh - 1) in
    let q' :=
      if (half <? r)%Z || ((r =? half)%Z && Z.odd q) then (q + 1)%Z else q in
    let m := Z.shiftl q' sh in
    if (Z.shiftl 1 1024 <=? m)%Z then Inf (z <? 0)%Z else Num (Z.sgn z * m).

(** [parseInt(s, 10)]: leading white space, an optional sign, then the longest
    run of decimal digits, as a double; [NaN] when there is no digit. *)

Definition is_digit (c : ascii) : bool :=
  let n := nat_of_ascii c in (48 <=? n)%nat && (n <=? 57)%nat.

Definition digit_val (c : ascii) : Z := Z.of_nat (nat_of_ascii c) - 48.

(** The white space and line terminators of one byte: TAB, LF, VT, FF, CR and
    the space. *)
Definition is_space (c : ascii) : bool :=
  let n := nat_of_ascii c in
  (n =? 32)%nat || ((9 <=? n)%nat && (n <=? 13)%nat).

(** Of two bytes: U+00A0. *)
Definition is_space2 (c1 c2 : ascii) : bool :=
  (nat_of_ascii c1 =? 194)%nat && (nat_of_ascii c2 =? 160)%nat.

(** Of three bytes: U+1680, U+2000 to U+200A, U+2028, U+2029, U+202F, U+205F,
    U+3000 and U+FEFF. *)
Definition is_space3 (c1 c2 c3 : ascii) : bool :=
  let n1 := nat_of_ascii c1 in
  let n2 := nat_of_ascii c2 in
  let n3 := nat_of_ascii c3 in
  ((n1 =? 225)%nat && (n2 =? 154)%nat && (n3 =? 128)%nat)
  || ((n1 =? 226)%nat && (n2 =? 128)%nat
      && (((128 <=? n3)%nat && (n3 <=? 138)%nat)
          || (n3 =? 168)%nat || (n3 =? 169)%nat || (n3 =? 175)%nat))
  || ((n1 =? 226)%nat && (n2 =? 129)%nat && (n3 =? 159)%nat)
  || ((n1 =? 227)%nat && (n2 =? 128)%nat && (n3 =? 128)%nat)
  || ((n1 =? 239)%nat && (n2 =? 187)%nat && (n3 =? 191)%nat).

Fixpoint skip_space (s : string) : string :=
  match s with
  | String c1 r1 =>
      if is_space c1 then skip_space r1
      else
        match r1 with
        | String c2 r2 =>
            if is_space2 c1 c2 then skip_space r2
            else
              match r2 with
              | String c3 r3 =>
                  if is_space3 c1 c2 c3 then skip_space r3 else s
              | EmptyString => s
              end
        | EmptyString => s
        end
  | EmptyString => EmptyString
  end.

Fixpoint leading_digits (s : string) (acc : option Z) : option Z :=
  match s with
  | String c r =>
      if is_digit c
      then leading_digits r (Some (10 * default 0%Z acc + digit_val c)%Z)
      else acc
  | EmptyString => acc
  end.

Definition parseInt (s : string) : jsnum :=
  let unsigned (r : string) (sign : Z) :=
    match leading_digits r None with
    | Some n => to_double (sign * n)
    | None => NaN
    end in
  match skip_space s with
  | String "-" r => unsigned r (-1)%Z
  | String "+" r => unsigned r 1%Z
  | r => unsigned r 1%Z
  end.

(** [x || d] on an optional query parameter: [undefined] and the empty string
    are falsy. *)
Definition or_default (x : option string) (d : string) : string :=
  match x with
  | Some (String c r) => String c r
  | _ => d
  end.

(** ** helpers.ts *)

(** The character class [[a-zA-Z0-9_-]]. *)
Definition name_char (c : ascii) : bool :=
  let n := nat_of_ascii c in
  ((97 <=? n)%nat && (n <=? 122)%nat)
  || ((65 <=? n)%nat && (n <=? 90)%nat)
  || ((48 <=? n)%nat && (n <=? 57)%nat)
  || (n =? 95)%nat
  || (n =? 45)%nat.

(** Anchored match of [^[cls]{lo,hi}$]; [hi = None] is an open upper bound, so
    [^[cls]+$] is [class_repeat cls 1 None]. *)
Fixpoint class_repeat (cls : ascii → bool) (lo : nat) (hi : option nat)
    (s : string) : bool :=
  match s with
  | EmptyString => (lo =? 0)%nat
  | String c r =>
      match hi with
      | Some O => false
      | _ => cls c && class_repeat cls (pred lo) (pred <$> hi) r
      end
  end.

(** [/^[a-zA-Z0-9_-]+$/.test(name) && name.length <= 64 && name.length > 0] *)
Definition validateQueueName (name : string) : bool :=
  class_repeat name_char 1 None name
  && (String.length name <=? 64)%nat
  && (0 <? String.length name)%nat.

(** The rule as the interface documents it: [^[A-Za-z0-9_-]{1,64}$]. *)
Definition documented_name_rule (name : string) : bool :=
  class_repeat name_char 1 (Some 64%nat) name.

(** [`msg_${randomBytes(8).toString('hex')}`] on the hex text of the draw. *)
Definition message_id_of (hex : string) : string := "msg_" +:+ hex.

(** ** JSON values *)

Inductive json :=
| JNull
| JBool (b : bool)
| JNum (z : Z)
| JStr (s : string)
| JArr (items : list json)
| JObj (fields : list (string * json)).

Fixpoint put_field (k : string) (v : json) (fs : list (string * json)) :
    list (string * json) :=
  match fs with
  | [] => [(k, v)]
  | (k', v') :: r =>
      if String.eqb k' k then (k', v) :: r else (k', v') :: put_field k v r
  end.

Fixpoint get_field (k : string) (fs : list (string * json)) : option json :=
  match fs with
  | [] => None
  | (k', v') :: r => if String.eqb k' k then Some v' else get_field k r
  end.

(** [x.k]: [undefined] ([None]) on anything but an object that has the field;
    reading a property of [null] is a TypeError, which callers treat apart. *)
Definition prop (k : string) (x : json) : option json :=
  match x with
  | JObj fs => get_field k fs
  | _ => None
  end.

(** [x.k = v] in a strict-mode module.  An object gets or replaces the field.
    An array takes the property too, but it is no part of the array's JSON
    text, which is all a caller ever sees of it.  On [null] and on primitives
    the assignment throws a TypeError ([None]). *)
Definition assign_prop (k : string) (v : json) (x : json) : option json :=
  match x with
  | JObj fs => Some (JObj (put_field k v fs))
  | JArr l => Some (JArr l)
  | _ => None
  end.

(** ** Redis: keys, values, commands *)

Definition queueKey (queueName : string) : string := "queue:" +:+ queueName.
Definition metadataKey (queueName : string) : string :=
  "queue:" +:+ queueName +:+ ":metadata".
Definition enqueuedKey (queueName : string) : string :=
  "queue:" +:+ queueName +:+ ":stats:enqueued".
Definition dequeuedKey (queueName : string) : string :=
  "queue:" +:+ queueName +:+ ":stats:dequeued".

(** A key holds a list (head first), a string, or a string that is a decimal
    integer (what INCR leaves behind). *)
Inductive rval (W : Type) :=
| RList (l : list W)
| RStr (s : W)
| RCount (z : Z).
Arguments RList {W} l.
Arguments RStr {W} s.
Arguments RCount {W} z.

Inductive cmd (W : Type) :=
| EXISTS (k : string)
| SET (k : string) (v : W)
| GET (k : string)
| DEL (k : string)
| LPUSH (k : string) (v : W)
| BRPOP (k : string) (timeout : jsnum)
| LRANGE (k : string) (start stop : jsnum)
| LLEN (k : string)
| LINDEX (k : string) (i : Z)
| INCR (k : string)
| INCRBY (k : string) (n : Z).
Arguments EXISTS {W} k.
Arguments SET {W} k v.
Arguments GET {W} k.
Arguments DEL {W} k.
Arguments LPUSH {W} k v.
Arguments BRPOP {W} k timeout.
Arguments LRANGE {W} k start stop.
Arguments LLEN {W} k.
Arguments LINDEX {W} k i.
Arguments INCR {W} k.
Arguments INCRBY {W} k n.

(** What comes back.  [IntReply] also stands for the decimal text GET returns
    for a counter.  [NoReply] is a blocking pop that waits for ever. *)
Inductive reply (W : Type) :=
| NilReply
| OkReply
| IntReply (z : Z)
| BulkReply (v : W)
| MultiReply (l : list W)
| PopReply (k : string) (v : W)
| ErrReply (msg : string)
| NoReply.
Arguments NilReply {W}.
Arguments OkReply {W}.
Arguments IntReply {W} z.
Arguments BulkReply {W} v.
Arguments MultiReply {W} l.
Arguments PopReply {W} k v.
Arguments ErrReply {W} msg.
Arguments NoReply {W}.

Definition WRONGTYPE : string :=
  "WRONGTYPE Operation against a key holding the wrong kind of value".

(** What Redis reads as an integer argument is the text of a signed 64-bit
    integer.  The client writes a number in the fewest digits that give the
    double back, filled up with zeros, so that [2^63] and [-2^63] go out as
    9223372036854776000 with their sign and are refused like every number
    further out, which from [1e21] on is written with an exponent; the doubles
    in between go out as integers of the range. *)
Definition reads_as_int64 (z : Z) : bool :=
  (- 2 ^ 63 <? z)%Z && (z <? 2 ^ 63)%Z.

Section RedisCommands.
Context {W : Type}.

(** LRANGE's index arithmetic: negative indices count from the tail, the
    range is inclusive and clipped to the list. *)
Definition lrange (l : list W) (start stop : Z) : list W :=
  let len := Z.of_nat (length l) in
  let start := if (start <? 0)%Z then (start + len)%Z else start in
  let stop := if (stop <? 0)%Z then (stop + len)%Z else stop in
  let start := if (start <? 0)%Z then 0%Z else start in
  if (stop <? start)%Z || (len <=? start)%Z then []
  else
    let stop := if (len <=? stop)%Z then (len - 1)%Z else stop in
    take (Z.to_nat (stop - start + 1)) (drop (Z.to_nat start) l).

Definition lindex (l : list W) (i : Z) : option W :=
  let len := Z.of_nat (length l) in
  let i := if (i <? 0)%Z then (i + len)%Z else i in
  if (i <? 0)%Z then None else l !! Z.to_nat i.

Definition incr_by (k : string) (n : Z) (d : gmap string (rval W)) :
    reply W * gmap string (rval W) :=
  match d !! k with
  | None => (IntReply n, <[k := RCount n]> d)
  | Some (RCount z) => (IntReply (z + n), <[k := RCount (z + n)%Z]> d)
  | Some (RStr _) => (ErrReply "ERR value is not an integer or out of range", d)
  | Some (RList _) => (ErrReply WRONGTYPE, d)
  end.

(** One command against the keyspace.  A list key disappears with its last
    element.  BRPOP checks its timeout first; on an empty list it answers nil
    once a positive timeout has run out and never answers for timeout 0.
    LRANGE reads its two indexes as signed 64-bit integers before it looks at
    the key. *)
Definition exec (c : cmd W) (d : gmap string (rval W)) :
    reply W * gmap string (rval W) :=
  match c with
  | EXISTS k => (IntReply (match d !! k with Some _ => 1 | None => 0 end), d)
  | SET k v => (OkReply, <[k := RStr v]> d)
  | GET k =>
      match d !! k with
      | None => (NilReply, d)
      | Some (RStr v) => (BulkReply v, d)
      | Some (RCount z) => (IntReply z, d)
      | Some (RList _) => (ErrReply WRONGTYPE, d)
      end
  | DEL k => (IntReply (match d !! k with Some _ => 1 | None => 0 end), delete k d)
  | LPUSH k v =>
      match d !! k with
      | None => (IntReply 1, <[k := RList [v]]> d)
      | Some (RList l) =>
          (IntReply (Z.of_nat (S (length l))), <[k := RList (v :: l)]> d)
      | Some _ => (ErrReply WRONGTYPE, d)
      end
  | BRPOP k timeout =>
      match timeout with
      | NaN | Inf _ => (ErrReply "ERR timeout is not a float or out of range", d)
      | Num t =>
          if (t <? 0)%Z then (ErrReply "ERR timeout is negative", d)
          else
            match d !! k with
            | Some (RList l) =>
                match last l with
                | Some v =>
                    (PopReply k v,
                     match removelast l with
                     | [] => delete k d
                     | l' => <[k := RList l']> d
                     end)
                | None => (if (t =? 0)%Z then NoReply else NilReply, d)
                end
            | None => (if (t =? 0)%Z then NoReply else NilReply, d)
            | Some _ => (ErrReply WRONGTYPE, d)
            end
      end
  | LRANGE k start stop =>
      match start, stop with
      | Num a, Num b =>
          if reads_as_int64 a && reads_as_int64 b then
            match d !! k with
            | None => (MultiReply [], d)
            | Some (RList l) => (MultiReply (lrange l a b), d)
            | Some _ => (ErrReply WRONGTYPE, d)
            end
          else (ErrReply "ERR value is not an integer or out of range", d)
      | _, _ => (ErrReply "ERR value is not an integer or out of range", d)
      end
  | LLEN k =>
      match d !! k with
      | None => (IntReply 0, d)
      | Some (RList l) => (IntReply (Z.of_nat (length l)), d)
      | Some _ => (ErrReply WRONGTYPE, d)
      end
  | LINDEX k i =>
      match d !! k with
      | None => (NilReply, d)
      | Some (RList l) =>
          (match lindex l i with Some v => BulkReply v | None => NilReply end, d)
      | Some _ => (ErrReply WRONGTYPE, d)
      end
  | INCR k => incr_by k 1 d
  | INCRBY k n => incr_by k n d
  end.
End RedisCommands.

(** ** The process's surroundings

    What the engine takes from outside itself: the JSON codec, the date
    formatting, the clock, the random source, and the store's health. *)

Record runtime := {
  (** the text Redis stores *)
  wire : Type;
  JSON_stringify : json → wire;
  (** [None] is a SyntaxError *)
  JSON_parse : wire → option json;
  (** [new Date(ms).toISOString()] *)
  toISOString : Z → string;
  (** [new Date(x).getTime()], [x] possibly [undefined] *)
  Date_getTime : option json → jsnum;
  (** the successive readings of the system clock, in milliseconds *)
  clock : nat → Z;
  (** the successive results of [randomBytes(8).toString('hex')] *)
  randomHex : nat → string;
  (** whether the store rejects the i-th command it is sent *)
  faults : nat → bool;
}.

(** [JSON.parse] inverts [JSON.stringify]. *)
Definition codec_ok (E : runtime) : Prop :=
  ∀ v, JSON_parse E (JSON_stringify E v) = Some v.

(** The store answers every command. *)
Definition store_up (E : runtime) : Prop := ∀ i, faults E i = false.

(** The clock never runs backwards. *)
Definition clock_mono (E : runtime) : Prop :=
  ∀ i j, (i ≤ j)%nat → (clock E i ≤ clock E j)%Z.

(** What one client call sends: a single command, or a pipeline flushed by
    [exec()]. *)
Inductive request (W : Type) :=
| Single (c : cmd W)
| Pipeline (cs : list (cmd W)).
Arguments Single {W} c.
Arguments Pipeline {W} cs.

Definition request_size {W} (r : request W) : nat :=
  match r with Single _ => 1 | Pipeline cs => length cs end.

Definition sent {W} (log : list (request W)) : nat :=
  foldr (λ r n, (request_size r + n)%nat) 0%nat log.

(** The state of the world between two steps of a call: the keyspace, the
    requests sent so far (oldest first), and how many clock readings and random
    draws have been consumed. *)
Record world (W : Type) := World {
  db : gmap string (rval W);
  log : list (request W);
  reads : nat;
  draws : nat;
}.
Arguments World {W} db log reads draws.
Arguments db {W} w.
Arguments log {W} w.
Arguments reads {W} w.
Arguments draws {W} w.

Inductive exn :=
| BadRequestException (msg : string)
| NotFoundException (msg : string)
| InternalServerErrorException (msg : string)
| ReplyError (msg : string)
| SyntaxError
| TypeError.

(** How an awaited call ends: with a value, with an exception, or never (a
    blocking pop that waits for ever). *)
Inductive outcome (A : Type) :=
| Returns (a : A)
| Throws (e : exn)
| Blocks.
Arguments Returns {A} a.
Arguments Throws {A} e.
Arguments Blocks {A}.

(** ** What the services return *)

Record EnqueueResult := {
  enq_success : bool;
  enq_queue : string;
  enq_messageId : string;
  enq_timestamp : string;
}.

Record PeekResult := {
  peek_queue : string;
  peek_messages : list json;
  peek_count : nat;
  peek_totalDepth : Z;
}.

Record BulkEnqueueResult := {
  bulk_success : bool;
  bulk_queue : string;
  bulk_enqueuedCount : nat;
  bulk_messageIds : list string;
  bulk_timestamp : string;
}.

Record PurgeResult := {
  purge_success : bool;
  purge_queue : string;
  purge_purgedMessages : Z;
  purge_timestamp : string;
}.

Record CreateResult := {
  create_success : bool;
  create_queue : string;
  create_timestamp : string;
}.

Record QueueInfo := {
  info_name : string;
  info_depth : Z;
  info_totalEnqueued : jsnum;
  info_totalDequeued : jsnum;
  info_oldestMessageAge : option jsnum;
  info_newestMessageAge : option jsnum;
}.

Record DeleteResult := {
  delete_success : bool;
  delete_queue : string;
  delete_deletedMessages : Z;
  delete_timestamp : string;
}.

Record QueueMetrics := {
  metrics_queue : string;
  metrics_depth : Z;
  metrics_enqueueRate : Z * Z * Z;
  metrics_dequeueRate : Z * Z * Z;
  metrics_averageWaitTime : Z;
  metrics_oldestMessageAge : option jsnum;
  metrics_timestamp : string;
}.

Record ApiEnqueueResult := {
  api_success : bool;
  api_queue : string;
  api_timestamp : string;
}.

(** enqueue.dto.ts *)
Record EnqueueMessageDto := {
  message : json;
  priority : option string;
  metadata : option json;
}.

Record BulkEnqueueDto := {
  messages : list json;
}.

(** What the API controller writes to the response. *)
Inductive http_response :=
| NoContent
| OkJson (body : json).

Section Engine.
Context (E : runtime).

#[local] Abbreviation W := (wire E).

Definition M (A : Type) : Type := world W → outcome A * world W.

Definition ret {A} (a : A) : M A := λ w, (Returns a, w).

Definition bind {A B} (m : M A) (k : A → M B) : M B :=
  λ w,
    match m w with
    | (Returns a, w') => k a w'
    | (Throws e, w') => (Throws e, w')
    | (Blocks, w') => (Blocks, w')
    end.

Definition throw {A} (e : exn) : M A := λ w, (Throws e, w).

#[local] Notation "'let!' x ':=' c 'in' k" := (bind c (λ x, k))
  (at level 10, x name, c at level 100, k at level 200, only parsing).

(** [try { m } catch (e) { h e }] *)
Definition try_catch {A} (m : M A) (h : exn → M A) : M A :=
  λ w,
    match m w with
    | (Throws e, w') => h e w'
    | r => r
    end.

(** [new Date()] / [Date.now()] *)
Definition now : M Z :=
  λ w, (Returns (clock E (reads w)),
        World (db w) (log w) (S (reads w)) (draws w)).

(** helpers.ts, [generateMessageId] *)
Definition generateMessageId : M string :=
  λ w, (Returns (message_id_of (randomHex E (draws w))),
        World (db w) (log w) (reads w) (S (draws w))).

(** One command through the client: logged, then answered by the store
    unless the store rejects it; an error reply rejects the promise. *)
Definition answer (i : nat) (c : cmd W) (d : gmap string (rval W)) :
    reply W * gmap string (rval W) :=
  if faults E i then (ErrReply "ERR store unavailable", d) else exec c d.

Definition settle (r : reply W) : outcome (reply W) :=
  match r with
  | ErrReply msg => Throws (ReplyError msg)
  | NoReply => Blocks
  | r => Returns r
  end.

Definition sent_world (d : gmap string (rval W)) (c : cmd W) (w : world W) :
    world W :=
  World d (log w ++ [Single c])%list (reads w) (draws w).

Definition send (c : cmd W) : M (reply W) :=
  λ w,
    let (r, d) := answer (sent (log w)) c (db w) in
    (settle r, sent_world d c w).

(** [pipeline.exec()]: the queued commands go out as one request and are
    answered one by one, in order; a command that fails leaves its error in
    the result array, the others take effect, and the promise resolves. *)
Fixpoint run_batch (i : nat) (cs : list (cmd W)) (d : gmap string (rval W)) :
    list (reply W) * gmap string (rval W) :=
  match cs with
  | [] => ([], d)
  | c :: cs' =>
      let (r, d') := answer i c d in
      let (rs, d'') := run_batch (S i) cs' d' in
      (r :: rs, d'')
  end.

Definition pipeline_exec (cs : list (cmd W)) : M (list (reply W)) :=
  λ w,
    let (rs, d) := run_batch (sent (log w)) cs (db w) in
    (Returns rs, World d (log w ++ [Pipeline cs])%list (reads w) (draws w)).

Definition reply_int (r : reply W) : Z :=
  match r with IntReply z => z | _ => 0%Z end.

Definition redis_exists (k : string) : M bool :=
  let! r := send (EXISTS k) in ret (negb (reply_int r =? 0)%Z).

Definition redis_set (k : string) (v : W) : M unit :=
  let! _ := send (SET k v) in ret tt.

Definition redis_del (k : string) : M unit :=
  let! _ := send (DEL k) in ret tt.

Definition redis_lpush (k : string) (v : W) : M Z :=
  let! r := send (LPUSH k v) in ret (reply_int r).

Definition redis_incr (k : string) : M Z :=
  let! r := send (INCR k) in ret (reply_int r).

Definition redis_llen (k : string) : M Z :=
  let! r := send (LLEN k) in ret (reply_int r).

Definition redis_brpop (k : string) (timeout : jsnum) : M (option (string * W)) :=
  let! r := send (BRPOP k timeout) in
  ret (match r with PopReply k' v => Some (k', v) | _ => None end).

Definition redis_lrange (k : string) (start stop : jsnum) : M (list W) :=
  let! r := send (LRANGE k start stop) in
  ret (match r with MultiReply l => l | _ => [] end).

Definition redis_lindex (k : string) (i : Z) : M (option W) :=
  let! r := send (LINDEX k i) in
  ret (match r with BulkReply v => Some v | _ => None end).

(** [parseInt((await redis.get(k)) || '0', 10)] on a statistics key; text that
    is not a number parses to [NaN]. *)
Definition redis_get_count (k : string) : M jsnum :=
  let! r := send (GET k) in
  ret (match r with
       | NilReply => Num 0
       | IntReply z => Num z
       | _ => NaN
       end).

(** *** queues.service.ts *)

Definition invalid_name : exn := BadRequestException "Invalid queue name".
Definition timeout_too_large : exn :=
  BadRequestException "Timeout exceeds maximum (60s)".
Definition queue_not_found : exn := NotFoundException "Queue not found".
Definition queue_exists : exn := BadRequestException "Queue already exists".

(** The [QueueMessage] built at enqueue time. *)
Definition envelope (id : string) (payload : json) (enqueuedAt : string) : json :=
  JObj [("id", JStr id); ("payload", payload); ("enqueuedAt", JStr enqueuedAt)].

Definition metadata_record (createdAt : string) (name : string) : json :=
  JObj [("createdAt", JStr createdAt); ("name", JStr name)].

Definition enqueueMessage (queueName : string) (dto : EnqueueMessageDto) :
    M EnqueueResult :=
  if negb (validateQueueName queueName) then throw invalid_name else
  let! messageId := generateMessageId in
  let! t := now in
  let enqueuedAt := toISOString E t in
  let msg := envelope messageId (message dto) enqueuedAt in
  let! metadataExists := redis_exists (metadataKey queueName) in
  let! _ :=
    (if negb metadataExists then
       let! t' := now in
       redis_set (metadataKey queueName)
         (JSON_stringify E (metadata_record (toISOString E t') queueName))
     else ret tt) in
  let! _ := redis_lpush (queueKey queueName) (JSON_stringify E msg) in
  let! _ := redis_incr (enqueuedKey queueName) in
  ret {| enq_success := true; enq_queue := queueName;
         enq_messageId := messageId; enq_timestamp := enqueuedAt |}.

Definition dequeueMessage (queueName : string) (timeoutMs : jsnum) :
    M (option json) :=
  if negb (validateQueueName queueName) then throw invalid_name else
  if js_gt timeoutMs 60000 then throw timeout_too_large else
  let timeoutSeconds := Math_floor_div timeoutMs 1000 in
  let! result := redis_brpop (queueKey queueName) timeoutSeconds in
  match result with
  | Some (_, messageStr) =>
      match JSON_parse E messageStr with
      | None => throw SyntaxError
      | Some msg =>
          let! t := now in
          match assign_prop "dequeuedAt" (JStr (toISOString E t)) msg with
          | None => throw TypeError
          | Some msg' =>
              let! _ := redis_incr (dequeuedKey queueName) in
              ret (Some msg')
          end
      end
  | None => ret None
  end.

(** [xs.map(JSON.parse)], the first SyntaxError ending the call. *)
Fixpoint parse_all (xs : list W) : M (list json) :=
  match xs with
  | [] => ret []
  | x :: r =>
      match JSON_parse E x with
      | None => throw SyntaxError
      | Some v => let! vs := parse_all r in ret (v :: vs)
      end
  end.

Definition peekMessages (queueName : string) (count : jsnum) : M PeekResult :=
  if negb (validateQueueName queueName) then throw invalid_name else
  let messageCount := Math_min count 100 in
  let! msgs := redis_lrange (queueKey queueName) (js_neg messageCount) (Num (-1)) in
  let! depth := redis_llen (queueKey queueName) in
  let! parsed := parse_all (reverse msgs) in
  ret {| peek_queue := queueName; peek_messages := parsed;
         peek_count := length msgs; peek_totalDepth := depth |}.

(** The [map] callback of [bulkEnqueue]: one id and one clock reading per
    payload, in input order. *)
Fixpoint bulk_envelopes (payloads : list json) : M (list (string * W)) :=
  match payloads with
  | [] => ret []
  | p :: r =>
      let! messageId := generateMessageId in
      let! t := now in
      let! rest := bulk_envelopes r in
      ret ((messageId, JSON_stringify E (envelope messageId p (toISOString E t)))
           :: rest)
  end.

Definition bulkEnqueue (queueName : string) (dto : BulkEnqueueDto) :
    M BulkEnqueueResult :=
  if negb (validateQueueName queueName) then throw invalid_name else
  let! built := bulk_envelopes (messages dto) in
  let messageIds := built.*1 in
  let msgs := built.*2 in
  let pipeline :=
    ((LPUSH (queueKey queueName) <$> msgs)
     ++ [INCRBY (enqueuedKey queueName) (Z.of_nat (length msgs))])%list in
  let! _ := pipeline_exec pipeline in
  let! t := now in
  ret {| bulk_success := true; bulk_queue := queueName;
         bulk_enqueuedCount := length msgs; bulk_messageIds := messageIds;
         bulk_timestamp := toISOString E t |}.

Definition purgeQueue (queueName : string) : M PurgeResult :=
  if negb (validateQueueName queueName) then throw invalid_name else
  let! depth := redis_llen (queueKey queueName) in
  let! _ := redis_del (queueKey queueName) in
  let! t := now in
  ret {| purge_success := true; purge_queue := queueName;
         purge_purgedMessages := depth; purge_timestamp := toISOString E t |}.

Definition createQueue (queueName : string) : M CreateResult :=
  if negb (validateQueueName queueName) then throw invalid_name else
  let! exists_ := redis_exists (metadataKey queueName) in
  if exists_ then throw queue_exists else
  let! t := now in
  let createdAt := toISOString E t in
  let! _ := redis_set (metadataKey queueName)
              (JSON_stringify E (metadata_record createdAt queueName)) in
  ret {| create_success := true; create_queue := queueName;
         create_timestamp := createdAt |}.

(** The age computation inside its [try]: a SyntaxError from [JSON.parse]
    leaves the age [null] before the clock is read; [Date.now()] is read
    before [msg.enqueuedAt], whose TypeError on [null] is swallowed too. *)
Definition message_age (v : option W) : M (option jsnum) :=
  match v with
  | None => ret None
  | Some text =>
      match JSON_parse E text with
      | None => ret None
      | Some msg =>
          let! t := now in
          match msg with
          | JNull => ret None
          | _ => ret (Some (js_sub (Num t) (Date_getTime E (prop "enqueuedAt" msg))))
          end
      end
  end.

Definition getQueueInfo (queueName : string) : M QueueInfo :=
  if negb (validateQueueName queueName) then throw invalid_name else
  let! depth := redis_llen (queueKey queueName) in
  let! missing :=
    (if (depth =? 0)%Z
     then let! e := redis_exists (queueKey queueName) in ret (negb e)
     else ret false) in
  if missing then throw queue_not_found else
  let! ages :=
    (if (0 <? depth)%Z then
       let! oldest := redis_lindex (queueKey queueName) (-1) in
       let! newest := redis_lindex (queueKey queueName) 0 in
       let! oldestMessageAge := message_age oldest in
       let! newestMessageAge := message_age newest in
       ret (oldestMessageAge, newestMessageAge)
     else ret (None, None)) in
  let! totalEnqueued := redis_get_count (enqueuedKey queueName) in
  let! totalDequeued := redis_get_count (dequeuedKey queueName) in
  ret {| info_name := queueName; info_depth := depth;
         info_totalEnqueued := totalEnqueued;
         info_totalDequeued := totalDequeued;
         info_oldestMessageAge := ages.1;
         info_newestMessageAge := ages.2 |}.

Definition deleteQueue (queueName : string) : M DeleteResult :=
  if negb (validateQueueName queueName) then throw invalid_name else
  let! depth := redis_llen (queueKey queueName) in
  let! metadataExists := redis_exists (metadataKey queueName) in
  let! missing :=
    (if (depth =? 0)%Z && negb metadataExists
     then let! e := redis_exists (queueKey queueName) in ret (negb e)
     else ret false) in
  if missing then throw queue_not_found else
  let! _ := redis_del (queueKey queueName) in
  let! _ := redis_del (metadataKey queueName) in
  let! _ := redis_del (enqueuedKey queueName) in
  let! _ := redis_del (dequeuedKey queueName) in
  let! t := now in
  ret {| delete_success := true; delete_queue := queueName;
         delete_deletedMessages := depth;
         delete_timestamp := toISOString E t |}.

Definition getQueueMetrics (queueName : string) : M QueueMetrics :=
  if negb (validateQueueName queueName) then throw invalid_name else
  let! depth := redis_llen (queueKey queueName) in
  let! oldestMessageAge :=
    (if (0 <? depth)%Z then
       let! oldest := redis_lindex (queueKey queueName) (-1) in
       message_age oldest
     else ret None) in
  let! t := now in
  ret {| metrics_queue := queueName; metrics_depth := depth;
         metrics_enqueueRate := (0, 0, 0)%Z;
         metrics_dequeueRate := (0, 0, 0)%Z;
         metrics_averageWaitTime := 0;
         metrics_oldestMessageAge := oldestMessageAge;
         metrics_timestamp := toISOString E t |}.

(** *** api.service.ts *)

(** [ApiService.enqueue] *)
Definition api_enqueue (queueName : string) (msg : json) : M ApiEnqueueResult :=
  if negb (validateQueueName queueName) then throw invalid_name else
  let! _ := redis_lpush (queueKey queueName) (JSON_stringify E msg) in
  let! _ := redis_incr (enqueuedKey queueName) in
  let! t := now in
  ret {| api_success := true; api_queue := queueName;
         api_timestamp := toISOString E t |}.

(** [ApiService.dequeue] *)
Definition api_dequeue (queueName : string) (timeoutMs : jsnum) :
    M (option json) :=
  if negb (validateQueueName queueName) then throw invalid_name else
  if js_gt timeoutMs 60000 then throw timeout_too_large else
  let timeoutSeconds := Math_floor_div timeoutMs 1000 in
  let! result := redis_brpop (queueKey queueName) timeoutSeconds in
  match result with
  | Some (_, messageStr) =>
      match JSON_parse E messageStr with
      | None => throw SyntaxError
      | Some msg =>
          let! _ := redis_incr (dequeuedKey queueName) in
          ret (Some msg)
      end
  | None => ret None
  end.

(** *** The controllers' part in the calls *)

(** [catch (error)]: a BadRequestException goes through, anything else
    becomes an internal server error. *)
Definition only_bad_request {A} (m : M A) : M A :=
  try_catch m (λ e,
    match e with
    | BadRequestException _ => throw e
    | _ => throw (InternalServerErrorException "Internal server error")
    end).

Definition QueuesController_dequeueMessage (queueName : string)
    (timeout : option string) : M (option json) :=
  only_bad_request
    (let timeoutMs := parseInt (or_default timeout "10000") in
     dequeueMessage queueName timeoutMs).

Definition QueuesController_peekMessages (queueName : string)
    (count : option string) : M PeekResult :=
  only_bad_request
    (let messageCount := parseInt (or_default count "10") in
     peekMessages queueName messageCount).

Definition ApiController_enqueue (queueName : string) (msg : json) :
    M ApiEnqueueResult :=
  only_bad_request (api_enqueue queueName msg).

(** [message === null] holds of a call that came back empty-handed and of a
    message that is itself [null]; both are answered 204. *)
Definition ApiController_dequeue (queueName : string)
    (timeout : option string) : M http_response :=
  only_bad_request
    (let timeoutMs := parseInt (or_default timeout "10000") in
     let! msg := api_dequeue queueName timeoutMs in
     match msg with
     | None | Some JNull => ret NoContent
     | Some body => ret (OkJson body)
     end).
End Engine.

(** ** A concrete runtime

    The stored text is the JSON value itself, dates are written as decimal
    milliseconds, the clock advances one second per reading and the store never
    fails. *)
Module Demo.
Definition show (z : Z) : string := pretty z.

Definition getTime (x : option json) : jsnum :=
  match x with
  | Some (JStr s) => parseInt s
  | _ => NaN
  end.

Definition rt : runtime := {|
  wire := json;
  JSON_stringify := λ v, v;
  JSON_parse := Some;
  toISOString := show;
  Date_getTime := getTime;
  clock := λ i, (1000 * Z.of_nat i)%Z;
  randomHex := λ i, pretty i;
  faults := λ _, false;
|}.

(** The same runtime with a store that rejects the command of index [k]. *)
Definition rt_failing (k : nat) : runtime := {|
  wire := json;
  JSON_stringify := λ v, v;
  JSON_parse := Some;
  toISOString := show;
  Date_getTime := getTime;
  clock := λ i, (1000 * Z.of_nat i)%Z;
  randomHex := λ i, pretty i;
  faults := λ i, bool_decide (i = k);
|}.

Definition fresh : world json := World ∅ [] 0 0.

Definition dto (p : json) : EnqueueMessageDto :=
  {| message := p; priority := None; metadata := None |}.

(** The store after one enqueue on [orders]. *)
Definition one_message : world json :=
  (enqueueMessage rt "orders" (dto (JStr "A")) fresh).2.
End Demo.


(** * The rest of the backend

    [parseRedisInfo] of helpers.ts, the retry policy and readiness test of
    redis.service.ts, the health check, the controller methods not modelled
    above, and the two operations of queues.service.ts that scan the keyspace,
    [listQueues] and [getSystemStats]. *)

(** ** JavaScript strings as the code uses them *)

Definition CR : ascii := ascii_of_nat 13.
Definition LF : ascii := ascii_of_nat 10.
Definition CRLF : string := String CR (String LF "").

(** [s.startsWith(p)] *)
Definition startsWith (p s : string) : bool := String.prefix p s.

(** [s.split(sep)] for a non-empty [sep]: the pieces between the occurrences
    of [sep], found from the left and not overlapping; a string without one is
    its own single piece.  [skip] counts the characters of a separator still
    to be passed over, [piece] is the piece read so far. *)
Fixpoint split_from (sep : string) (skip : nat) (piece : string) (s : string) :
    list string :=
  match s with
  | EmptyString => [piece]
  | String c r =>
      match skip with
      | S k => split_from sep k piece r
      | O =>
          if String.prefix sep s
          then piece :: split_from sep (String.length sep - 1) "" r
          else split_from sep 0 (piece +:+ String c "") r
      end
  end.

Definition split (sep s : string) : list string := split_from sep 0 "" s.

(** [s.includes(sub)] *)
Fixpoint includes (sub s : string) : bool :=
  String.prefix sub s
  || match s with
     | String _ r => includes sub r
     | EmptyString => false
     end.

Fixpoint string_drop (n : nat) (s : string) : string :=
  match n, s with
  | S k, String _ r => string_drop k r
  | _, _ => s
  end.

(** [s.replace(pat, rep)] for a string pattern and a replacement text without
    [$]: the first occurrence only. *)
Fixpoint replace_first (pat rep s : string) : string :=
  if String.prefix pat s then rep +:+ string_drop (String.length pat) s
  else
    match s with
    | String c r => String c (replace_first pat rep r)
    | EmptyString => EmptyString
    end.

(** A [Set] of strings in insertion order, and [set.add(x)]. *)
Definition Set_add (names : list string) (x : string) : list string :=
  if bool_decide (x ∈ names) then names else names ++ [x].

(** ** helpers.ts, continued *)

(** The loop of [parseRedisInfo] over the lines. *)
Fixpoint first_field (lines : list string) (key : string) : option string :=
  match lines with
  | [] => None
  | line :: rest =>
      if startsWith (key +:+ ":") line then split ":" line !! 1%nat
      else first_field rest key
  end.

Definition parseRedisInfo (info key : string) : option string :=
  first_field (split CRLF info) key.

(** ** redis.service.ts *)

(** [retryStrategy]: the delay before reconnection attempt [times], [None]
    for giving up. *)
Definition retryStrategy (times : Z) : option Z :=
  if (3 <? times)%Z then None else Some (Z.min (times * 50) 2000).

(** [isReady], on the status the client reports. *)
Definition isReady (client_status : string) : bool :=
  String.eqb client_status "ready".

(** ** What the other services return *)

(** [uptime] is whatever number [process.uptime()] gives; it is handed on as
    it is. *)
Record HealthStatus (U : Type) := {
  health_status : string;
  health_redis : string;
  health_uptime : U;
  health_timestamp : string;
  health_isHealthy : bool;
}.
Arguments health_status {U} h.
Arguments health_redis {U} h.
Arguments health_uptime {U} h.
Arguments health_timestamp {U} h.
Arguments health_isHealthy {U} h.

(** [createdAt] is [null] ([Some JNull]), the value the metadata holds, or
    [undefined] ([None]) when the metadata holds none. *)
Record QueueListItem := {
  item_name : string;
  item_depth : Z;
  item_oldestMessageAge : option jsnum;
  item_createdAt : option json;
}.

Record QueueList := {
  list_queues : list QueueListItem;
  list_total : nat;
}.

Record SystemStats := {
  stats_total : nat;
  stats_active : Z;
  stats_empty : Z;
  stats_totalDepth : Z;
  stats_memoryUsed : string;
  stats_timestamp : string;
}.

Definition internal_server_error : exn :=
  InternalServerErrorException "Internal server error".

(** *** The validation pipes

    A body declared with a DTO class goes through the global [ValidationPipe]
    of main.ts and then through the [ValidationPipe] of its [@Body], before
    the controller method is called and outside its [try].  enqueue.dto.ts
    asks that [message], or [messages], is not empty, and leaves open what
    kind of value it is; how the pipes apply that is the library's matter.
    What they make of a parsed body is therefore taken from outside: the
    message of the BadRequestException they throw, or what the method is
    handed. *)
Record pipes := {
  (** for [EnqueueMessageDto] *)
  enqueue_pipe : json → string + EnqueueMessageDto;
  (** for [BulkEnqueueDto]: what stands under [messages] *)
  bulk_pipe : json → string + json;
}.

Section Backend.
Context (E : runtime) (P : pipes).

#[local] Notation "'let!' x ':=' c 'in' k" := (bind E c (λ x, k))
  (at level 10, x name, c at level 100, k at level 200, only parsing).

(** *** health.service.ts and health.controller.ts *)

Definition getHealthStatus {U} (client_status : string) (uptime : U) :
    M E (HealthStatus U) :=
  let redisStatus := if isReady client_status then "connected" else "disconnected" in
  let isHealthy := String.eqb redisStatus "connected" in
  let! t := now E in
  ret E {| health_status := if isHealthy then "healthy" else "unhealthy";
           health_redis := redisStatus;
           health_uptime := uptime;
           health_timestamp := toISOString E t;
           health_isHealthy := isHealthy |}.

(** [checkHealth]: the status code and the body of the response. *)
Definition checkHealth {U} (client_status : string) (uptime : U) :
    M E (Z * HealthStatus U) :=
  let! health := getHealthStatus client_status uptime in
  if health_isHealthy health then ret E (200%Z, health)
  else ret E (503%Z, health).

(** *** The other methods of the queues controller

    The body of a create request, which no pipe validates, is taken as typed,
    with a string under [name]. *)

(** [catch (error)]: a BadRequestException or a NotFoundException goes
    through, anything else becomes an internal server error. *)
Definition bad_request_or_not_found {A} (m : M E A) : M E A :=
  try_catch E m (λ e,
    match e with
    | BadRequestException _ | NotFoundException _ => throw E e
    | _ => throw E internal_server_error
    end).

Definition QueuesController_createQueue (name : string) : M E CreateResult :=
  only_bad_request E (createQueue E name).

Definition QueuesController_enqueueMessage (queueName : string)
    (body : json) : M E EnqueueResult :=
  match enqueue_pipe P body with
  | inl msg => throw E (BadRequestException msg)
  | inr dto => only_bad_request E (enqueueMessage E queueName dto)
  end.

(** [bulkEnqueue] on whatever stands under [messages]: on a value that is no
    array, [dto.messages.map] is no function, a TypeError, which comes after
    the test of the name. *)
Definition bulkEnqueue_of (queueName : string) (messages : json) :
    M E BulkEnqueueResult :=
  match messages with
  | JArr payloads => bulkEnqueue E queueName {| messages := payloads |}
  | _ =>
      if negb (validateQueueName queueName) then throw E invalid_name
      else throw E TypeError
  end.

Definition QueuesController_bulkEnqueue (queueName : string)
    (body : json) : M E BulkEnqueueResult :=
  match bulk_pipe P body with
  | inl msg => throw E (BadRequestException msg)
  | inr messages => only_bad_request E (bulkEnqueue_of queueName messages)
  end.

Definition QueuesController_purgeQueue (queueName : string) : M E PurgeResult :=
  only_bad_request E (purgeQueue E queueName).

Definition QueuesController_getQueueInfo (queueName : string) : M E QueueInfo :=
  bad_request_or_not_found (getQueueInfo E queueName).

Definition QueuesController_deleteQueue (queueName : string) : M E DeleteResult :=
  bad_request_or_not_found (deleteQueue E queueName).

Definition QueuesController_getQueueMetrics (queueName : string) :
    M E QueueMetrics :=
  only_bad_request E (getQueueMetrics E queueName).
End Backend.

(** ** Scanning the keyspace

    [listQueues] and [getSystemStats] send two commands the other operations
    do not, KEYS and INFO. *)

Inductive scan_cmd :=
| KEYS (pattern : string)
| INFO (section : string).

(** The pattern matching of KEYS for patterns made of [*], [?] and literal
    characters; the one pattern the engine sends, [queue:*], has no character
    class and no escape. *)
Fixpoint glob (p : string) : string → bool :=
  match p with
  | EmptyString => λ s, match s with EmptyString => true | _ => false end
  | String c p' =>
      if Ascii.eqb c "*" then
        fix star (s : string) : bool :=
          glob p' s
          || match s with
             | String _ r => star r
             | EmptyString => false
             end
      else if Ascii.eqb c "?" then
        λ s, match s with String _ r => glob p' r | EmptyString => false end
      else
        λ s, match s with
             | String c' r => Ascii.eqb c c' && glob p' r
             | EmptyString => false
             end
  end.

(** What is the server's own in the replies to the two commands: the order in
    which KEYS lists the keys, which Redis leaves open, and the text of INFO,
    given the position of the command among those sent and the section asked
    for. *)
Record server (W : Type) := {
  keys_order : gmap string (rval W) → list string;
  info_reply : nat → string → string;
}.
Arguments keys_order {W} s d.
Arguments info_reply {W} s i section.

(** KEYS lists every key once. *)
Definition keys_listed {W} (Srv : server W) : Prop :=
  ∀ d, NoDup (keys_order Srv d) ∧ ∀ k, k ∈ keys_order Srv d ↔ is_Some (d !! k).

(** The world of a scanning operation: the world as before, and the KEYS and
    INFO commands sent, which its log has no place for, each with its position
    among all the commands sent. *)
Record scanning (W : Type) := Scanning {
  base : world W;
  scans : list (nat * scan_cmd);
}.
Arguments Scanning {W} base scans.
Arguments base {W} s.
Arguments scans {W} s.

Section Scan.
Context (E : runtime) (Srv : server (wire E)).

#[local] Abbreviation W := (wire E).

Definition SM (A : Type) : Type := scanning W → outcome A * scanning W.

Definition scan_ret {A} (a : A) : SM A := λ s, (Returns a, s).

Definition scan_bind {A B} (m : SM A) (k : A → SM B) : SM B :=
  λ s,
    match m s with
    | (Returns a, s') => k a s'
    | (Throws e, s') => (Throws e, s')
    | (Blocks, s') => (Blocks, s')
    end.

#[local] Notation "'let*' x ':=' c 'in' k" := (scan_bind c (λ x, k))
  (at level 10, x name, c at level 100, k at level 200, only parsing).

(** A step that sends nothing, run on the world underneath. *)
Definition quiet {A} (m : M E A) : SM A :=
  λ s, let (o, w) := m (base s) in (o, Scanning w (scans s)).

Definition commands_sent (s : scanning W) : nat :=
  (sent (log (base s)) + length (scans s))%nat.

(** One of the commands above through the client, as [send]. *)
Definition scan_send (c : cmd W) : SM (reply W) :=
  λ s,
    let (r, d) := answer E (commands_sent s) c (db (base s)) in
    (settle E r, Scanning (sent_world E d c (base s)) (scans s)).

Definition scanned (c : scan_cmd) (s : scanning W) : scanning W :=
  Scanning (base s) (scans s ++ [(commands_sent s, c)]).

(** [redis.keys(pattern)] *)
Definition scan_keys (pattern : string) : SM (list string) :=
  λ s,
    (if faults E (commands_sent s) then Throws (ReplyError "ERR store unavailable")
     else Returns (filter (λ k, glob pattern k = true) (keys_order Srv (db (base s)))),
     scanned (KEYS pattern) s).

(** [redis.info(section)] *)
Definition scan_info (section : string) : SM string :=
  λ s,
    (if faults E (commands_sent s) then Throws (ReplyError "ERR store unavailable")
     else Returns (info_reply Srv (commands_sent s) section),
     scanned (INFO section) s).

Definition scan_llen (k : string) : SM Z :=
  let* r := scan_send (LLEN k) in scan_ret (reply_int E r).

Definition scan_lindex (k : string) (i : Z) : SM (option W) :=
  let* r := scan_send (LINDEX k i) in
  scan_ret (match r with BulkReply v => Some v | _ => None end).

(** [getSystemStats]: the loop over the keys. *)
Fixpoint total_depths (keys : list string) (totalDepth activeCount : Z) :
    SM (Z * Z) :=
  match keys with
  | [] => scan_ret (totalDepth, activeCount)
  | key :: rest =>
      let* depth := scan_llen key in
      total_depths rest (totalDepth + depth)%Z
        (if (0 <? depth)%Z then (activeCount + 1)%Z else activeCount)
  end.

Definition getSystemStats : SM SystemStats :=
  let* keys := scan_keys "queue:*" in
  let queueKeys := filter (λ k, includes ":stats:" k = false) keys in
  let* totals := total_depths queueKeys 0 0 in
  let* info := scan_info "memory" in
  let memoryUsed := or_default (parseRedisInfo info "used_memory_human") "N/A" in
  let* t := quiet (now E) in
  scan_ret {| stats_total := length queueKeys;
              stats_active := totals.2;
              stats_empty := (Z.of_nat (length queueKeys) - totals.2)%Z;
              stats_totalDepth := totals.1;
              stats_memoryUsed := memoryUsed;
              stats_timestamp := toISOString E t |}.

(** [listQueues]: what [createdAt] becomes after the GET of the metadata.  A
    missing key leaves it [null], and so does a text that does not parse or
    parses to [null], whose property cannot be read; the text of a counter
    parses to a number, which has no such property. *)
Definition created_at (r : reply W) : option json :=
  match r with
  | BulkReply text =>
      match JSON_parse E text with
      | Some JNull | None => Some JNull
      | Some metadata => prop "createdAt" metadata
      end
  | IntReply _ => None
  | _ => Some JNull
  end.

(** The mapper of [listQueues], from one [await] to the next. *)
Definition list_llen (queueName : string) : SM (string * Z) :=
  let* depth := scan_llen (queueKey queueName) in
  scan_ret (queueName, depth).

Definition list_get (x : string * Z) : SM (string * Z * option json) :=
  let* r := scan_send (GET (metadataKey x.1)) in
  scan_ret (x.1, x.2, created_at r).

Definition list_lindex (x : string * Z * option json) : SM QueueListItem :=
  let* oldestMessageAge :=
    (if (0 <? x.1.2)%Z then
       let* oldest := scan_lindex (queueKey x.1.1) (-1) in
       quiet (message_age E oldest)
     else scan_ret None) in
  scan_ret {| item_name := x.1.1; item_depth := x.1.2;
              item_oldestMessageAge := oldestMessageAge;
              item_createdAt := x.2 |}.

(** [Promise.all] over mappers that each wait for the store: every mapper
    sends its next command before any of them sees a reply, so the commands of
    one round go out in the order of the mappers, and a mapper that has failed
    takes no further part.  One round, for the mappers still running: *)
Fixpoint each {A B} (step : A → SM B) (running : list (outcome A))
    (s : scanning W) : list (outcome B) * scanning W :=
  match running with
  | [] => ([], s)
  | Returns a :: rest =>
      let (o, s') := step a s in
      let (os, s'') := each step rest s' in
      (o :: os, s'')
  | Throws e :: rest =>
      let (os, s') := each step rest s in (Throws e :: os, s')
  | Blocks :: rest =>
      let (os, s') := each step rest s in (Blocks :: os, s')
  end.

Definition thrown {A} (o : outcome A) : option exn :=
  match o with Throws e => Some e | _ => None end.

Definition first_thrown {A} (os : list (outcome A)) : option exn :=
  head (omap thrown os).

Definition returned {A} (os : list (outcome A)) : option (list A) :=
  mapM (λ o, match o with Returns a => Some a | _ => None end) os.

(** The names [listQueues] reads off the keys. *)
Definition queue_names (keys : list string) : list string :=
  let queueDataKeys :=
    filter (λ k, includes ":stats:" k = false ∧ includes ":metadata" k = false)
      keys in
  let metadataKeys := filter (λ k, includes ":metadata" k = true) keys in
  let queueNames :=
    foldl Set_add [] (replace_first "queue:" "" <$> queueDataKeys) in
  foldl Set_add queueNames
    (replace_first ":metadata" "" ∘ replace_first "queue:" "" <$> metadataKeys).

(** [listQueues].  The promise of [Promise.all] is rejected with the first
    failure in time, which is the first of the earliest round that has one;
    the other mappers run on all the same, and the world given here is the one
    they leave. *)
Definition listQueues : SM QueueList :=
  λ s,
    match scan_keys "queue:*" s with
    | (Returns keys, s0) =>
        let (r1, s1) := each list_llen (Returns <$> queue_names keys) s0 in
        let (r2, s2) := each list_get r1 s1 in
        let (r3, s3) := each list_lindex r2 s2 in
        (match first_thrown r1 ∪ first_thrown r2 ∪ first_thrown r3 with
         | Some e => Throws e
         | None =>
             match returned r3 with
             | Some queues =>
                 Returns {| list_queues := queues; list_total := length queues |}
             | None => Blocks
             end
         end, s3)
    | (Throws e, s0) => (Throws e, s0)
    | (Blocks, s0) => (Blocks, s0)
    end.

(** [catch (error)] of the two controller methods: whatever is thrown becomes
    an internal server error. *)
Definition always_internal {A} (m : SM A) : SM A :=
  λ s,
    match m s with
    | (Throws _, s') => (Throws internal_server_error, s')
    | r => r
    end.

Definition QueuesController_listQueues : SM QueueList :=
  always_internal listQueues.

Definition QueuesController_getSystemStats : SM SystemStats :=
  always_internal getSystemStats.
End Scan.

Module DemoServer.
(** A server that lists the keys in the order of the map and reports one
    figure for the memory in use. *)
Definition memory_info : string :=
  "# Memory" +:+ CRLF +:+ "used_memory:1048576" +:+ CRLF
  +:+ "used_memory_human:1.00M" +:+ CRLF.

Definition srv : server json := {|
  keys_order := λ d, (map_to_list d).*1;
  info_reply := λ _ _, memory_info;
|}.

Definition start (w : world json) : scanning json := Scanning w [].

(** Pipes that test the one rule of each DTO class on the body as it came. *)
Definition validation : pipes := {|
  enqueue_pipe := λ body,
    match prop "message" body with
    | None | Some JNull | Some (JStr "") => inl "message should not be empty"
    | Some v => inr {| message := v; priority := None; metadata := None |}
    end;
  bulk_pipe := λ body,
    match prop "messages" body with
    | None | Some JNull | Some (JStr "") => inl "messages should not be empty"
    | Some v => inr v
    end;
|}.

(** The store after one post to [jobs] through the API service. *)
Definition posted : world json :=
  (api_enqueue Demo.rt "jobs" (JObj [("id", JNum 1)]) Demo.fresh).2.

(** The runtime of [Demo] with a store that rejects every command. *)
Definition rt_down : runtime := {|
  wire := json;
  JSON_stringify := λ v, v;
  JSON_parse := Some;
  toISOString := Demo.show;
  Date_getTime := Demo.getTime;
  clock := λ i, (1000 * Z.of_nat i)%Z;
  randomHex := λ i, pretty i;
  faults := λ _, true;
|}.
End DemoServer.
(** * Reading the model

    Definitions used to state the properties: the parts of a key, what a key
    holds, and the four observable components of a queue. *)

Fixpoint all_chars (cls : ascii → bool) (s : string) : bool :=
  match s with
  | EmptyString => true
  | String c r => cls c && all_chars cls r
  end.

Definition within (hi : option nat) (n : nat) : bool :=
  match hi with
  | None => true
  | Some h => (n <=? h)%nat
  end.

(** The four keys of a queue. *)
Inductive kind := KList | KMeta | KEnq | KDeq.

Definition key_suffix (k : kind) : string :=
  match k with
  | KList => ""
  | KMeta => ":metadata"
  | KEnq => ":stats:enqueued"
  | KDeq => ":stats:dequeued"
  end.

Definition key_of (k : kind) (queueName : string) : string :=
  "queue:" +:+ queueName +:+ key_suffix k.

Section Views.
Context {W : Type}.
Implicit Types (d : gmap string (rval W)) (w : world W) (k : string).

(** What a key holds, read as a list or as a counter. *)
Definition list_at d k : list W :=
  match d !! k with Some (RList l) => l | _ => [] end.

Definition count_at d k : Z :=
  match d !! k with Some (RCount z) => z | _ => 0%Z end.

(** The key is absent or holds a list, which Redis never keeps empty. *)
Definition listy d k : Prop :=
  match d !! k with
  | None => True
  | Some (RList l) => l ≠ []
  | Some _ => False
  end.

(** The key is absent or holds a counter. *)
Definition county d k : Prop :=
  match d !! k with
  | None | Some (RCount _) => True
  | Some _ => False
  end.

(** Storing a list the way Redis does: no key for the empty list. *)
Definition put_list k (l : list W) d : gmap string (rval W) :=
  match l with
  | [] => delete k d
  | _ => <[k := RList l]> d
  end.

(** The stored texts of a queue, newest first. *)
Definition items w (queueName : string) : list W :=
  list_at (db w) (key_of KList queueName).

(** The lifetime counters as [getQueueInfo] reads them. *)
Definition totalEnqueued w (queueName : string) : Z :=
  count_at (db w) (key_of KEnq queueName).

Definition totalDequeued w (queueName : string) : Z :=
  count_at (db w) (key_of KDeq queueName).

Definition depth w (queueName : string) : Z :=
  Z.of_nat (length (items w queueName)).

Definition has_metadata w (queueName : string) : Prop :=
  is_Some (db w !! key_of KMeta queueName).

(** The queue's list and counters hold values of their kinds. *)
Definition typed w (queueName : string) : Prop :=
  listy (db w) (key_of KList queueName)
  ∧ county (db w) (key_of KEnq queueName)
  ∧ county (db w) (key_of KDeq queueName).

(** Two worlds agree on every key that is not one of the queue's. *)
Definition same_elsewhere (queueName : string) w w' : Prop :=
  ∀ k, (∀ kd, k ≠ key_of kd queueName) → db w' !! k = db w !! k.
End Views.

(** ** Scenarios *)

Section Scenarios.
Context (E : runtime).

Definition payload_of (r : option json) : option json := r ≫= prop "payload".

(** Three enqueues, then three dequeues, all on one queue. *)
Definition fifo_scenario (queueName : string) (a b c : EnqueueMessageDto)
    (t1 t2 t3 : jsnum) : M E (list (option json)) :=
  bind E (enqueueMessage E queueName a) (λ _,
  bind E (enqueueMessage E queueName b) (λ _,
  bind E (enqueueMessage E queueName c) (λ _,
  bind E (dequeueMessage E queueName t1) (λ r1,
  bind E (dequeueMessage E queueName t2) (λ r2,
  bind E (dequeueMessage E queueName t3) (λ r3,
  ret E [r1; r2; r3])))))).

(** One enqueue, then one dequeue, through the queue service or through the
    API service. *)
Definition round_trip (queueName : string) (dto : EnqueueMessageDto)
    (timeoutMs : jsnum) : M E (option json) :=
  bind E (enqueueMessage E queueName dto) (λ _,
  dequeueMessage E queueName timeoutMs).

Definition api_round_trip (queueName : string) (msg : json)
    (timeoutMs : jsnum) : M E (option json) :=
  bind E (api_enqueue E queueName msg) (λ _,
  api_dequeue E queueName timeoutMs).
End Scenarios.

(** ** Properties of a call that compose along [bind] *)

Section Composition.
Context (E : runtime).

(** Every run of [m] relates the keyspace before to the keyspace after. *)
Definition preserves {A} (P : relation (gmap string (rval (wire E))))
    (m : M E A) : Prop :=
  ∀ w, P (db w) (db (m w).2).

(** No run of [m] throws [e]. *)
Definition never_throws {A} (e : exn) (m : M E A) : Prop :=
  ∀ w, (m w).1 ≠ Throws e.

(** Every run of [m] only appends to the log. *)
Definition log_grows {A} (m : M E A) : Prop :=
  ∀ w, ∃ more, log (m w).2 = log w ++ more.

(** A command that leaves every key but its own alone, and its own key too
    when it is only a read. *)
Definition cmd_key {W} (c : cmd W) : string :=
  match c with
  | EXISTS k | SET k _ | GET k | DEL k | LPUSH k _ | BRPOP k _
  | LRANGE k _ _ | LLEN k | LINDEX k _ | INCR k | INCRBY k _ => k
  end.

Definition cmd_reads {W} (c : cmd W) : bool :=
  match c with
  | EXISTS _ | GET _ | LRANGE _ _ _ | LLEN _ | LINDEX _ _ => true
  | _ => false
  end.

(** The counters of every well-named queue are at least what they were. *)
Definition counters_grow : relation (gmap string (rval (wire E))) :=
  λ d d', ∀ q, validateQueueName q = true →
    (count_at d (key_of KEnq q) ≤ count_at d' (key_of KEnq q))%Z
    ∧ (count_at d (key_of KDeq q) ≤ count_at d' (key_of KDeq q))%Z.
End Composition.

(** ** Calls and sequences of calls *)

Inductive call :=
| CallEnqueue (queueName : string) (dto : EnqueueMessageDto)
| CallDequeue (queueName : string) (timeoutMs : jsnum)
| CallPeek (queueName : string) (count : jsnum)
| CallBulkEnqueue (queueName : string) (dto : BulkEnqueueDto)
| CallPurge (queueName : string)
| CallCreate (queueName : string)
| CallInfo (queueName : string)
| CallDelete (queueName : string)
| CallMetrics (queueName : string)
| CallApiEnqueue (queueName : string) (msg : json)
| CallApiDequeue (queueName : string) (timeoutMs : jsnum).

Definition call_queue (c : call) : string :=
  match c with
  | CallEnqueue n _ | CallDequeue n _ | CallPeek n _ | CallBulkEnqueue n _
  | CallPurge n | CallCreate n | CallInfo n | CallDelete n | CallMetrics n
  | CallApiEnqueue n _ | CallApiDequeue n _ => n
  end.

Definition is_delete (c : call) : bool :=
  match c with CallDelete _ => true | _ => false end.

Definition is_purge (c : call) : bool :=
  match c with CallPurge _ => true | _ => false end.

(** A value [dequeueMessage] can stamp: an object or an array, which is what
    the HTTP body parser hands to the API controller. *)
Definition stampable (v : json) : bool :=
  match v with JObj _ | JArr _ => true | _ => false end.

Definition posts_stampable (c : call) : bool :=
  match c with CallApiEnqueue _ msg => stampable msg | _ => true end.

Section Calls.
Context (E : runtime).

Definition discard {A} (m : M E A) : M E unit := bind E m (λ _, ret E tt).

(** One call of a client, its result dropped. *)
Definition perform (c : call) : M E unit :=
  match c with
  | CallEnqueue n dto => discard (enqueueMessage E n dto)
  | CallDequeue n t => discard (dequeueMessage E n t)
  | CallPeek n k => discard (peekMessages E n k)
  | CallBulkEnqueue n dto => discard (bulkEnqueue E n dto)
  | CallPurge n => discard (purgeQueue E n)
  | CallCreate n => discard (createQueue E n)
  | CallInfo n => discard (getQueueInfo E n)
  | CallDelete n => discard (deleteQueue E n)
  | CallMetrics n => discard (getQueueMetrics E n)
  | CallApiEnqueue n msg => discard (api_enqueue E n msg)
  | CallApiDequeue n t => discard (api_dequeue E n t)
  end.

(** The world after a sequence of calls, each run to its end, whatever that
    end is. *)
Definition after (cs : list call) (w : world (wire E)) : world (wire E) :=
  foldl (λ w c, (perform c w).2) w cs.

(** The engine's own fresh start. *)
Definition empty_world : world (wire E) := World ∅ [] 0 0.
End Calls.

(** ** Bulk enqueue, read off its inputs *)

Section Bulk.
Context (E : runtime).

(** The ids and texts [bulkEnqueue] builds for payloads [ps] when [d] random
    draws and [r] clock readings have been consumed before. *)
Fixpoint bulk_built (ps : list json) (d r : nat) : list (string * wire E) :=
  match ps with
  | [] => []
  | p :: ps' =>
      let id := message_id_of (randomHex E d) in
      (id, JSON_stringify E (envelope id p (toISOString E (clock E r))))
      :: bulk_built ps' (S d) (S r)
  end.

(** The one request [bulkEnqueue] sends. *)
Definition bulk_request (queueName : string) (texts : list (wire E)) :
    request (wire E) :=
  Pipeline ((LPUSH (queueKey queueName) <$> texts)
            ++ [INCRBY (enqueuedKey queueName) (Z.of_nat (length texts))]).
End Bulk.

(** ** The statistics invariant *)

Section Invariant.
Context (E : runtime).

(** A stored text that parses to something [dequeueMessage] can stamp. *)
Definition wellformed (x : wire E) : Prop :=
  ∃ v, JSON_parse E x = Some v ∧ stampable v = true.

(** The counters of a queue account for its depth. *)
Definition balanced (w : world (wire E)) (queueName : string) : Prop :=
  typed w queueName
  ∧ Forall wellformed (items w queueName)
  ∧ (totalEnqueued w queueName - totalDequeued w queueName = depth w queueName)%Z.

Definition consistent (w : world (wire E)) : Prop :=
  ∀ q, validateQueueName q = true → balanced w q.

(** The lists and counters of every well-named queue are what they were. *)
Definition data_kept : relation (gmap string (rval (wire E))) :=
  λ d d', ∀ q kd, validateQueueName q = true → kd ≠ KMeta →
    d' !! key_of kd q = d !! key_of kd q.

(** What peek leaves behind: the keyspace as it was, two reads in the log. *)
Definition peeked (queueName : string) (first : Z) (w : world (wire E)) :
    world (wire E) :=
  World (db w)
    (log w ++ [Single (LRANGE (queueKey queueName) (Num first) (Num (-1)));
               Single (LLEN (queueKey queueName))])
    (reads w) (draws w).
End Invariant.

(** ** Timeouts *)

(** The requested timeout is above the ceiling of 60 000 ms. *)
Definition exceeds_ceiling (timeoutMs : jsnum) : Prop :=
  match timeoutMs with
  | Num t => (60000 < t)%Z
  | NaN => False
  | Inf negative => negative = false
  end.

(** ** Racing consumers

    Several engine instances call [dequeueMessage] on one queue.  They share
    nothing but the store, which runs one command at a time, so a run of the
    system is an interleaving of the commands of the calls.  A call has two
    commands, BRPOP and then INCR. *)

Section Race.
Context (E : runtime).

(** [dequeueMessage] up to and including its BRPOP and the stamping of what
    came back. *)
Definition dequeue_pop (queueName : string) (timeoutMs : jsnum) :
    M E (option json) :=
  if negb (validateQueueName queueName) then throw E invalid_name else
  if js_gt timeoutMs 60000 then throw E timeout_too_large else
  bind E (redis_brpop E (queueKey queueName) (Math_floor_div timeoutMs 1000))
    (λ result,
       match result with
       | Some (_, messageStr) =>
           match JSON_parse E messageStr with
           | None => throw E SyntaxError
           | Some msg =>
               bind E (now E) (λ t,
                 match assign_prop "dequeuedAt" (JStr (toISOString E t)) msg with
                 | None => throw E TypeError
                 | Some msg' => ret E (Some msg')
                 end)
           end
       | None => ret E None
       end).

(** The rest of [dequeueMessage] once it holds a message: the INCR. *)
Definition dequeue_count (queueName : string) (msg' : json) : M E (option json) :=
  bind E (redis_incr E (dequeuedKey queueName)) (λ _, ret E (Some msg')).

(** Where a consumer is in its call. *)
Inductive consumer :=
| Calling (timeoutMs : jsnum)
| Counting (msg : json)
| Ended (result : outcome (option json)).

(** One store command of one consumer.  [Ended Blocks] is a call that hangs:
    nobody enqueues in a race of consumers. *)
Definition consumer_step (queueName : string) (c : consumer)
    (w : world (wire E)) : consumer * world (wire E) :=
  match c with
  | Calling timeoutMs =>
      match dequeue_pop queueName timeoutMs w with
      | (Returns (Some msg), w') => (Counting msg, w')
      | (o, w') => (Ended o, w')
      end
  | Counting msg =>
      let (o, w') := dequeue_count queueName msg w in (Ended o, w')
  | Ended o => (Ended o, w)
  end.

(** The scheduler lets consumer [i] run its next command. *)
Definition race_step (queueName : string) (i : nat)
    (st : list consumer * world (wire E)) : list consumer * world (wire E) :=
  match st.1 !! i with
  | Some c =>
      let (c', w') := consumer_step queueName c st.2 in (<[i := c']> st.1, w')
  | None => st
  end.

Definition race (queueName : string) (schedule : list nat)
    (st : list consumer * world (wire E)) : list consumer * world (wire E) :=
  foldl (λ st i, race_step queueName i st) st schedule.

(** The message a consumer has taken off the list, if any. *)
Definition prize (c : consumer) : option json :=
  match c with
  | Counting msg | Ended (Returns (Some msg)) => Some msg
  | _ => None
  end.

(** The message a consumer has returned to its caller, if any. *)
Definition delivered (c : consumer) : option json :=
  match c with
  | Ended (Returns (Some msg)) => Some msg
  | _ => None
  end.

Definition ended (c : consumer) : Prop :=
  match c with Ended _ => True | _ => False end.

(** The call found nothing: it timed out, or it hangs. *)
Definition empty_handed (c : consumer) : Prop :=
  c = Ended (Returns None) ∨ c = Ended Blocks.

(** [m] is the stored text [x], parsed and stamped with some dequeue time. *)
Definition stamp_of (x : wire E) (m : json) : Prop :=
  ∃ v t, JSON_parse E x = Some v
         ∧ assign_prop "dequeuedAt" (JStr (toISOString E t)) v = Some m.

(** How far a consumer has come: 0, 1 or 2 commands. *)
Definition progress (c : consumer) : nat :=
  match c with Calling _ => 0 | Counting _ => 1 | Ended _ => 2 end.
End Race.

(** The service lets the timeout through and BRPOP takes it: a number from 0
    to the ceiling. *)
Definition accepted (timeoutMs : jsnum) : bool :=
  match timeoutMs with
  | Num t => (0 <=? t)%Z && (t <=? 60000)%Z
  | _ => false
  end.

(** Such a timeout of less than a second reaches BRPOP as 0, which waits
    without limit. *)
Definition waits_for_ever (timeoutMs : jsnum) : bool :=
  match timeoutMs with
  | Num t => (t <? 1000)%Z
  | _ => false
  end.

(** How a call with this timeout ends on an empty list. *)
Definition ends_empty_handed (timeoutMs : jsnum) : consumer :=
  Ended (if waits_for_ever timeoutMs then Blocks else Returns None).

(** Where a consumer that called with [timeoutMs] can be: it holds or has
    returned a message only if its timeout is accepted; it has timed out only
    with an accepted timeout of a second or more, and hangs only with an
    accepted timeout below a second; it has thrown only if its timeout is not
    accepted. *)
Definition consumer_fits (timeoutMs : jsnum) (c : consumer) : Prop :=
  match c with
  | Calling tm => tm = timeoutMs
  | Counting _ | Ended (Returns (Some _)) => accepted timeoutMs = true
  | Ended (Returns None) =>
      accepted timeoutMs = true ∧ waits_for_ever timeoutMs = false
  | Ended Blocks => accepted timeoutMs = true ∧ waits_for_ever timeoutMs = true
  | Ended (Throws _) => accepted timeoutMs = false
  end.

Section RaceInvariant.
Context (E : runtime).

(** What holds at every point of a race of consumers that called with
    [timeouts], on a queue that held the texts [L] when the dequeued counter
    was [d0]: every consumer is where its timeout lets it be; the list is a
    prefix of [L]; the texts gone from it are, stamped, the messages the
    consumers hold; a consumer found nothing only on an empty list; the
    counter has moved once per message returned. *)
Definition race_invariant (queueName : string) (timeouts : list jsnum)
    (L : list (wire E)) (d0 : Z) (st : list consumer * world (wire E)) : Prop :=
  typed st.2 queueName
  ∧ Forall2 consumer_fits timeouts st.1
  ∧ (Exists empty_handed st.1 → items st.2 queueName = [])
  ∧ totalDequeued st.2 queueName = (d0 + Z.of_nat (length (omap delivered st.1)))%Z
  ∧ ∃ (k : nat) (ms : list json),
      (k ≤ length L)%nat
      ∧ items st.2 queueName = take (length L - k) L
      ∧ Forall2 (stamp_of E) (reverse (drop (length L - k) L)) ms
      ∧ ms ≡ₚ omap prize st.1.
End RaceInvariant.

(** A sequence of calls on two queues, through both services. *)
Definition demo_calls : list call :=
  [CallEnqueue "orders" (Demo.dto (JStr "A"));
   CallApiEnqueue "orders" (JObj [("id", JNum 1)]);
   CallDequeue "orders" (Num 1000);
   CallBulkEnqueue "jobs" {| messages := [JNum 1; JNum 2] |};
   CallDelete "jobs"].

(** * Reading the rest of the model *)

(** The four keys of queue [q] hold what they held. *)
Definition kept_at {W} (q : string) : relation (gmap string (rval W)) :=
  λ d d', ∀ kd, d' !! key_of kd q = d !! key_of kd q.

(** The metadata key of queue [q] holds what it held, if it held anything. *)
Definition metadata_kept {W} (q : string) : relation (gmap string (rval W)) :=
  λ d d', ∀ v, d !! key_of KMeta q = Some v → d' !! key_of KMeta q = Some v.

(** The calls that only ask. *)
Definition is_read (c : call) : bool :=
  match c with CallPeek _ _ | CallInfo _ | CallMetrics _ => true | _ => false end.

Section MoreScenarios.
Context (E : runtime).

(** One [dequeueMessage] per timeout, one after the other. *)
Fixpoint drain (queueName : string) (timeouts : list jsnum) :
    M E (list (option json)) :=
  match timeouts with
  | [] => ret E []
  | t :: rest =>
      bind E (dequeueMessage E queueName t) (λ r,
      bind E (drain queueName rest) (λ rs, ret E (r :: rs)))
  end.

(** A bulk enqueue, then as many dequeues as there are timeouts. *)
Definition bulk_then_drain (queueName : string) (dto : BulkEnqueueDto)
    (timeouts : list jsnum) : M E (list (option json)) :=
  bind E (bulkEnqueue E queueName dto) (λ _, drain queueName timeouts).

(** The texts are the envelopes of the payloads, one for one. *)
Definition envelopes_of (texts : list (wire E)) (payloads : list json) : Prop :=
  Forall2 (λ x p, ∃ id ts, x = JSON_stringify E (envelope id p ts)) texts payloads.

(** A post and a get through the API controller. *)
Definition api_post_then_get (queueName : string) (msg : json)
    (timeout : option string) : M E http_response :=
  bind E (ApiController_enqueue E queueName msg) (λ _,
  ApiController_dequeue E queueName timeout).
End MoreScenarios.

(** A timeout that passes the ceiling test and that BRPOP will refuse: no
    number, or a negative one. *)
Definition unusable (timeoutMs : jsnum) : Prop :=
  match timeoutMs with
  | Num t => (t < 0)%Z
  | NaN => True
  | Inf negative => negative = true
  end.

(** The text of a timeout parameter that parses to such a timeout. *)
Definition unusable_timeout (timeout : option string) : Prop :=
  unusable (parseInt (or_default timeout "10000")).

(** The count of a peek gives LRANGE an index it can read: the count is a
    number above [-2^63], or [Infinity], which [Math.min] cuts to 100. *)
Definition peekable (count : jsnum) : bool :=
  match count with
  | Num c => (- 2 ^ 63 <? c)%Z
  | NaN => false
  | Inf negative => negb negative
  end.

Definition not_an_integer : exn :=
  ReplyError "ERR value is not an integer or out of range".

(** The store rejects every command. *)
Definition store_down (E : runtime) : Prop := ∀ i, faults E i = true.

Definition store_unavailable : exn := ReplyError "ERR store unavailable".

(** ** The endpoints of the two controllers that name a queue *)

Inductive route :=
| PostQueue (name : string)
| PostMessage (queueName : string) (body : json)
| GetMessage (queueName : string) (timeout : option string)
| GetPeek (queueName : string) (count : option string)
| PostBulk (queueName : string) (body : json)
| DeleteMessages (queueName : string)
| GetQueue (queueName : string)
| DeleteQueue (queueName : string)
| GetMetrics (queueName : string)
| ApiPost (queueName : string) (msg : json)
| ApiGet (queueName : string) (timeout : option string).

Section Routes.
Context (E : runtime) (P : pipes).

(** One request, its body parsed, handled by the pipes and the controller
    method, the response body dropped. *)
Definition handle (r : route) : M E unit :=
  match r with
  | PostQueue n => discard E (QueuesController_createQueue E n)
  | PostMessage n body => discard E (QueuesController_enqueueMessage E P n body)
  | GetMessage n timeout => discard E (QueuesController_dequeueMessage E n timeout)
  | GetPeek n count => discard E (QueuesController_peekMessages E n count)
  | PostBulk n body => discard E (QueuesController_bulkEnqueue E P n body)
  | DeleteMessages n => discard E (QueuesController_purgeQueue E n)
  | GetQueue n => discard E (QueuesController_getQueueInfo E n)
  | DeleteQueue n => discard E (QueuesController_deleteQueue E n)
  | GetMetrics n => discard E (QueuesController_getQueueMetrics E n)
  | ApiPost n msg => discard E (ApiController_enqueue E n msg)
  | ApiGet n timeout => discard E (ApiController_dequeue E n timeout)
  end.

(** Every exception of [m] satisfies [Q]. *)
Definition throws_only {A} (Q : exn → Prop) (m : M E A) : Prop :=
  ∀ w e, (m w).1 = Throws e → Q e.

(** The errors an endpoint may answer with; at the two endpoints that take a
    DTO, the bad request of the pipes for that body is among them. *)
Definition may_answer (r : route) (e : exn) : Prop :=
  e = invalid_name ∨ e = internal_server_error
  ∨ match r with
    | GetMessage _ _ | ApiGet _ _ => e = timeout_too_large
    | PostQueue _ => e = queue_exists
    | GetQueue _ | DeleteQueue _ => e = queue_not_found
    | PostMessage _ body =>
        ∃ msg, enqueue_pipe P body = inl msg ∧ e = BadRequestException msg
    | PostBulk _ body =>
        ∃ msg, bulk_pipe P body = inl msg ∧ e = BadRequestException msg
    | _ => False
    end.

(** What a service method may throw before its controller's [catch]: the
    errors of the endpoint, or an error that is no bad request and not "not
    found". *)
Definition may_throw (r : route) (e : exn) : Prop :=
  may_answer r e ∨ (∃ msg, e = ReplyError msg) ∨ e = SyntaxError ∨ e = TypeError.
End Routes.

(** ** The text of an INFO reply *)

(** A line of the reply: a heading, or a field with its name and value. *)
Inductive info_entry :=
| Heading (text : string)
| Field (name value : string).

Definition info_line (e : info_entry) : string :=
  match e with
  | Heading text => text
  | Field name value => name +:+ ":" +:+ value
  end.

(** Every line ends in CR LF. *)
Fixpoint render_info (entries : list info_entry) : string :=
  match entries with
  | [] => ""
  | e :: rest => info_line e +:+ CRLF +:+ render_info rest
  end.

Definition no_colon (s : string) : bool :=
  all_chars (λ c, negb (Ascii.eqb c ":")) s.

Definition no_line_break (s : string) : bool :=
  all_chars (λ c, negb (Ascii.eqb c CR) && negb (Ascii.eqb c LF)) s.

(** Headings and field names have no colon, and nothing has a line break. *)
Definition entry_ok (e : info_entry) : bool :=
  match e with
  | Heading text => no_colon text && no_line_break text
  | Field name value =>
      no_colon name && no_line_break name && no_line_break value
  end.

(** The value of the first field of that name. *)
Fixpoint field_named (key : string) (entries : list info_entry) : option string :=
  match entries with
  | [] => None
  | Field name value :: rest =>
      if String.eqb name key then Some value else field_named key rest
  | Heading _ :: rest => field_named key rest
  end.

(** A text up to its first colon. *)
Fixpoint before_colon (s : string) : string :=
  match s with
  | EmptyString => EmptyString
  | String c r => if Ascii.eqb c ":" then EmptyString else String c (before_colon r)
  end.

(** ** What the engine leaves in the store *)

(** The value is of the kind the key is for. *)
Definition holds_kind {W} (kd : kind) (v : rval W) : Prop :=
  match kd, v with
  | KList, RList l => l ≠ []
  | KMeta, RStr _ => True
  | KEnq, RCount _ | KDeq, RCount _ => True
  | _, _ => False
  end.

(** Every key is one of the four keys of a well-named queue and holds a value
    of its kind. *)
Definition engine_store {W} (d : gmap string (rval W)) : Prop :=
  ∀ k v, d !! k = Some v →
    ∃ kd n, validateQueueName n = true ∧ k = key_of kd n ∧ holds_kind kd v.

(** No queue that has a key is named with [metadata] at the front. *)
Definition no_metadata_names {W} (d : gmap string (rval W)) : Prop :=
  ∀ kd n, validateQueueName n = true → is_Some (d !! key_of kd n) →
    String.prefix "metadata" n = false.

Definition is_counter (kd : kind) : bool :=
  match kd with KEnq | KDeq => true | _ => false end.

Definition is_metadata (kd : kind) : bool :=
  match kd with KMeta => true | _ => false end.

Definition is_list (kd : kind) : bool :=
  match kd with KList => true | _ => false end.

Definition wrong_type : exn := ReplyError WRONGTYPE.

(** A command whose key is of the kind of value it writes. *)
Definition fits {W} (c : cmd W) : Prop :=
  match c with
  | SET k _ => ∃ n, validateQueueName n = true ∧ k = key_of KMeta n
  | LPUSH k _ => ∃ n, validateQueueName n = true ∧ k = key_of KList n
  | INCR k | INCRBY k _ =>
      ∃ n kd, validateQueueName n = true ∧ is_counter kd = true ∧ k = key_of kd n
  | _ => True
  end.

(** The store stays the engine's own. *)
Definition engine_kept {W} : relation (gmap string (rval W)) :=
  λ d d', engine_store d → engine_store d'.

(** A scanning step that leaves the keyspace as it is. *)
Definition scan_reads {E : runtime} {A} (m : SM E A) : Prop :=
  ∀ s, db (base (m s).2) = db (base s).

(** * Properties *)

(** ** Queue names and keys *)

Lemma class_repeat_unfold cls s : ∀ lo hi,
  class_repeat cls lo hi s
  = all_chars cls s && (lo <=? String.length s)%nat && within hi (String.length s).
Proof.
  induction s as [|c r IH]; intros lo hi; simpl.
  - destruct lo, hi as [[|h]|]; reflexivity.
  - destruct hi as [[|h]|]; simpl.
    + destruct (cls c), (all_chars cls r), (lo <=? S (String.length r))%nat; reflexivity.
    + rewrite IH. simpl. destruct lo; simpl; destruct (cls c); reflexivity.
    + rewrite IH. simpl. destruct lo; simpl; destruct (cls c); reflexivity.
Qed.

Lemma validateQueueName_documented name :
  validateQueueName name = documented_name_rule name.
Proof.
  unfold validateQueueName, documented_name_rule.
  rewrite !class_repeat_unfold. simpl.
  destruct (all_chars name_char name); simpl; [|reflexivity].
  destruct (String.length name) as [|n]; simpl; [reflexivity|].
  rewrite andb_true_r. reflexivity.
Qed.

Lemma valid_all_chars name :
  validateQueueName name = true → all_chars name_char name = true.
Proof.
  unfold validateQueueName. rewrite class_repeat_unfold.
  intros H. repeat (apply andb_prop in H as [H _]). exact H.
Qed.

Lemma append_cons c (a b : string) : String c a +:+ b = String c (a +:+ b).
Proof. reflexivity. Qed.

Lemma append_nil_l (b : string) : "" +:+ b = b.
Proof. reflexivity. Qed.

Lemma all_chars_app cls a b :
  all_chars cls (a +:+ b) = all_chars cls a && all_chars cls b.
Proof.
  induction a as [|c a IH]; [done|].
  rewrite append_cons. simpl. rewrite IH. by destruct (cls c).
Qed.

Lemma append_nil_r (s : string) : s +:+ "" = s.
Proof. induction s as [|c s IH]; [done|]. by rewrite append_cons, IH. Qed.

(** A name is free of [:], so a key has one reading as prefix, name and
    suffix. *)
Lemma colon_split a b x y :
  all_chars name_char a = true → all_chars name_char b = true →
  a +:+ String ":" x = b +:+ String ":" y → a = b ∧ x = y.
Proof.
  revert b. induction a as [|c a IH]; intros [|c' b] Ha Hb Heq;
    rewrite ?append_cons, ?append_nil_l in Heq; simpl in *.
  - by inversion Heq.
  - inversion Heq; subst c'. done.
  - inversion Heq; subst c. done.
  - inversion Heq; subst c'.
    apply andb_prop in Ha as [_ Ha]. apply andb_prop in Hb as [_ Hb].
    destruct (IH b Ha Hb) as [-> ->]; done.
Qed.

Lemma colon_free a b y :
  all_chars name_char a = true → a = b +:+ String ":" y → False.
Proof.
  intros Ha ->. rewrite all_chars_app in Ha. simpl in Ha.
  by rewrite andb_false_r in Ha.
Qed.

Lemma queueKey_of n : queueKey n = key_of KList n.
Proof. unfold queueKey, key_of. simpl. by rewrite append_nil_r. Qed.

Lemma metadataKey_of n : metadataKey n = key_of KMeta n.
Proof. reflexivity. Qed.

Lemma enqueuedKey_of n : enqueuedKey n = key_of KEnq n.
Proof. reflexivity. Qed.

Lemma dequeuedKey_of n : dequeuedKey n = key_of KDeq n.
Proof. reflexivity. Qed.

Lemma key_of_inj k k' n q :
  validateQueueName n = true → validateQueueName q = true →
  key_of k n = key_of k' q → k = k' ∧ n = q.
Proof.
  intros Hn%valid_all_chars Hq%valid_all_chars Heq.
  unfold key_of in Heq. apply (inj (String.app "queue:")) in Heq.
  destruct k, k'; simpl in Heq; rewrite ?append_nil_r in Heq;
    try (by split; [reflexivity | exact Heq]);
    try (by exfalso; eapply colon_free; [| exact Heq]);
    try (by exfalso; eapply colon_free; [| symmetry; exact Heq]);
    destruct (colon_split _ _ _ _ Hn Hq Heq) as [-> Hs]; try done.
Qed.

(** The keys of one queue differ whatever the name is. *)
Lemma key_of_same_name k k' n : key_of k n = key_of k' n → k = k'.
Proof.
  unfold key_of. intros Heq.
  apply (inj (String.app "queue:")), (inj (String.app n)) in Heq.
  by destruct k, k'.
Qed.

(** ** What a key holds *)

Section Keyspace.
Context {W : Type}.
Implicit Types (d : gmap string (rval W)) (k : string) (l : list W).

Lemma lookup_put_list_eq k l d :
  put_list k l d !! k = match l with [] => None | _ => Some (RList l) end.
Proof. destruct l; simpl; [apply lookup_delete_eq | apply lookup_insert_eq]. Qed.

Lemma lookup_put_list_ne k k' l d : k ≠ k' → put_list k l d !! k' = d !! k'.
Proof.
  intros. destruct l; simpl; [by apply lookup_delete_ne | by apply lookup_insert_ne].
Qed.

Lemma list_at_put_list k l d : list_at (put_list k l d) k = l.
Proof. unfold list_at. rewrite lookup_put_list_eq. by destruct l. Qed.

Lemma listy_put_list k l d : listy (put_list k l d) k.
Proof. unfold listy. rewrite lookup_put_list_eq. by destruct l. Qed.

Lemma listy_empty d k : listy d k → list_at d k = [] → d !! k = None.
Proof. unfold listy, list_at. by destruct (d !! k) as [[l| |]|]. Qed.

Lemma listy_nonempty d k : listy d k → list_at d k ≠ [] → is_Some (d !! k).
Proof. unfold listy, list_at. by destruct (d !! k) as [[l| |]|]. Qed.

Lemma put_list_id d k : listy d k → put_list k (list_at d k) d = d.
Proof.
  unfold listy, list_at, put_list.
  destruct (d !! k) as [[l| |]|] eqn:Hk; try done.
  - intros Hl. destruct l; [done|]. by apply insert_id.
  - intros _. by apply delete_id.
Qed.

Lemma lrange_nil (a b : Z) : lrange (@nil W) a b = [].
Proof.
  unfold lrange. destruct (_ || _); [done|]. by rewrite drop_nil, take_nil.
Qed.

Lemma lindex_nil (i : Z) : lindex (@nil W) i = None.
Proof. unfold lindex. by destruct (_ <? 0)%Z. Qed.

Lemma lindex_last l x : lindex (l ++ [x]) (-1) = Some x.
Proof.
  unfold lindex. change (-1 <? 0)%Z with true. cbv iota.
  rewrite length_app. simpl.
  destruct (Z.ltb_spec (-1 + Z.of_nat (length l + 1)) 0); [lia|].
  replace (Z.to_nat (-1 + Z.of_nat (length l + 1))) with (length l + 0)%nat by lia.
  by rewrite lookup_app_r, Nat.add_0_r, Nat.sub_diag by lia.
Qed.

Lemma lindex_first x l : lindex (x :: l) 0 = Some x.
Proof. reflexivity. Qed.

Lemma nonempty_length l : l ≠ [] → (0 < length l)%nat.
Proof. destruct l; simpl; [done | lia]. Qed.

(** [LRANGE key -m -1] for a positive [m]: the last [m] elements. *)
Lemma lrange_tail l (m : Z) :
  (0 < m)%Z → lrange l (- m) (-1) = drop (length l - Z.to_nat m) l.
Proof.
  intros Hm.
  destruct (decide (l = [])) as [->|Hl%nonempty_length];
    [by rewrite lrange_nil, drop_nil|].
  unfold lrange. remember (Z.of_nat (length l)) as len eqn:Hlen.
  destruct (Z.ltb_spec (- m) 0); [|lia].
  destruct (Z.ltb_spec (-1) 0); [|lia].
  set (start := if (- m + len <? 0)%Z then 0%Z else (- m + len)%Z).
  assert (start = Z.max 0 (len - m)) as Hs
    by (subst start; destruct (Z.ltb_spec (- m + len) 0); lia).
  clearbody start. subst start.
  destruct (Z.ltb_spec (-1 + len) (0 `max` (len - m))); [lia|].
  destruct (Z.leb_spec len (0 `max` (len - m))); [lia|]. simpl.
  destruct (Z.leb_spec len (-1 + len)); [lia|].
  replace (Z.to_nat (0 `max` (len - m))) with (length l - Z.to_nat m)%nat
    by lia.
  apply take_ge. rewrite length_drop. lia.
Qed.

(** [LRANGE key 0 -1]: the whole list. *)
Lemma lrange_all l : lrange l 0 (-1) = l.
Proof.
  destruct (decide (l = [])) as [->|Hl%nonempty_length]; [done|].
  unfold lrange. remember (Z.of_nat (length l)) as len eqn:Hlen.
  change (0 <? 0)%Z with false. change (-1 <? 0)%Z with true. cbv iota.
  change (0 <? 0)%Z with false. cbv iota.
  destruct (Z.ltb_spec (-1 + len) 0); [lia|].
  destruct (Z.leb_spec len 0); [lia|]. simpl.
  destruct (Z.leb_spec len (-1 + len)); [lia|].
  rewrite drop_0. apply take_ge. lia.
Qed.
End Keyspace.

Ltac key_ne :=
  let H := fresh in
  intros H;
  first
    [ apply key_of_same_name in H; discriminate H
    | apply key_of_inj in H; [destruct H; congruence | assumption | assumption] ].

Ltac look :=
  repeat first
    [ rewrite lookup_insert_eq
    | rewrite lookup_delete_eq
    | rewrite lookup_put_list_eq
    | rewrite lookup_insert_ne by key_ne
    | rewrite lookup_delete_ne by key_ne
    | rewrite lookup_put_list_ne by key_ne ].

Ltac frame_solve :=
  let k := fresh "k" in
  let Hk := fresh "Hk" in
  let Heq := fresh "Heq" in
  intros k Hk; simpl;
  repeat first
    [ rewrite lookup_insert_ne by (intros Heq; exact (Hk _ (eq_sym Heq)))
    | rewrite lookup_delete_ne by (intros Heq; exact (Hk _ (eq_sym Heq)))
    | rewrite lookup_put_list_ne by (intros Heq; exact (Hk _ (eq_sym Heq))) ];
  reflexivity.

Ltac views :=
  unfold items, depth, totalEnqueued, totalDequeued, has_metadata, typed,
    same_elsewhere, listy, county, list_at, count_at in *;
  simpl; look.

Ltac typed_side := unfold listy, county in *; simpl; look; done.

Ltac service_keys n :=
  rewrite ?queueKey_of;
  change (metadataKey n) with (key_of KMeta n);
  change (enqueuedKey n) with (key_of KEnq n);
  change (dequeuedKey n) with (key_of KDeq n).

Lemma reads_as_int64_bounds z : (- 2 ^ 63 < z < 2 ^ 63)%Z ↔ reads_as_int64 z = true.
Proof.
  unfold reads_as_int64. rewrite andb_true_iff, !Z.ltb_lt. tauto.
Qed.

(** ** The client calls on a store that answers *)

Section Client.
Context (E : runtime) (Hup : store_up E).
Implicit Types (d : gmap string (rval (wire E))) (w : world (wire E)) (k : string).

Lemma bind_returns {A B} (m : M E A) (f : A → M E B) w a w' :
  m w = (Returns a, w') → bind E m f w = f a w'.
Proof. unfold bind. by intros ->. Qed.

Lemma bind_throws {A B} (m : M E A) (f : A → M E B) w e w' :
  m w = (Throws e, w') → bind E m f w = (Throws e, w').
Proof. unfold bind. by intros ->. Qed.

Lemma bind_blocks {A B} (m : M E A) (f : A → M E B) w w' :
  m w = (Blocks, w') → bind E m f w = (Blocks, w').
Proof. unfold bind. by intros ->. Qed.

Lemma send_up c w :
  send E c w = (settle E (exec c (db w)).1, sent_world E (exec c (db w)).2 c w).
Proof. unfold send, answer. rewrite Hup. by destruct (exec c (db w)). Qed.

Lemma redis_exists_up k w :
  redis_exists E k w
  = (Returns (bool_decide (is_Some (db w !! k))), sent_world E (db w) (EXISTS k) w).
Proof.
  unfold redis_exists, bind. rewrite send_up. simpl. unfold ret.
  by destruct (db w !! k).
Qed.

Lemma redis_set_up k v w :
  redis_set E k v w = (Returns tt, sent_world E (<[k := RStr v]> (db w)) (SET k v) w).
Proof. unfold redis_set, bind. by rewrite send_up. Qed.

Lemma redis_del_up k w :
  redis_del E k w = (Returns tt, sent_world E (delete k (db w)) (DEL k) w).
Proof. unfold redis_del, bind. by rewrite send_up. Qed.

Lemma redis_lpush_up k v w :
  listy (db w) k →
  redis_lpush E k v w
  = (Returns (Z.of_nat (S (length (list_at (db w) k)))),
     sent_world E (put_list k (v :: list_at (db w) k) (db w)) (LPUSH k v) w).
Proof.
  unfold listy, list_at, redis_lpush, bind. rewrite send_up. simpl.
  by destruct (db w !! k) as [[l| |]|].
Qed.

Lemma exec_incr_by k n d :
  county d k →
  incr_by k n d
  = (IntReply (count_at d k + n), <[k := RCount (count_at d k + n)]> d).
Proof. unfold county, count_at, incr_by. by destruct (d !! k) as [[l| |]|]. Qed.

Lemma redis_incr_up k w :
  county (db w) k →
  redis_incr E k w
  = (Returns (count_at (db w) k + 1)%Z,
     sent_world E (<[k := RCount (count_at (db w) k + 1)]> (db w)) (INCR k) w).
Proof.
  intros Hk. unfold redis_incr, bind. rewrite send_up. simpl.
  by rewrite exec_incr_by.
Qed.

Lemma redis_llen_up k w :
  listy (db w) k →
  redis_llen E k w
  = (Returns (Z.of_nat (length (list_at (db w) k))), sent_world E (db w) (LLEN k) w).
Proof.
  unfold listy, list_at, redis_llen, bind. rewrite send_up. simpl.
  by destruct (db w !! k) as [[l| |]|].
Qed.

Lemma redis_lrange_up k a b w :
  listy (db w) k → reads_as_int64 a = true → reads_as_int64 b = true →
  redis_lrange E k (Num a) (Num b) w
  = (Returns (lrange (list_at (db w) k) a b),
     sent_world E (db w) (LRANGE k (Num a) (Num b)) w).
Proof.
  unfold listy, list_at, redis_lrange, bind. rewrite send_up. simpl.
  intros Hk -> ->. simpl.
  destruct (db w !! k) as [[l| |]|]; try done.
  by rewrite lrange_nil.
Qed.

(** LRANGE with an index that is no signed 64-bit integer. *)
Lemma redis_lrange_refused k a b w :
  reads_as_int64 a && reads_as_int64 b = false →
  redis_lrange E k (Num a) (Num b) w
  = (Throws (ReplyError "ERR value is not an integer or out of range"),
     sent_world E (db w) (LRANGE k (Num a) (Num b)) w).
Proof.
  intros Hr. unfold redis_lrange, bind. rewrite send_up. simpl. by rewrite Hr.
Qed.

Lemma redis_lindex_up k i w :
  listy (db w) k →
  redis_lindex E k i w
  = (Returns (lindex (list_at (db w) k) i), sent_world E (db w) (LINDEX k i) w).
Proof.
  unfold listy, list_at, redis_lindex, bind. rewrite send_up. simpl.
  destruct (db w !! k) as [[l| |]|]; try done.
  - intros _. by destruct (lindex l i).
  - by rewrite lindex_nil.
Qed.

Lemma redis_get_count_up k w :
  county (db w) k →
  redis_get_count E k w
  = (Returns (Num (count_at (db w) k)), sent_world E (db w) (GET k) w).
Proof.
  unfold county, count_at, redis_get_count, bind. rewrite send_up. simpl.
  by destruct (db w !! k) as [[l| |]|].
Qed.

(** BRPOP on a list that has a tail element. *)
Lemma redis_brpop_some k t l x w :
  (0 ≤ t)%Z → list_at (db w) k = l ++ [x] →
  redis_brpop E k (Num t) w
  = (Returns (Some (k, x)), sent_world E (put_list k l (db w)) (BRPOP k (Num t)) w).
Proof.
  intros Ht. unfold list_at, redis_brpop, bind. rewrite send_up. simpl.
  destruct (Z.ltb_spec t 0); [lia|].
  destruct (db w !! k) as [[l'| |]|]; try by destruct l.
  intros ->. rewrite last_snoc, removelast_last. simpl. by destruct l.
Qed.

(** BRPOP on an empty list: nil after a positive timeout, nothing ever for
    timeout 0. *)
Lemma redis_brpop_none k t w :
  (0 ≤ t)%Z → db w !! k = None →
  redis_brpop E k (Num t) w
  = (if (t =? 0)%Z then Blocks else Returns None,
     sent_world E (db w) (BRPOP k (Num t)) w).
Proof.
  intros Ht Hk. unfold redis_brpop, bind. rewrite send_up. simpl.
  destruct (Z.ltb_spec t 0); [lia|]. rewrite Hk.
  by destruct (t =? 0)%Z.
Qed.
End Client.

(** ** The services, one call at a time *)

Section Service.
Context (E : runtime) (Hup : store_up E) (Hcodec : codec_ok E).
Implicit Types (w : world (wire E)) (n : string).

Lemma enqueueMessage_spec n dto w :
  validateQueueName n = true → typed w n →
  let id := message_id_of (randomHex E (draws w)) in
  let ts := toISOString E (clock E (reads w)) in
  ∃ w',
    enqueueMessage E n dto w
    = (Returns {| enq_success := true; enq_queue := n;
                  enq_messageId := id; enq_timestamp := ts |}, w')
    ∧ items w' n = JSON_stringify E (envelope id (message dto) ts) :: items w n
    ∧ totalEnqueued w' n = (totalEnqueued w n + 1)%Z
    ∧ totalDequeued w' n = totalDequeued w n
    ∧ has_metadata w' n
    ∧ typed w' n
    ∧ same_elsewhere n w w'
    ∧ (reads w < reads w')%nat.
Proof.
  intros Hn (Hl & He & Hd) id ts. unfold enqueueMessage. rewrite Hn.
  rewrite !queueKey_of.
  change (metadataKey n) with (key_of KMeta n).
  change (enqueuedKey n) with (key_of KEnq n).
  simpl negb. cbv iota.
  unfold bind, generateMessageId, now. simpl.
  rewrite redis_exists_up by done. simpl.
  destruct (db w !! key_of KMeta n) as [m|] eqn:Hm; simpl;
    [unfold ret at 1 | rewrite redis_set_up by done]; simpl.
  all: rewrite redis_lpush_up by (unfold listy in *; simpl; look; done); simpl.
  all: rewrite redis_incr_up by (unfold county in *; simpl; look; done); simpl.
  all: unfold ret; eexists; split; [reflexivity|].
  all: views; repeat split; try done; try lia; eauto; frame_solve.
Qed.

Lemma accepted_timeout (t : Z) :
  (0 ≤ t ≤ 60000)%Z →
  js_gt (Num t) 60000 = false ∧ (0 ≤ t / 1000)%Z.
Proof.
  intros Ht. split.
  - unfold js_gt. destruct (Z.ltb_spec 60000 t); [lia | done].
  - apply Z.div_pos; lia.
Qed.

(** A dequeue that finds a message: the tail element leaves the list, is
    parsed and stamped, and the dequeued counter moves by one. *)
Lemma dequeueMessage_some n t w l x msg msg' :
  validateQueueName n = true → typed w n → (0 ≤ t ≤ 60000)%Z →
  items w n = l ++ [x] →
  JSON_parse E x = Some msg →
  assign_prop "dequeuedAt" (JStr (toISOString E (clock E (reads w)))) msg = Some msg' →
  ∃ w',
    dequeueMessage E n (Num t) w = (Returns (Some msg'), w')
    ∧ items w' n = l
    ∧ totalEnqueued w' n = totalEnqueued w n
    ∧ totalDequeued w' n = (totalDequeued w n + 1)%Z
    ∧ db w' !! key_of KMeta n = db w !! key_of KMeta n
    ∧ typed w' n
    ∧ same_elsewhere n w w'
    ∧ reads w' = S (reads w).
Proof.
  intros Hn (Hl & He & Hd) [Hgt Hsec]%accepted_timeout Hitems Hparse Hstamp.
  unfold dequeueMessage. rewrite Hn. service_keys n.
  simpl (negb _). rewrite Hgt. cbv beta iota.
  unfold bind, Math_floor_div, now.
  rewrite (redis_brpop_some E Hup _ _ l x) by done. simpl.
  rewrite Hparse. simpl. rewrite Hstamp.
  rewrite redis_incr_up by typed_side. simpl.
  unfold ret. eexists; split; [reflexivity|].
  views. repeat split; try done; try lia; eauto; try frame_solve.
  all: by destruct l.
Qed.

(** A dequeue that finds the list empty sends the whole seconds of its timeout
    to BRPOP; it returns nothing when they are positive and never returns when
    they are zero. *)
Lemma dequeueMessage_empty n t w :
  validateQueueName n = true → typed w n → (0 ≤ t ≤ 60000)%Z →
  items w n = [] →
  dequeueMessage E n (Num t) w
  = (if (t / 1000 =? 0)%Z then Blocks else Returns None,
     sent_world E (db w) (BRPOP (queueKey n) (Num (t / 1000))) w).
Proof.
  intros Hn (Hl & He & Hd) [Hgt Hsec]%accepted_timeout Hitems.
  unfold dequeueMessage. rewrite Hn. service_keys n.
  simpl (negb _). rewrite Hgt. cbv beta iota.
  unfold bind, Math_floor_div.
  rewrite redis_brpop_none by (try done; by apply listy_empty).
  by destruct (t / 1000 =? 0)%Z.
Qed.

Lemma api_enqueue_spec n msg w :
  validateQueueName n = true → typed w n →
  ∃ w',
    api_enqueue E n msg w
    = (Returns {| api_success := true; api_queue := n;
                  api_timestamp := toISOString E (clock E (reads w)) |}, w')
    ∧ items w' n = JSON_stringify E msg :: items w n
    ∧ totalEnqueued w' n = (totalEnqueued w n + 1)%Z
    ∧ totalDequeued w' n = totalDequeued w n
    ∧ db w' !! key_of KMeta n = db w !! key_of KMeta n
    ∧ typed w' n
    ∧ same_elsewhere n w w'
    ∧ reads w' = S (reads w).
Proof.
  intros Hn (Hl & He & Hd). unfold api_enqueue. rewrite Hn. service_keys n.
  simpl (negb _). cbv beta iota. unfold bind, now.
  rewrite redis_lpush_up by typed_side. simpl.
  rewrite redis_incr_up by typed_side. simpl.
  unfold ret. eexists; split; [reflexivity|].
  views. repeat split; try done; try lia; eauto; frame_solve.
Qed.

Lemma api_dequeue_some n t w l x msg :
  validateQueueName n = true → typed w n → (0 ≤ t ≤ 60000)%Z →
  items w n = l ++ [x] →
  JSON_parse E x = Some msg →
  ∃ w',
    api_dequeue E n (Num t) w = (Returns (Some msg), w')
    ∧ items w' n = l
    ∧ totalEnqueued w' n = totalEnqueued w n
    ∧ totalDequeued w' n = (totalDequeued w n + 1)%Z
    ∧ db w' !! key_of KMeta n = db w !! key_of KMeta n
    ∧ typed w' n
    ∧ same_elsewhere n w w'
    ∧ reads w' = reads w.
Proof.
  intros Hn (Hl & He & Hd) [Hgt Hsec]%accepted_timeout Hitems Hparse.
  unfold api_dequeue. rewrite Hn. service_keys n.
  simpl (negb _). rewrite Hgt. cbv beta iota.
  unfold bind, Math_floor_div.
  rewrite (redis_brpop_some E Hup _ _ l x) by done. simpl.
  rewrite Hparse. simpl.
  rewrite redis_incr_up by typed_side. simpl.
  unfold ret. eexists; split; [reflexivity|].
  views. repeat split; try done; try lia; eauto; try frame_solve.
  all: by destruct l.
Qed.

Lemma api_dequeue_empty n t w :
  validateQueueName n = true → typed w n → (0 ≤ t ≤ 60000)%Z →
  items w n = [] →
  api_dequeue E n (Num t) w
  = (if (t / 1000 =? 0)%Z then Blocks else Returns None,
     sent_world E (db w) (BRPOP (queueKey n) (Num (t / 1000))) w).
Proof.
  intros Hn (Hl & He & Hd) [Hgt Hsec]%accepted_timeout Hitems.
  unfold api_dequeue. rewrite Hn. service_keys n.
  simpl (negb _). rewrite Hgt. cbv beta iota.
  unfold bind, Math_floor_div.
  rewrite redis_brpop_none by (try done; by apply listy_empty).
  by destruct (t / 1000 =? 0)%Z.
Qed.

(** Stamping an envelope always succeeds and keeps its first three fields. *)
Lemma stamp_envelope id p ts ts' :
  assign_prop "dequeuedAt" (JStr ts') (envelope id p ts)
  = Some (JObj [("id", JStr id); ("payload", p); ("enqueuedAt", JStr ts);
                ("dequeuedAt", JStr ts')]).
Proof. reflexivity. Qed.

(** Dequeue after the engine's own enqueues: the oldest envelope comes back,
    stamped. *)
Lemma dequeueMessage_envelope n t w l id p ts :
  validateQueueName n = true → typed w n → (0 ≤ t ≤ 60000)%Z →
  items w n = l ++ [JSON_stringify E (envelope id p ts)] →
  ∃ w',
    dequeueMessage E n (Num t) w
    = (Returns (Some (JObj [("id", JStr id); ("payload", p);
                            ("enqueuedAt", JStr ts);
                            ("dequeuedAt",
                             JStr (toISOString E (clock E (reads w))))])), w')
    ∧ items w' n = l
    ∧ totalEnqueued w' n = totalEnqueued w n
    ∧ totalDequeued w' n = (totalDequeued w n + 1)%Z
    ∧ typed w' n
    ∧ same_elsewhere n w w'
    ∧ reads w' = S (reads w).
Proof.
  intros Hn Ht Htm Hitems.
  destruct (dequeueMessage_some n t w l _ _ _ Hn Ht Htm Hitems (Hcodec _)
              (stamp_envelope _ _ _ _)) as (w' & ? & ? & ? & ? & ? & ? & ? & ?).
  by exists w'.
Qed.
End Service.

(** ** Claims about single calls and short scenarios *)

(** C1 (FIFO order).  On a queue that starts empty, enqueuing three payloads
    through [enqueueMessage] and then calling [dequeueMessage] three times
    (with timeouts the service accepts, on a store that answers and a JSON
    codec that round-trips) returns the three payloads in the order they were
    enqueued: every enqueue pushes at the head, every dequeue pops the tail. *)
Theorem fifo_order (E : runtime) (queueName : string)
    (a b c : EnqueueMessageDto) (t1 t2 t3 : Z) (w : world (wire E)) :
  store_up E → codec_ok E →
  validateQueueName queueName = true →
  typed w queueName → items w queueName = [] →
  (0 ≤ t1 ≤ 60000)%Z → (0 ≤ t2 ≤ 60000)%Z → (0 ≤ t3 ≤ 60000)%Z →
  ∃ r1 r2 r3 w',
    fifo_scenario E queueName a b c (Num t1) (Num t2) (Num t3) w
    = (Returns [r1; r2; r3], w')
    ∧ payload_of r1 = Some (message a)
    ∧ payload_of r2 = Some (message b)
    ∧ payload_of r3 = Some (message c)
    ∧ items w' queueName = [].
Proof.
  intros Hup Hcodec Hn Hty Hempty Ht1 Ht2 Ht3. unfold fifo_scenario, bind.
  destruct (enqueueMessage_spec E Hup queueName a w Hn Hty)
    as (w1 & -> & Hi1 & _ & _ & _ & Hty1 & _). cbv beta iota.
  destruct (enqueueMessage_spec E Hup queueName b w1 Hn Hty1)
    as (w2 & -> & Hi2 & _ & _ & _ & Hty2 & _). cbv beta iota.
  destruct (enqueueMessage_spec E Hup queueName c w2 Hn Hty2)
    as (w3 & -> & Hi3 & _ & _ & _ & Hty3 & _). cbv beta iota.
  rewrite Hi2, Hi1, Hempty in Hi3.
  destruct (dequeueMessage_envelope E Hup Hcodec queueName t1 w3 [_; _] _ _ _
              Hn Hty3 Ht1 Hi3) as (w4 & -> & Hi4 & _ & _ & Hty4 & _). cbv beta iota.
  destruct (dequeueMessage_envelope E Hup Hcodec queueName t2 w4 [_] _ _ _
              Hn Hty4 Ht2 Hi4) as (w5 & -> & Hi5 & _ & _ & Hty5 & _). cbv beta iota.
  destruct (dequeueMessage_envelope E Hup Hcodec queueName t3 w5 [] _ _ _
              Hn Hty5 Ht3 Hi5) as (w6 & -> & Hi6 & _). cbv beta iota.
  unfold ret. by eexists _, _, _, _.
Qed.


(** ** Peek *)

Section Peek.
Context (E : runtime) (Hup : store_up E) (Hcodec : codec_ok E).
Implicit Types (w : world (wire E)) (n : string).

Lemma parse_all_stringified (vs : list json) w :
  parse_all E (JSON_stringify E <$> vs) w = (Returns vs, w).
Proof.
  induction vs as [|v vs IH]; [done|].
  rewrite fmap_cons. simpl. rewrite Hcodec. unfold bind. by rewrite IH.
Qed.

(** For a count of at least one, peek returns the [min(count, 100)] oldest
    messages, oldest first, with the full depth, and changes nothing. *)
Lemma peekMessages_positive n (c : Z) w (vs : list json) :
  validateQueueName n = true → typed w n → (1 ≤ c)%Z →
  items w n = JSON_stringify E <$> vs →
  peekMessages E n (Num c) w
  = (Returns {| peek_queue := n;
                peek_messages := take (Z.to_nat (c `min` 100)) (reverse vs);
                peek_count := length (take (Z.to_nat (c `min` 100)) (reverse vs));
                peek_totalDepth := Z.of_nat (length vs) |},
     peeked E n (- (c `min` 100)) w).
Proof.
  intros Hn (Hl & He & Hd) Hc Hitems.
  unfold peekMessages. rewrite Hn. service_keys n.
  simpl (negb _). cbv beta iota. unfold bind, Math_min, js_neg.
  rewrite redis_lrange_up by (try done; apply reads_as_int64_bounds; lia). simpl.
  rewrite redis_llen_up by done. simpl.
  fold (items w n). rewrite Hitems, lrange_tail by lia.
  rewrite <- take_reverse, <- fmap_reverse, <- fmap_take.
  rewrite parse_all_stringified. unfold ret, peeked, sent_world. simpl.
  rewrite !length_fmap, <- app_assoc, queueKey_of. simpl.
  rewrite take_reverse, length_reverse, <- fmap_drop, length_fmap. reflexivity.
Qed.

(** For a count of zero the range sent is [0 .. -1], the whole list: peek
    returns every message, however many there are. *)
Lemma peekMessages_zero n w (vs : list json) :
  validateQueueName n = true → typed w n →
  items w n = JSON_stringify E <$> vs →
  peekMessages E n (Num 0) w
  = (Returns {| peek_queue := n;
                peek_messages := reverse vs;
                peek_count := length vs;
                peek_totalDepth := Z.of_nat (length vs) |},
     peeked E n 0 w).
Proof.
  intros Hn (Hl & He & Hd) Hitems.
  unfold peekMessages. rewrite Hn. service_keys n.
  simpl (negb _). cbv beta iota. unfold bind, Math_min, js_neg.
  change (- (0 `min` 100))%Z with 0%Z.
  rewrite redis_lrange_up by done. simpl.
  rewrite redis_llen_up by done. simpl.
  fold (items w n). rewrite Hitems, lrange_all.
  rewrite <- fmap_reverse, parse_all_stringified.
  unfold ret, peeked, sent_world. simpl.
  by rewrite !length_fmap, <- app_assoc, queueKey_of.
Qed.
End Peek.

(** ** Composition along [bind] *)

Section Compose.
Context (E : runtime).
Implicit Types (d : gmap string (rval (wire E))) (w : world (wire E)).
Implicit Types (P : relation (gmap string (rval (wire E)))).

Lemma exec_reads (c : cmd (wire E)) d : cmd_reads c = true → (exec c d).2 = d.
Proof.
  destruct c; try done; simpl; intros _.
  - by destruct (d !! k) as [[| |]|].
  - destruct start as [a| |], stop as [b| |]; try done.
    by destruct (reads_as_int64 a && reads_as_int64 b), (d !! k) as [[| |]|].
  - by destruct (d !! k) as [[| |]|].
  - by destruct (d !! k) as [[| |]|].
Qed.

Lemma incr_by_elsewhere k z d k' : k' ≠ k → (incr_by k z d).2 !! k' = d !! k'.
Proof.
  intros Hk. unfold incr_by.
  destruct (d !! k) as [[| |]|]; simpl; try done; by rewrite lookup_insert_ne.
Qed.

Lemma exec_elsewhere (c : cmd (wire E)) d k' :
  k' ≠ cmd_key c → (exec c d).2 !! k' = d !! k'.
Proof.
  destruct c; simpl; intros Hk; try by apply incr_by_elsewhere.
  - done.
  - by rewrite lookup_insert_ne.
  - by destruct (d !! k) as [[| |]|].
  - by rewrite lookup_delete_ne.
  - destruct (d !! k) as [[| |]|]; simpl; try done; by rewrite lookup_insert_ne.
  - destruct timeout as [t| |]; [|done..]. destruct (t <? 0)%Z; [done|].
    destruct (d !! k) as [[l| |]|]; try done; try by destruct (t =? 0)%Z.
    destruct (last l); [|by destruct (t =? 0)%Z]. simpl.
    destruct (removelast l); [by rewrite lookup_delete_ne | by rewrite lookup_insert_ne].
  - destruct start as [a| |], stop as [b| |]; try done.
    by destruct (reads_as_int64 a && reads_as_int64 b), (d !! k) as [[| |]|].
  - by destruct (d !! k) as [[| |]|].
  - by destruct (d !! k) as [[| |]|].
Qed.

Lemma preserves_ret {A} P `{!Reflexive P} (a : A) : preserves E P (ret E a).
Proof. intros w. simpl. reflexivity. Qed.

Lemma preserves_throw {A} P `{!Reflexive P} e : preserves E P (@throw E A e).
Proof. intros w. simpl. reflexivity. Qed.

Lemma preserves_now P `{!Reflexive P} : preserves E P (now E).
Proof. intros w. simpl. reflexivity. Qed.

Lemma preserves_generateMessageId P `{!Reflexive P} :
  preserves E P (generateMessageId E).
Proof. intros w. simpl. reflexivity. Qed.

Lemma preserves_bind {A B} P `{!Transitive P} (m : M E A) (f : A → M E B) :
  preserves E P m → (∀ a, preserves E P (f a)) → preserves E P (bind E m f).
Proof.
  intros Hm Hf w. unfold bind. specialize (Hm w).
  destruct (m w) as [[a|e|] w']; simpl in *; try done.
  etransitivity; [exact Hm | apply Hf].
Qed.

Lemma preserves_try_catch {A} P `{!Transitive P} (m : M E A) h :
  preserves E P m → (∀ e, preserves E P (h e)) → preserves E P (try_catch E m h).
Proof.
  intros Hm Hh w. unfold try_catch. specialize (Hm w).
  destruct (m w) as [[a|e|] w']; simpl in *; try done.
  etransitivity; [exact Hm | apply Hh].
Qed.

Lemma preserves_send P `{!Reflexive P} (c : cmd (wire E)) :
  (∀ d, P d (exec c d).2) → preserves E P (send E c).
Proof.
  intros Hc w. unfold send, answer.
  destruct (faults E _); simpl; [reflexivity|].
  specialize (Hc (db w)). by destruct (exec c (db w)).
Qed.

Lemma run_batch_preserves P `{!Reflexive P} `{!Transitive P} cs :
  (∀ c d, c ∈ cs → P d (exec c d).2) → ∀ i d, P d (run_batch E i cs d).2.
Proof.
  induction cs as [|c cs IH]; intros Hcs i d; simpl; [reflexivity|].
  assert (P d (answer E i c d).2) as Hfirst.
  { unfold answer. destruct (faults E i); simpl; [reflexivity|].
    apply Hcs. by left. }
  destruct (answer E i c d) as [r d'].
  specialize (IH (λ c d Hin, Hcs c d (list_elem_of_further _ _ _ Hin)) (S i) d').
  destruct (run_batch E (S i) cs d') as [rs d'']. simpl in *.
  by etransitivity.
Qed.

Lemma preserves_pipeline_exec P `{!Reflexive P} `{!Transitive P} cs :
  (∀ c d, c ∈ cs → P d (exec c d).2) → preserves E P (pipeline_exec E cs).
Proof.
  intros Hcs w. unfold pipeline_exec.
  pose proof (run_batch_preserves P cs Hcs (sent (log w)) (db w)) as H.
  by destruct (run_batch E (sent (log w)) cs (db w)).
Qed.

Lemma preserves_parse_all P `{!Reflexive P} xs : preserves E P (parse_all E xs).
Proof.
  intros w. revert w. induction xs as [|x xs IH]; intros w; simpl; [reflexivity|].
  destruct (JSON_parse E x); simpl; [|reflexivity].
  unfold bind. specialize (IH w). by destruct (parse_all E xs w) as [[| |] ?].
Qed.

(** *** Reads leave the keyspace as it is *)

Lemma reads_keep (c : cmd (wire E)) :
  cmd_reads c = true → ∀ d, d = (exec c d).2.
Proof. intros Hc d. by rewrite exec_reads. Qed.

(** *** Counters only grow *)

#[local] Instance counters_grow_refl : Reflexive (counters_grow E).
Proof. intros d q _. lia. Qed.

#[local] Instance counters_grow_trans : Transitive (counters_grow E).
Proof.
  intros d1 d2 d3 H12 H23 q Hq.
  destruct (H12 q Hq), (H23 q Hq). lia.
Qed.

Lemma counters_grow_elsewhere (c : cmd (wire E)) :
  (∀ q kd, validateQueueName q = true → kd ≠ KList → kd ≠ KMeta →
     key_of kd q ≠ cmd_key c) →
  ∀ d, counters_grow E d (exec c d).2.
Proof.
  intros Hc d q Hq. unfold count_at.
  rewrite !exec_elsewhere by (by apply Hc). lia.
Qed.

Lemma incr_by_at k z d :
  (0 ≤ z)%Z → (count_at d k ≤ count_at (incr_by k z d).2 k)%Z.
Proof.
  intros Hz. unfold count_at, incr_by.
  destruct (d !! k) as [[| |]|] eqn:Hk; simpl; rewrite ?lookup_insert_eq, ?Hk; lia.
Qed.

Lemma counters_grow_incr_by k z :
  (0 ≤ z)%Z → ∀ d, counters_grow E d (incr_by k z d).2.
Proof.
  intros Hz d q Hq.
  assert (∀ k', (count_at d k' ≤ count_at (incr_by k z d).2 k')%Z) as Hall.
  { intros k'. destruct (decide (k' = k)) as [->|Hne]; [by apply incr_by_at|].
    unfold count_at. rewrite incr_by_elsewhere by done. lia. }
  split; apply Hall.
Qed.
End Compose.

#[local] Instance counters_grow_reflexive E : Reflexive (counters_grow E).
Proof. intros d q _. lia. Qed.

#[local] Instance counters_grow_transitive E : Transitive (counters_grow E).
Proof.
  intros d1 d2 d3 H12 H23 q Hq.
  destruct (H12 q Hq), (H23 q Hq). lia.
Qed.

Ltac compose side :=
  unfold discard, redis_exists, redis_set, redis_del, redis_lpush, redis_incr,
    redis_llen, redis_brpop, redis_lrange, redis_lindex, redis_get_count;
  repeat first
    [ apply preserves_ret; apply _
    | apply preserves_throw; apply _
    | apply preserves_now; apply _
    | apply preserves_generateMessageId; apply _
    | apply preserves_parse_all; apply _
    | apply preserves_bind; [apply _ | | intros ?]
    | apply preserves_send; [apply _ | side]
    | match goal with
      | |- preserves _ _ (if ?b then _ else _) => destruct b
      | |- preserves _ _ (match ?x with _ => _ end) => destruct x
      end ].

Ltac other_key :=
  let H := fresh in
  intros ? ? ? ? ? H; simpl in H;
  rewrite ?queueKey_of in H;
  apply key_of_inj in H; [destruct H; congruence | assumption | assumption].

(** ** Counters under every call but deletion *)

Section Monotone.
Context (E : runtime).

Ltac grows_side n Hn :=
  first
    [ intros ?; rewrite exec_reads by done; reflexivity
    | apply counters_grow_incr_by; lia
    | apply counters_grow_elsewhere;
      let H := fresh in
      intros ? ? ? ? ? H; simpl in H;
      rewrite ?queueKey_of in H;
      change (metadataKey n) with (key_of KMeta n) in H;
      apply key_of_inj in H; [destruct H; congruence | assumption | exact Hn] ].

Lemma message_age_grows v :
  preserves E (counters_grow E) (message_age E v).
Proof. unfold message_age. compose idtac. Qed.

Lemma bulk_envelopes_grows ps :
  preserves E (counters_grow E) (bulk_envelopes E ps).
Proof. induction ps as [|p ps IH]; simpl; compose idtac. exact IH. Qed.

Lemma perform_grows (c : call) :
  is_delete c = false → preserves E (counters_grow E) (perform E c).
Proof.
  destruct c as [n dto|n t|n k|n dto|n|n|n|n|n|n msg|n t]; intros Hc; try done;
    simpl; unfold enqueueMessage, dequeueMessage, peekMessages, bulkEnqueue,
      purgeQueue, createQueue, getQueueInfo, getQueueMetrics, api_enqueue,
      api_dequeue;
    destruct (validateQueueName n) eqn:Hn; simpl.
  all: try (compose idtac; fail).
  all: try (unfold message_age; compose ltac:(grows_side n Hn); fail).
  unfold discard.
  apply preserves_bind; [apply _ | | intros ?; apply preserves_ret; apply _].
  apply preserves_bind; [apply _ | apply bulk_envelopes_grows | intros built].
  apply preserves_bind; [apply _ | | intros ?; compose idtac].
  apply preserves_pipeline_exec; [apply _ | apply _ |].
  intros c d [Hin|Hin]%elem_of_app.
  - apply list_elem_of_fmap in Hin as (v & -> & _). revert d.
    grows_side n Hn.
  - apply list_elem_of_singleton in Hin as ->.
    apply counters_grow_incr_by. lia.
Qed.
End Monotone.

(** ** Bulk enqueue on a store that answers *)

Section BulkEnqueue.
Context (E : runtime) (Hup : store_up E).
Implicit Types (d : gmap string (rval (wire E))) (w : world (wire E)).

Lemma put_list_put_list k (l l' : list (wire E)) d :
  put_list k l (put_list k l' d) = put_list k l d.
Proof.
  destruct l, l'; simpl;
    by rewrite ?delete_delete_eq, ?delete_insert_eq, ?insert_delete_eq,
         ?insert_insert_eq.
Qed.

Lemma run_batch_app i cs1 cs2 d :
  run_batch E i (cs1 ++ cs2) d
  = ((run_batch E i cs1 d).1
       ++ (run_batch E (i + length cs1) cs2 (run_batch E i cs1 d).2).1,
     (run_batch E (i + length cs1) cs2 (run_batch E i cs1 d).2).2).
Proof.
  revert i d. induction cs1 as [|c cs1 IH]; intros i d; simpl.
  - rewrite Nat.add_0_r. by destruct (run_batch E i cs2 d).
  - destruct (answer E i c d) as [r d']. rewrite IH.
    replace (i + S (length cs1))%nat with (S i + length cs1)%nat by lia.
    destruct (run_batch E (S i) cs1 d') as [rs1 d1]. simpl.
    by destruct (run_batch E (S i + length cs1) cs2 d1).
Qed.

Lemma run_batch_lpush k (texts : list (wire E)) i d :
  listy d k →
  (run_batch E i (LPUSH k <$> texts) d).2
  = put_list k (reverse texts ++ list_at d k) d.
Proof.
  revert i d. induction texts as [|v texts IH]; intros i d Hl.
  - simpl. by rewrite put_list_id.
  - rewrite fmap_cons. simpl. unfold answer. rewrite Hup.
    assert (exec (LPUSH k v) d
            = (IntReply (Z.of_nat (S (length (list_at d k)))),
               put_list k (v :: list_at d k) d)) as ->.
    { unfold listy, list_at in *. simpl. by destruct (d !! k) as [[| |]|]. }
    specialize (IH (S i) (put_list k (v :: list_at d k) d) (listy_put_list _ _ _)).
    destruct (run_batch E (S i) (LPUSH k <$> texts) _) as [rs d''].
    cbn [fst snd] in *.
    rewrite IH, list_at_put_list, put_list_put_list, reverse_cons.
    by rewrite <- app_assoc.
Qed.

Lemma length_bulk_built ps (d r : nat) :
  length (bulk_built E ps d r) = length ps.
Proof.
  revert d r. induction ps as [|p ps IH]; intros d r; simpl; [done|].
  by rewrite IH.
Qed.

Lemma bulk_envelopes_built ps w :
  bulk_envelopes E ps w
  = (Returns (bulk_built E ps (draws w) (reads w)),
     World (db w) (log w) (reads w + length ps) (draws w + length ps)).
Proof.
  revert w. induction ps as [|p ps IH]; intros w; simpl.
  - rewrite !Nat.add_0_r. by destruct w.
  - unfold bind at 1. simpl. unfold bind at 1. simpl. unfold bind at 1.
    rewrite IH. simpl. unfold ret.
    by rewrite <- !Nat.add_succ_r.
Qed.

(** Bulk enqueue on a store that answers: one pipeline request; the texts go
    onto the list in input order, so the first payload is the oldest of the
    batch; the counter moves by the batch size; the ids come back in input
    order. *)
Lemma bulkEnqueue_spec n (dto : BulkEnqueueDto) w :
  validateQueueName n = true → typed w n →
  let built := bulk_built E (messages dto) (draws w) (reads w) in
  let count := length (messages dto) in
  ∃ w',
    bulkEnqueue E n dto w
    = (Returns {| bulk_success := true; bulk_queue := n;
                  bulk_enqueuedCount := count;
                  bulk_messageIds := built.*1;
                  bulk_timestamp := toISOString E (clock E (reads w + count)) |},
       w')
    ∧ items w' n = reverse built.*2 ++ items w n
    ∧ totalEnqueued w' n = (totalEnqueued w n + Z.of_nat count)%Z
    ∧ totalDequeued w' n = totalDequeued w n
    ∧ db w' !! key_of KMeta n = db w !! key_of KMeta n
    ∧ typed w' n
    ∧ same_elsewhere n w w'
    ∧ log w' = log w ++ [bulk_request E n built.*2].
Proof.
  intros Hn (Hl & He & Hd) built count.
  assert (length built.*2 = count) as Hlen.
  { subst built count. by rewrite length_fmap, length_bulk_built. }
  unfold bulkEnqueue. rewrite Hn. simpl (negb _). cbv beta iota.
  unfold bind at 1. rewrite bulk_envelopes_built. fold built.
  unfold bind, pipeline_exec. simpl.
  rewrite run_batch_app.
  pose proof (run_batch_lpush (queueKey n) built.*2 (sent (log w)) (db w)) as Hpush.
  rewrite queueKey_of in Hpush |- *. specialize (Hpush Hl).
  destruct (run_batch E (sent (log w)) (LPUSH (key_of KList n) <$> built.*2) (db w))
    as [rs d1]. simpl in Hpush. subst d1. simpl.
  unfold answer. rewrite Hup. simpl.
  change (enqueuedKey n) with (key_of KEnq n).
  rewrite exec_incr_by by typed_side. simpl. unfold ret.
  rewrite Hlen. eexists; split; [reflexivity|].
  unfold bulk_request. rewrite queueKey_of, Hlen.
  views. repeat split; try done; try lia; eauto; try frame_solve.
  all: destruct (reverse built.*2 ++ _) eqn:Hr; simpl; look; try done.
Qed.
End BulkEnqueue.

(** ** Create, info, delete, purge on a store that answers *)

Section Lifecycle.
Context (E : runtime) (Hup : store_up E).
Implicit Types (w : world (wire E)) (n : string).

Lemma createQueue_new n w :
  validateQueueName n = true → db w !! key_of KMeta n = None →
  let ts := toISOString E (clock E (reads w)) in
  createQueue E n w
  = (Returns {| create_success := true; create_queue := n; create_timestamp := ts |},
     World (<[key_of KMeta n := RStr (JSON_stringify E (metadata_record ts n))]> (db w))
       (log w ++ [Single (EXISTS (metadataKey n));
                  Single (SET (metadataKey n)
                            (JSON_stringify E (metadata_record ts n)))])
       (S (reads w)) (draws w)).
Proof.
  intros Hn Hm ts. unfold createQueue. rewrite Hn. service_keys n.
  simpl (negb _). cbv beta iota. unfold bind at 1.
  rewrite redis_exists_up by done. rewrite Hm. simpl.
  unfold bind, now. simpl. rewrite redis_set_up by done.
  unfold ret, sent_world. simpl. by rewrite <- app_assoc.
Qed.

Lemma createQueue_existing n w :
  validateQueueName n = true → is_Some (db w !! key_of KMeta n) →
  createQueue E n w
  = (Throws queue_exists, sent_world E (db w) (EXISTS (metadataKey n)) w).
Proof.
  intros Hn [m Hm]. unfold createQueue. rewrite Hn. service_keys n.
  simpl (negb _). cbv beta iota. unfold bind at 1.
  rewrite redis_exists_up by done. by rewrite Hm.
Qed.

Lemma message_age_returns v w :
  ∃ a r, message_age E v w = (Returns a, World (db w) (log w) r (draws w)).
Proof.
  unfold message_age. destruct v as [x|]; [|by exists None, (reads w); destruct w].
  destruct (JSON_parse E x) as [msg|];
    [|by exists None, (reads w); destruct w].
  unfold bind, now. simpl. destruct msg; by eexists _, _.
Qed.

(** Info looks at the list only: with an empty list it fails, whether or not
    the queue has metadata. *)
Lemma getQueueInfo_missing n w :
  validateQueueName n = true → typed w n → items w n = [] →
  getQueueInfo E n w
  = (Throws queue_not_found,
     World (db w)
       (log w ++ [Single (LLEN (queueKey n)); Single (EXISTS (queueKey n))])
       (reads w) (draws w)).
Proof.
  intros Hn (Hl & He & Hd) Hitems. unfold getQueueInfo. rewrite Hn.
  service_keys n. simpl (negb _). cbv beta iota. unfold bind at 1.
  rewrite redis_llen_up by done. fold (items w n). rewrite Hitems. simpl.
  unfold bind at 1. unfold bind at 1.
  rewrite redis_exists_up by done. simpl.
  rewrite (listy_empty _ _ Hl Hitems). simpl.
  unfold throw, sent_world. simpl. by rewrite <- app_assoc.
Qed.

Lemma getQueueInfo_present n w :
  validateQueueName n = true → typed w n → items w n ≠ [] →
  ∃ info w',
    getQueueInfo E n w = (Returns info, w')
    ∧ db w' = db w
    ∧ info_name info = n
    ∧ info_depth info = depth w n
    ∧ info_totalEnqueued info = Num (totalEnqueued w n)
    ∧ info_totalDequeued info = Num (totalDequeued w n).
Proof.
  intros Hn (Hl & He & Hd) Hitems. unfold getQueueInfo. rewrite Hn.
  service_keys n. simpl (negb _). cbv beta iota. unfold bind at 1.
  rewrite redis_llen_up by done. fold (items w n).
  pose proof (nonempty_length _ Hitems) as Hlen.
  destruct (Z.eqb_spec (Z.of_nat (length (items w n))) 0) as [|_]; [lia|].
  unfold bind at 1. unfold ret at 1. cbv beta iota.
  destruct (Z.ltb_spec 0 (Z.of_nat (length (items w n)))) as [_|]; [|lia].
  unfold bind at 1. unfold bind at 1.
  rewrite redis_lindex_up by done. simpl.
  unfold bind at 1. rewrite redis_lindex_up by done. simpl.
  unfold bind at 1.
  match goal with |- context [message_age E ?v ?w0] =>
    destruct (message_age_returns v w0) as (a1 & r1 & ->) end.
  cbv beta iota. unfold bind at 1.
  match goal with |- context [message_age E ?v ?w0] =>
    destruct (message_age_returns v w0) as (a2 & r2 & ->) end.
  cbv beta iota.
  unfold ret at 1. unfold bind at 1.
  rewrite redis_get_count_up by done. simpl.
  unfold bind at 1. rewrite redis_get_count_up by done. simpl.
  unfold ret. by eexists _, _.
Qed.

Lemma deleteQueue_missing n w :
  validateQueueName n = true → typed w n →
  items w n = [] → db w !! key_of KMeta n = None →
  deleteQueue E n w
  = (Throws queue_not_found,
     World (db w)
       (log w ++ [Single (LLEN (queueKey n)); Single (EXISTS (metadataKey n));
                  Single (EXISTS (queueKey n))])
       (reads w) (draws w)).
Proof.
  intros Hn (Hl & He & Hd) Hitems Hm. unfold deleteQueue. rewrite Hn.
  service_keys n. simpl (negb _). cbv beta iota. unfold bind at 1.
  rewrite redis_llen_up by done. fold (items w n). rewrite Hitems. simpl.
  unfold bind at 1. rewrite redis_exists_up by done. simpl. rewrite Hm. simpl.
  unfold bind at 1. unfold bind at 1.
  rewrite redis_exists_up by done. simpl.
  rewrite (listy_empty _ _ Hl Hitems). simpl.
  unfold throw, sent_world. simpl. by rewrite <- !app_assoc.
Qed.

(** Delete on a queue that has a list or metadata: the four keys are gone. *)
Lemma deleteQueue_present n w :
  validateQueueName n = true → typed w n →
  items w n ≠ [] ∨ is_Some (db w !! key_of KMeta n) →
  ∃ w' ts,
    deleteQueue E n w
    = (Returns {| delete_success := true; delete_queue := n;
                  delete_deletedMessages := depth w n;
                  delete_timestamp := ts |}, w')
    ∧ (∀ kd, db w' !! key_of kd n = None)
    ∧ same_elsewhere n w w'.
Proof.
  intros Hn (Hl & He & Hd) Hex. unfold deleteQueue. rewrite Hn.
  service_keys n. simpl (negb _). cbv beta iota. unfold bind at 1.
  rewrite redis_llen_up by done. fold (items w n). cbv beta iota.
  unfold bind at 1. rewrite redis_exists_up by done. cbv beta iota.
  unfold bind at 1.
  set (cond := andb _ _).
  assert (cond = false) as ->.
  { subst cond. simpl. destruct Hex as [Hne|Hmeta].
    - pose proof (nonempty_length _ Hne).
      by destruct (Z.eqb_spec (Z.of_nat (length (items w n))) 0); [lia|].
    - rewrite bool_decide_eq_true_2 by done. by rewrite andb_false_r. }
  unfold ret at 1. cbv beta iota.
  all: unfold bind at 1; rewrite redis_del_up by done; cbv beta iota.
  all: unfold bind at 1; rewrite redis_del_up by done; cbv beta iota.
  all: unfold bind at 1; rewrite redis_del_up by done; cbv beta iota.
  all: unfold bind at 1; rewrite redis_del_up by done; cbv beta iota.
  all: unfold bind, now, ret; simpl; eexists _, _; split; [reflexivity|].
  all: split; [intros []; simpl; look; done | frame_solve].
Qed.

Lemma purgeQueue_spec n w :
  validateQueueName n = true → typed w n →
  ∃ w' ts,
    purgeQueue E n w
    = (Returns {| purge_success := true; purge_queue := n;
                  purge_purgedMessages := depth w n;
                  purge_timestamp := ts |}, w')
    ∧ items w' n = []
    ∧ totalEnqueued w' n = totalEnqueued w n
    ∧ totalDequeued w' n = totalDequeued w n
    ∧ db w' !! key_of KMeta n = db w !! key_of KMeta n
    ∧ typed w' n
    ∧ same_elsewhere n w w'.
Proof.
  intros Hn (Hl & He & Hd). unfold purgeQueue. rewrite Hn.
  service_keys n. simpl (negb _). cbv beta iota. unfold bind at 1.
  rewrite redis_llen_up by done. fold (items w n). cbv beta iota.
  unfold bind at 1. rewrite redis_del_up by done. cbv beta iota.
  unfold bind, now, ret. simpl. eexists _, _; split; [reflexivity|].
  views. repeat split; try done; frame_solve.
Qed.
End Lifecycle.

(** ** The statistics invariant, call by call *)

#[local] Instance data_kept_reflexive E : Reflexive (data_kept E).
Proof. by intros d q kd _ _. Qed.

#[local] Instance data_kept_transitive E : Transitive (data_kept E).
Proof. intros d1 d2 d3 H12 H23 q kd Hq Hkd. by rewrite H23, H12. Qed.

Section Accounting.
Context (E : runtime) (Hup : store_up E) (Hcodec : codec_ok E).
Implicit Types (w : world (wire E)) (n q : string).

Lemma balanced_data_kept w w' q :
  validateQueueName q = true → data_kept E (db w) (db w') →
  balanced E w q → balanced E w' q.
Proof.
  intros Hq Hkept.
  unfold balanced, typed, items, depth, items, totalEnqueued, totalDequeued,
    listy, county, list_at, count_at.
  by rewrite !Hkept.
Qed.

Lemma balanced_elsewhere n w w' q :
  validateQueueName n = true → validateQueueName q = true → q ≠ n →
  same_elsewhere n w w' → balanced E w q → balanced E w' q.
Proof.
  intros Hn Hq Hne Hsame.
  assert (∀ kd, db w' !! key_of kd q = db w !! key_of kd q) as Hk.
  { intros kd. apply Hsame. intros kd' Heq.
    apply key_of_inj in Heq as [_ ?]; done. }
  unfold balanced, typed, items, depth, items, totalEnqueued, totalDequeued,
    listy, county, list_at, count_at.
  by rewrite !Hk.
Qed.

(** A call that keeps a queue balanced and leaves the other queues alone
    keeps the whole store consistent. *)
Lemma consistent_step n w w' :
  validateQueueName n = true →
  (balanced E w n → balanced E w' n) → same_elsewhere n w w' →
  consistent E w → consistent E w'.
Proof.
  intros Hn Hbal Hsame Hcons q Hq.
  destruct (decide (q = n)) as [->|Hne]; [by apply Hbal, Hcons|].
  by eapply balanced_elsewhere; [exact Hn | | | | apply Hcons].
Qed.

Lemma consistent_data_kept w w' :
  data_kept E (db w) (db w') → consistent E w → consistent E w'.
Proof. intros Hkept Hcons q Hq. by eapply balanced_data_kept; [| |apply Hcons]. Qed.

Lemma same_elsewhere_refl n w w' : db w' = db w → same_elsewhere n w w'.
Proof. intros Hdb k _. by rewrite Hdb. Qed.

Lemma stampable_assign k a v :
  stampable v = true → is_Some (assign_prop k a v).
Proof. destruct v; try done; by eexists. Qed.

Lemma wellformed_stringify v : stampable v = true → wellformed E (JSON_stringify E v).
Proof. intros Hv. exists v. by rewrite Hcodec. Qed.

Lemma timeout_cases (tm : jsnum) :
  (∃ t, tm = Num t ∧ (0 ≤ t ≤ 60000)%Z)
  ∨ js_gt tm 60000 = true
  ∨ (js_gt tm 60000 = false
     ∧ match Math_floor_div tm 1000 with Num s => (s < 0)%Z | _ => True end).
Proof.
  destruct tm as [t| |[|]]; [|by right; right..|by right; left].
  unfold js_gt, Math_floor_div. destruct (Z.ltb_spec 60000 t); [by right; left|].
  destruct (Z.lt_ge_cases t 0).
  - right; right. split; [done|]. apply Z.div_lt_upper_bound; lia.
  - left. exists t. split; [done | lia].
Qed.

(** A timeout BRPOP refuses: the call ends with the store's error and the
    keyspace untouched. *)
Lemma redis_brpop_refused k (s : jsnum) w :
  match s with Num s => (s < 0)%Z | _ => True end →
  ∃ msg, redis_brpop E k s w
         = (Throws (ReplyError msg), sent_world E (db w) (BRPOP k s) w).
Proof.
  intros Hs. unfold redis_brpop, bind. rewrite send_up by done. simpl.
  destruct s as [s| |]; [|by eexists..].
  destruct (Z.ltb_spec s 0); [by eexists | lia].
Qed.

Lemma discard_world {A} (m : M E A) w : (discard E m w).2 = (m w).2.
Proof. unfold discard, bind. by destruct (m w) as [[a|e|] w']. Qed.

Lemma discard_outcome {A} (m : M E A) w e :
  (discard E m w).1 = Throws e ↔ (m w).1 = Throws e.
Proof.
  unfold discard, bind, ret.
  destruct (m w) as [[a|e'|] w']; simpl; split; intros H; by inversion H.
Qed.

Lemma enqueue_consistent n dto w :
  validateQueueName n = true →
  consistent E w → consistent E (enqueueMessage E n dto w).2.
Proof.
  intros Hn Hcons.
  destruct (enqueueMessage_spec E Hup n dto w Hn (proj1 (Hcons n Hn)))
    as (w' & -> & Hi & Hen & Hde & _ & Hty & Hsame & _). simpl.
  apply (consistent_step n w); try done.
  intros (_ & Hwf & Hbal). split; [done|]. unfold depth in *. rewrite Hi, Hen, Hde.
  split; [|simpl length; lia].
  constructor; [by apply wellformed_stringify | done].
Qed.

Lemma api_enqueue_consistent n msg w :
  validateQueueName n = true → stampable msg = true →
  consistent E w → consistent E (api_enqueue E n msg w).2.
Proof.
  intros Hn Hmsg Hcons.
  destruct (api_enqueue_spec E Hup n msg w Hn (proj1 (Hcons n Hn)))
    as (w' & -> & Hi & Hen & Hde & _ & Hty & Hsame & _). simpl.
  apply (consistent_step n w); try done.
  intros (_ & Hwf & Hbal). split; [done|]. unfold depth in *. rewrite Hi, Hen, Hde.
  split; [|simpl length; lia].
  constructor; [by apply wellformed_stringify | done].
Qed.

Lemma snoc_cases {A} (l : list A) : l = [] ∨ ∃ l' x, l = l' ++ [x].
Proof. destruct l using rev_ind; [by left | right; by eexists _, _]. Qed.

Lemma dequeue_consistent n tm w :
  validateQueueName n = true →
  consistent E w → consistent E (dequeueMessage E n tm w).2.
Proof.
  intros Hn Hcons. pose proof (Hcons n Hn) as (Hty & Hwf & Hbal).
  destruct (timeout_cases tm) as [(t & -> & Ht)|[Hgt|[Hgt Hneg]]].
  - destruct (snoc_cases (items w n)) as [Hnil|(l & x & Hsnoc)].
    + rewrite dequeueMessage_empty by done.
      eapply consistent_data_kept; [|exact Hcons]. simpl. reflexivity.
    + rewrite Hsnoc in Hwf. apply Forall_app in Hwf as [Hwf Hx].
      apply Forall_singleton in Hx as (v & Hparse & Hv).
      destruct (stampable_assign "dequeuedAt"
                  (JStr (toISOString E (clock E (reads w)))) v Hv) as [v' Hv'].
      destruct (dequeueMessage_some E Hup n t w l x v v' Hn Hty Ht Hsnoc Hparse Hv')
        as (w' & -> & Hi & Hen & Hde & _ & Hty' & Hsame & _). simpl.
      apply (consistent_step n w); try done.
      intros _. split; [done|]. unfold depth in *.
      rewrite Hi, Hen, Hde. split; [done|].
      rewrite Hsnoc, length_app in Hbal. simpl in Hbal. lia.
  - unfold dequeueMessage. by rewrite Hn, Hgt.
  - unfold dequeueMessage. rewrite Hn, Hgt. simpl (negb _). cbv beta iota.
    unfold bind.
    destruct (redis_brpop_refused (queueKey n) _ w Hneg) as [msg ->]. simpl.
    eapply consistent_data_kept; [|exact Hcons]. reflexivity.
Qed.

Lemma api_dequeue_consistent n tm w :
  validateQueueName n = true →
  consistent E w → consistent E (api_dequeue E n tm w).2.
Proof.
  intros Hn Hcons. pose proof (Hcons n Hn) as (Hty & Hwf & Hbal).
  destruct (timeout_cases tm) as [(t & -> & Ht)|[Hgt|[Hgt Hneg]]].
  - destruct (snoc_cases (items w n)) as [Hnil|(l & x & Hsnoc)].
    + rewrite api_dequeue_empty by done.
      eapply consistent_data_kept; [|exact Hcons]. simpl. reflexivity.
    + rewrite Hsnoc in Hwf. apply Forall_app in Hwf as [Hwf Hx].
      apply Forall_singleton in Hx as (v & Hparse & Hv).
      destruct (api_dequeue_some E Hup n t w l x v Hn Hty Ht Hsnoc Hparse)
        as (w' & -> & Hi & Hen & Hde & _ & Hty' & Hsame & _). simpl.
      apply (consistent_step n w); try done.
      intros _. split; [done|]. unfold depth in *.
      rewrite Hi, Hen, Hde. split; [done|].
      rewrite Hsnoc, length_app in Hbal. simpl in Hbal. lia.
  - unfold api_dequeue. by rewrite Hn, Hgt.
  - unfold api_dequeue. rewrite Hn, Hgt. simpl (negb _). cbv beta iota.
    unfold bind.
    destruct (redis_brpop_refused (queueKey n) _ w Hneg) as [msg ->]. simpl.
    eapply consistent_data_kept; [|exact Hcons]. reflexivity.
Qed.

Lemma bulk_built_wellformed ps d r :
  Forall (wellformed E) (bulk_built E ps d r).*2.
Proof.
  revert d r. induction ps as [|p ps IH]; intros d r; simpl; [done|].
  constructor; [by apply wellformed_stringify | apply IH].
Qed.

Lemma bulk_consistent n dto w :
  validateQueueName n = true →
  consistent E w → consistent E (bulkEnqueue E n dto w).2.
Proof.
  intros Hn Hcons.
  destruct (bulkEnqueue_spec E Hup n dto w Hn (proj1 (Hcons n Hn)))
    as (w' & -> & Hi & Hen & Hde & _ & Hty & Hsame & _). simpl.
  apply (consistent_step n w); try done.
  intros (_ & Hwf & Hbal). split; [done|]. unfold depth in *. rewrite Hi, Hen, Hde.
  split.
  - apply Forall_app. split; [|done].
    apply Forall_reverse, bulk_built_wellformed.
  - rewrite length_app, length_reverse, length_fmap, length_bulk_built. lia.
Qed.

Lemma delete_consistent n w :
  validateQueueName n = true →
  consistent E w → consistent E (deleteQueue E n w).2.
Proof.
  intros Hn Hcons. pose proof (Hcons n Hn) as (Hty & Hwf & Hbal).
  destruct (decide (items w n = [])) as [Hnil|Hne];
    [destruct (db w !! key_of KMeta n) as [m|] eqn:Hm|].
  2: { rewrite deleteQueue_missing by done.
       eapply consistent_data_kept; [|exact Hcons]. reflexivity. }
  all: destruct (deleteQueue_present E Hup n w Hn Hty) as (w' & ts & -> & Hgone & Hsame);
    [by eauto|]; simpl.
  all: apply (consistent_step n w); try done; intros _.
  all: unfold balanced, typed, depth, items, totalEnqueued, totalDequeued, listy,
         county, list_at, count_at; by rewrite !Hgone.
Qed.

Lemma data_kept_elsewhere (c : cmd (wire E)) :
  (∀ q kd, validateQueueName q = true → kd ≠ KMeta → key_of kd q ≠ cmd_key c) →
  ∀ d, data_kept E d (exec c d).2.
Proof. intros Hc d q kd Hq Hkd. apply exec_elsewhere. by apply Hc. Qed.

Ltac kept_side n Hn :=
  first
    [ intros ?; rewrite exec_reads by done; reflexivity
    | apply data_kept_elsewhere;
      let H := fresh in
      intros ? ? ? ? H; simpl in H;
      change (metadataKey n) with (key_of KMeta n) in H;
      apply key_of_inj in H; [destruct H; congruence | assumption | exact Hn] ].

Lemma reads_and_create_keep (c : call) :
  match c with
  | CallPeek _ _ | CallInfo _ | CallMetrics _ | CallCreate _ => True
  | _ => False
  end →
  preserves E (data_kept E) (perform E c).
Proof.
  destruct c as [n dto|n t|n k|n dto|n|n|n|n|n|n msg|n t]; intros Hc; try done;
    simpl; unfold peekMessages, createQueue, getQueueInfo, getQueueMetrics,
      message_age;
    destruct (validateQueueName n) eqn:Hn; simpl.
  all: compose ltac:(kept_side n Hn).
Qed.

Lemma perform_invalid (c : call) w :
  validateQueueName (call_queue c) = false →
  perform E c w = (Throws invalid_name, w).
Proof.
  destruct c; simpl; intros Hn;
    unfold discard, bind, enqueueMessage, dequeueMessage, peekMessages,
      bulkEnqueue, purgeQueue, createQueue, getQueueInfo, deleteQueue,
      getQueueMetrics, api_enqueue, api_dequeue;
    by rewrite Hn.
Qed.

Lemma perform_consistent (c : call) w :
  is_purge c = false → posts_stampable c = true →
  consistent E w → consistent E (perform E c w).2.
Proof.
  intros Hpurge Hpost Hcons.
  destruct (validateQueueName (call_queue c)) eqn:Hn;
    [|by rewrite perform_invalid].
  destruct c as [n dto|n t|n k|n dto|n|n|n|n|n|n msg|n t]; simpl in *; try done.
  - rewrite discard_world. by apply enqueue_consistent.
  - rewrite discard_world. by apply dequeue_consistent.
  - eapply consistent_data_kept; [|exact Hcons].
    exact (reads_and_create_keep (CallPeek n k) I w).
  - rewrite discard_world. by apply bulk_consistent.
  - eapply consistent_data_kept; [|exact Hcons].
    exact (reads_and_create_keep (CallCreate n) I w).
  - eapply consistent_data_kept; [|exact Hcons].
    exact (reads_and_create_keep (CallInfo n) I w).
  - rewrite discard_world. by apply delete_consistent.
  - eapply consistent_data_kept; [|exact Hcons].
    exact (reads_and_create_keep (CallMetrics n) I w).
  - rewrite discard_world. by apply api_enqueue_consistent.
  - rewrite discard_world. by apply api_dequeue_consistent.
Qed.

Lemma empty_world_consistent : consistent E (empty_world E).
Proof.
  intros q Hq.
  unfold balanced, typed, depth, items, totalEnqueued, totalDequeued, listy,
    county, list_at, count_at. simpl. by rewrite !lookup_empty.
Qed.

Lemma after_consistent (cs : list call) w :
  Forall (λ c, is_purge c = false ∧ posts_stampable c = true) cs →
  consistent E w → consistent E (after E cs w).
Proof.
  intros Hcs. revert w. induction Hcs as [|c cs [Hp Hs] _ IH]; intros w Hw; [done|].
  simpl. apply IH. by apply perform_consistent.
Qed.
End Accounting.

(** ** Which exceptions a call can throw, and what it adds to the log *)

Section Outcomes.
Context (E : runtime).
Implicit Types (w : world (wire E)) (e : exn).

Lemma never_ret {A} e (a : A) : never_throws E e (ret E a).
Proof. by intros w. Qed.

Lemma never_throw {A} e e' : e' ≠ e → never_throws E e (@throw E A e').
Proof. intros Hne w. simpl. congruence. Qed.

Lemma never_now e : never_throws E e (now E).
Proof. by intros w. Qed.

Lemma never_generateMessageId e : never_throws E e (generateMessageId E).
Proof. by intros w. Qed.

Lemma never_bind {A B} e (m : M E A) (f : A → M E B) :
  never_throws E e m → (∀ a, never_throws E e (f a)) →
  never_throws E e (bind E m f).
Proof.
  intros Hm Hf w. unfold bind. specialize (Hm w).
  destruct (m w) as [[a|e'|] w']; simpl in *;
    [apply Hf | intros [= ->]; by apply Hm | done].
Qed.

Lemma never_send e (c : cmd (wire E)) :
  (∀ msg, e ≠ ReplyError msg) → never_throws E e (send E c).
Proof.
  intros He w. unfold send.
  destruct (answer E (sent (log w)) c (db w)) as [r d]. simpl.
  destruct r; simpl; try done. intros [= <-]. by eapply He.
Qed.

Lemma never_pipeline_exec e cs : never_throws E e (pipeline_exec E cs).
Proof.
  intros w. unfold pipeline_exec.
  by destruct (run_batch E (sent (log w)) cs (db w)).
Qed.

Lemma never_parse_all e xs : e ≠ SyntaxError → never_throws E e (parse_all E xs).
Proof.
  intros He. induction xs as [|x xs IH]; intros w; simpl; [done|].
  destruct (JSON_parse E x); simpl; [|congruence].
  unfold bind. specialize (IH w). by destruct (parse_all E xs w) as [[| |] ?].
Qed.

Lemma never_bulk_envelopes e ps : never_throws E e (bulk_envelopes E ps).
Proof.
  induction ps as [|p ps IH]; simpl; [apply never_ret|].
  apply never_bind; [apply never_generateMessageId | intros id].
  apply never_bind; [apply never_now | intros t].
  apply never_bind; [exact IH | intros rest]. apply never_ret.
Qed.

Lemma log_grows_ret {A} (a : A) : log_grows E (ret E a).
Proof. intros w. exists []. simpl. by rewrite app_nil_r. Qed.

Lemma log_grows_throw {A} e : log_grows E (@throw E A e).
Proof. intros w. exists []. simpl. by rewrite app_nil_r. Qed.

Lemma log_grows_now : log_grows E (now E).
Proof. intros w. exists []. simpl. by rewrite app_nil_r. Qed.

Lemma log_grows_send (c : cmd (wire E)) : log_grows E (send E c).
Proof.
  intros w. unfold send.
  destruct (answer E (sent (log w)) c (db w)) as [r d]. by eexists.
Qed.

Lemma log_grows_bind {A B} (m : M E A) (f : A → M E B) :
  log_grows E m → (∀ a, log_grows E (f a)) → log_grows E (bind E m f).
Proof.
  intros Hm Hf w. unfold bind. destruct (Hm w) as [more Hmore].
  destruct (m w) as [[a|e'|] w']; simpl in *; try by eexists.
  destruct (Hf a w') as [more' Hmore']. exists (more ++ more').
  by rewrite Hmore', Hmore, app_assoc.
Qed.
End Outcomes.

Ltac never_compose :=
  unfold discard, redis_exists, redis_set, redis_del, redis_lpush, redis_incr,
    redis_llen, redis_brpop, redis_lrange, redis_lindex, redis_get_count;
  repeat first
    [ apply never_ret
    | apply never_throw; discriminate
    | apply never_now
    | apply never_generateMessageId
    | apply never_parse_all; discriminate
    | apply never_bulk_envelopes
    | apply never_pipeline_exec
    | apply never_send; discriminate
    | apply never_bind; [ | intros ?]
    | match goal with
      | |- never_throws _ _ (if ?b then _ else _) => destruct b
      | |- never_throws _ _ (match ?x with _ => _ end) => destruct x
      end ].

Ltac log_compose :=
  unfold redis_incr;
  repeat first
    [ apply log_grows_ret
    | apply log_grows_throw
    | apply log_grows_now
    | apply log_grows_send
    | apply log_grows_bind; [ | intros ?]
    | match goal with
      | |- log_grows _ (if ?b then _ else _) => destruct b
      | |- log_grows _ (match ?x with _ => _ end) => destruct x
      end ].

(** ** Claims about validation and the timeout ceiling *)

Section Gates.
Context (E : runtime).
Implicit Types (w : world (wire E)).

Lemma perform_accepts_good_name (c : call) :
  validateQueueName (call_queue c) = true →
  never_throws E invalid_name (perform E c).
Proof.
  destruct c as [n dto|n t|n k|n dto|n|n|n|n|n|n msg|n t]; simpl; intros Hn;
    unfold enqueueMessage, dequeueMessage, peekMessages, bulkEnqueue,
      purgeQueue, createQueue, getQueueInfo, deleteQueue, getQueueMetrics,
      api_enqueue, api_dequeue, message_age;
    rewrite Hn; simpl (negb _); cbv beta iota.
  all: never_compose.
Qed.

Lemma bind_assoc {A B C} (m : M E A) (f : A → M E B) (g : B → M E C) w :
  bind E (bind E m f) g w = bind E m (λ a, bind E (f a) g) w.
Proof. unfold bind. by destruct (m w) as [[a|e|] w']. Qed.

Lemma log_after_send {A} (c : cmd (wire E)) (f : reply (wire E) → M E A) w :
  (∀ r, log_grows E (f r)) →
  ∃ more, log (bind E (send E c) f w).2 = log w ++ Single c :: more.
Proof.
  intros Hf. unfold bind, send.
  destruct (answer E (sent (log w)) c (db w)) as [r d].
  destruct (settle E r) as [r'|e|] eqn:Hr; simpl; try by exists [].
  destruct (Hf r' (sent_world E d c w)) as [more Hmore].
  exists more. rewrite Hmore. simpl. by rewrite <- app_assoc.
Qed.

Lemma js_gt_exceeds (tm : jsnum) :
  js_gt tm 60000 = true ↔ exceeds_ceiling tm.
Proof.
  destruct tm as [t| |[|]]; simpl; [|done..].
  destruct (Z.ltb_spec 60000 t); split; intros; try done; lia.
Qed.

Lemma dequeueMessage_over_ceiling n tm w :
  validateQueueName n = true → exceeds_ceiling tm →
  dequeueMessage E n tm w = (Throws timeout_too_large, w).
Proof.
  intros Hn Htm%js_gt_exceeds. unfold dequeueMessage. by rewrite Hn, Htm.
Qed.

Lemma api_dequeue_over_ceiling n tm w :
  validateQueueName n = true → exceeds_ceiling tm →
  api_dequeue E n tm w = (Throws timeout_too_large, w).
Proof.
  intros Hn Htm%js_gt_exceeds. unfold api_dequeue. by rewrite Hn, Htm.
Qed.

Lemma dequeueMessage_under_ceiling n tm w :
  validateQueueName n = true → ¬ exceeds_ceiling tm →
  (dequeueMessage E n tm w).1 ≠ Throws timeout_too_large
  ∧ ∃ more, log (dequeueMessage E n tm w).2
            = log w ++ Single (BRPOP (queueKey n) (Math_floor_div tm 1000)) :: more.
Proof.
  intros Hn Htm. assert (js_gt tm 60000 = false) as Hgt.
  { destruct (js_gt tm 60000) eqn:Hgt; [|done]. by apply js_gt_exceeds in Hgt. }
  unfold dequeueMessage. rewrite Hn, Hgt. simpl (negb _). cbv beta iota. split.
  - generalize w. change (never_throws E timeout_too_large
      (bind E (redis_brpop E (queueKey n) (Math_floor_div tm 1000))
         (λ result, match result with
            | Some (_, messageStr) =>
                match JSON_parse E messageStr with
                | Some msg =>
                    bind E (now E) (λ t,
                      match assign_prop "dequeuedAt" (JStr (toISOString E t)) msg with
                      | Some msg' =>
                          bind E (redis_incr E (dequeuedKey n)) (λ _, ret E (Some msg'))
                      | None => throw E TypeError
                      end)
                | None => throw E SyntaxError
                end
            | None => ret E None
            end))).
    never_compose.
  - unfold redis_brpop. rewrite bind_assoc. apply log_after_send.
    intros r. log_compose.
Qed.

Lemma api_dequeue_under_ceiling n tm w :
  validateQueueName n = true → ¬ exceeds_ceiling tm →
  (api_dequeue E n tm w).1 ≠ Throws timeout_too_large
  ∧ ∃ more, log (api_dequeue E n tm w).2
            = log w ++ Single (BRPOP (queueKey n) (Math_floor_div tm 1000)) :: more.
Proof.
  intros Hn Htm. assert (js_gt tm 60000 = false) as Hgt.
  { destruct (js_gt tm 60000) eqn:Hgt; [|done]. by apply js_gt_exceeds in Hgt. }
  unfold api_dequeue. rewrite Hn, Hgt. simpl (negb _). cbv beta iota. split.
  - generalize w. change (never_throws E timeout_too_large
      (bind E (redis_brpop E (queueKey n) (Math_floor_div tm 1000))
         (λ result, match result with
            | Some (_, messageStr) =>
                match JSON_parse E messageStr with
                | Some msg =>
                    bind E (redis_incr E (dequeuedKey n)) (λ _, ret E (Some msg))
                | None => throw E SyntaxError
                end
            | None => ret E None
            end))).
    never_compose.
  - unfold redis_brpop. rewrite bind_assoc. apply log_after_send.
    intros r. log_compose.
Qed.
End Gates.

(** C8 (fail-fast validation).  For every call that names a queue: the name
    passes [validateQueueName] exactly when it matches the documented rule
    [^[A-Za-z0-9_-]{1,64}$]; when it does not, the call throws "Invalid queue
    name" and leaves the world as it found it, the keyspace and the log of
    requests included, so no store call was issued; when it does, the call
    never ends with that exception. *)
Theorem name_validation_fails_fast (E : runtime) (c : call) (w : world (wire E)) :
  validateQueueName (call_queue c) = documented_name_rule (call_queue c)
  ∧ (documented_name_rule (call_queue c) = false →
     perform E c w = (Throws invalid_name, w))
  ∧ (documented_name_rule (call_queue c) = true →
     (perform E c w).1 ≠ Throws invalid_name).
Proof.
  split; [apply validateQueueName_documented|].
  rewrite <- validateQueueName_documented. split; intros Hn.
  - by apply perform_invalid.
  - by apply perform_accepts_good_name.
Qed.

(** C9 (timeout ceiling).  On a well-named queue, [dequeueMessage] and the API
    service's [dequeue] throw "Timeout exceeds maximum (60s)" exactly when the
    requested timeout is above 60 000, and then nothing is sent to the store;
    any other timeout, 60 000 included, is handed to BRPOP as whole seconds.  A
    request without a timeout parameter is handled as one asking for 10 000. *)
Theorem timeout_ceiling (E : runtime) (queueName : string) (timeoutMs : jsnum)
    (w : world (wire E)) :
  validateQueueName queueName = true →
  (exceeds_ceiling timeoutMs →
     dequeueMessage E queueName timeoutMs w = (Throws timeout_too_large, w)
     ∧ api_dequeue E queueName timeoutMs w = (Throws timeout_too_large, w))
  ∧ (¬ exceeds_ceiling timeoutMs →
     (dequeueMessage E queueName timeoutMs w).1 ≠ Throws timeout_too_large
     ∧ (api_dequeue E queueName timeoutMs w).1 ≠ Throws timeout_too_large
     ∧ (∃ more, log (dequeueMessage E queueName timeoutMs w).2
          = log w ++ Single (BRPOP (queueKey queueName)
                               (Math_floor_div timeoutMs 1000)) :: more)
     ∧ (∃ more, log (api_dequeue E queueName timeoutMs w).2
          = log w ++ Single (BRPOP (queueKey queueName)
                               (Math_floor_div timeoutMs 1000)) :: more))
  ∧ QueuesController_dequeueMessage E queueName None
    = only_bad_request E (dequeueMessage E queueName (Num 10000))
  ∧ ApiController_dequeue E queueName None
    = ApiController_dequeue E queueName (Some "10000")
  ∧ parseInt "10000" = Num 10000.
Proof.
  intros Hn. split; [|split; [|done]].
  - intros Htm. split;
      [by apply dequeueMessage_over_ceiling | by apply api_dequeue_over_ceiling].
  - intros Htm.
    destruct (dequeueMessage_under_ceiling E queueName timeoutMs w Hn Htm).
    destruct (api_dequeue_under_ceiling E queueName timeoutMs w Hn Htm).
    done.
Qed.

(** C5 (statistics), as the code has it.  Under every call other than queue
    deletion the counters [totalEnqueued] and [totalDequeued] of every
    well-named queue are at least what they were before the call, however the
    call ends.  And after any sequence of calls that contains no purge, run
    one after the other from an empty store that answers, with a JSON codec
    that round-trips and with objects or arrays as the values posted through
    the API service, [totalEnqueued - totalDequeued] is the current depth of
    every well-named queue.  (A purge empties the list and leaves the
    counters, so after a purge the difference exceeds the depth.) *)
Theorem statistics_invariant (E : runtime) :
  (∀ (c : call) (w : world (wire E)) (q : string),
     is_delete c = false → validateQueueName q = true →
     (totalEnqueued w q ≤ totalEnqueued (perform E c w).2 q)%Z
     ∧ (totalDequeued w q ≤ totalDequeued (perform E c w).2 q)%Z)
  ∧ (store_up E → codec_ok E →
     ∀ (cs : list call) (q : string),
       Forall (λ c, is_purge c = false ∧ posts_stampable c = true) cs →
       validateQueueName q = true →
       (totalEnqueued (after E cs (empty_world E)) q
        - totalDequeued (after E cs (empty_world E)) q
        = depth (after E cs (empty_world E)) q)%Z).
Proof.
  split.
  - intros c w q Hc Hq. exact (perform_grows E c Hc w q Hq).
  - intros Hup Hcodec cs q Hcs Hq.
    pose proof (after_consistent E Hup Hcodec cs (empty_world E) Hcs
                  (empty_world_consistent E)) as Hcons.
    by destruct (Hcons q Hq) as (_ & _ & Hbal).
Qed.

(** ** The concrete runtime: facts and worked cases *)

Lemma demo_store_up : store_up Demo.rt.
Proof. intros i. reflexivity. Defined.

Lemma demo_codec_ok : codec_ok Demo.rt.
Proof. intros v. reflexivity. Defined.

Lemma demo_clock_mono : clock_mono Demo.rt.
Proof. intros i j Hij. simpl. lia. Defined.

Lemma demo_fresh_typed n : typed Demo.fresh n.
Proof.
  unfold typed, listy, county, Demo.fresh. simpl. rewrite !lookup_empty. done.
Defined.

Lemma demo_fresh_items n : items Demo.fresh n = [].
Proof. unfold items, list_at, Demo.fresh. simpl. by rewrite lookup_empty. Defined.

Lemma fifo_order_witness :
  ∃ r1 r2 r3 w',
    fifo_scenario Demo.rt "orders" (Demo.dto (JStr "A")) (Demo.dto (JStr "B"))
      (Demo.dto (JStr "C")) (Num 1000) (Num 0) (Num 60000) Demo.fresh
    = (Returns [r1; r2; r3], w')
    ∧ payload_of r1 = Some (JStr "A")
    ∧ payload_of r2 = Some (JStr "B")
    ∧ payload_of r3 = Some (JStr "C")
    ∧ items w' "orders" = [].
Proof.
  apply (fifo_order Demo.rt "orders" (Demo.dto (JStr "A")) (Demo.dto (JStr "B"))
           (Demo.dto (JStr "C")) 1000 0 60000 Demo.fresh);
    [ exact demo_store_up | exact demo_codec_ok | reflexivity
    | apply demo_fresh_typed | apply demo_fresh_items | lia | lia | lia ].
Defined.



Lemma statistics_invariant_witness :
  ((totalEnqueued Demo.fresh "orders"
    ≤ totalEnqueued (perform Demo.rt (CallPurge "orders") Demo.fresh).2 "orders")%Z
   ∧ (totalDequeued Demo.fresh "orders"
      ≤ totalDequeued (perform Demo.rt (CallPurge "orders") Demo.fresh).2 "orders")%Z)
  ∧ (totalEnqueued (after Demo.rt demo_calls (empty_world Demo.rt)) "orders"
     - totalDequeued (after Demo.rt demo_calls (empty_world Demo.rt)) "orders"
     = depth (after Demo.rt demo_calls (empty_world Demo.rt)) "orders")%Z.
Proof.
  split.
  - apply (proj1 (statistics_invariant Demo.rt)); reflexivity.
  - apply (proj2 (statistics_invariant Demo.rt) demo_store_up demo_codec_ok);
      [|reflexivity].
    repeat constructor.
Defined.

(** C5 as stated fails after a purge: one enqueue and one purge leave
    [totalEnqueued = 1], [totalDequeued = 0] and depth 0. *)
Lemma purge_breaks_the_balance :
  totalEnqueued
    (after Demo.rt [CallEnqueue "orders" (Demo.dto (JStr "A")); CallPurge "orders"]
       (empty_world Demo.rt)) "orders" = 1%Z
  ∧ totalDequeued
      (after Demo.rt [CallEnqueue "orders" (Demo.dto (JStr "A")); CallPurge "orders"]
         (empty_world Demo.rt)) "orders" = 0%Z
  ∧ depth
      (after Demo.rt [CallEnqueue "orders" (Demo.dto (JStr "A")); CallPurge "orders"]
         (empty_world Demo.rt)) "orders" = 0%Z.
Proof. vm_compute. done. Qed.

Lemma name_validation_fails_fast_witness :
  perform Demo.rt (CallPurge "bad:name") Demo.fresh = (Throws invalid_name, Demo.fresh)
  ∧ (perform Demo.rt (CallPurge "orders") Demo.fresh).1 ≠ Throws invalid_name.
Proof.
  split.
  - apply (name_validation_fails_fast Demo.rt (CallPurge "bad:name") Demo.fresh).
    reflexivity.
  - apply (name_validation_fails_fast Demo.rt (CallPurge "orders") Demo.fresh).
    reflexivity.
Defined.

Lemma timeout_ceiling_witness :
  dequeueMessage Demo.rt "orders" (Num 60001) Demo.fresh
  = (Throws timeout_too_large, Demo.fresh)
  ∧ (dequeueMessage Demo.rt "orders" (Num 60000) Demo.fresh).1
    ≠ Throws timeout_too_large.
Proof.
  split.
  - apply (timeout_ceiling Demo.rt "orders" (Num 60001) Demo.fresh); [reflexivity|].
    simpl. lia.
  - apply (timeout_ceiling Demo.rt "orders" (Num 60000) Demo.fresh); [reflexivity|].
    simpl. lia.
Defined.

(** C4 (bulk enqueue atomicity), at a failing input.  [bulkEnqueue] queues its
    commands on a pipeline, which the store answers one command at a time.
    When the store rejects the second of the two LPUSH commands, the first
    message is on the list, the second is not, the counter has moved by two,
    and the call reports success for two messages. *)
Theorem bulk_enqueue_is_not_all_or_nothing :
  (bulkEnqueue (Demo.rt_failing 1) "orders"
     {| messages := [JStr "A"; JStr "B"] |} Demo.fresh).1
  = Returns {| bulk_success := true; bulk_queue := "orders";
               bulk_enqueuedCount := 2;
               bulk_messageIds := ["msg_0"; "msg_1"];
               bulk_timestamp := "2000" |}
  ∧ items (bulkEnqueue (Demo.rt_failing 1) "orders"
             {| messages := [JStr "A"; JStr "B"] |} Demo.fresh).2 "orders"
    = [envelope "msg_0" (JStr "A") "0"]
  ∧ totalEnqueued (bulkEnqueue (Demo.rt_failing 1) "orders"
                     {| messages := [JStr "A"; JStr "B"] |} Demo.fresh).2 "orders"
    = 2%Z.
Proof. vm_compute. done. Qed.

(** C6 (existence test of info), at a failing input.  After [createQueue] the
    queue has a metadata record and no list.  [getQueueInfo] throws "Queue not
    found" all the same, while [deleteQueue], which does look at the
    metadata, accepts the queue. *)
Theorem info_overlooks_metadata :
  is_Some (db (createQueue Demo.rt "orders" Demo.fresh).2 !! metadataKey "orders")
  ∧ (getQueueInfo Demo.rt "orders" (createQueue Demo.rt "orders" Demo.fresh).2).1
    = Throws queue_not_found
  ∧ (deleteQueue Demo.rt "orders" (createQueue Demo.rt "orders" Demo.fresh).2).1
    = Returns {| delete_success := true; delete_queue := "orders";
                 delete_deletedMessages := 0; delete_timestamp := "1000" |}.
Proof. vm_compute. split; [by eexists | done]. Qed.

(** The seconds handed to BRPOP never exceed the requested milliseconds, and
    they are zero for every timeout under a second. *)
Lemma brpop_wait_bounds (t : Z) :
  (1000 * (t / 1000) ≤ t)%Z ∧ ((0 ≤ t < 1000)%Z → (t / 1000 = 0)%Z).
Proof.
  split; [apply Z.mul_div_le; lia | apply Z.div_small].
Qed.

(** On a store that answers, a dequeue with an accepted timeout under a second
    never returns from an empty queue. *)
Lemma dequeue_under_a_second_blocks (E : runtime) n (t : Z) (w : world (wire E)) :
  store_up E → validateQueueName n = true → typed w n → items w n = [] →
  (0 ≤ t < 1000)%Z →
  dequeueMessage E n (Num t) w
  = (Blocks, sent_world E (db w) (BRPOP (queueKey n) (Num 0)) w).
Proof.
  intros Hup Hn Hty Hitems Ht.
  rewrite dequeueMessage_empty by (try done; lia).
  by rewrite (proj2 (brpop_wait_bounds t) Ht).
Qed.

(** C7 (dequeue timeout boundary), at a failing input.  A dequeue with timeout
    500 on an empty queue hands [Math.floor(500 / 1000) = 0] seconds to BRPOP,
    which for Redis means no timeout at all: the call never returns.  With
    1500 the wait is one second and the answer is "no message". *)
Theorem dequeue_500ms_never_returns :
  ApiController_dequeue Demo.rt "emptyqueue" (Some "500") Demo.fresh
  = (Blocks, World ∅ [Single (BRPOP "queue:emptyqueue" (Num 0))] 0 0)
  ∧ dequeueMessage Demo.rt "emptyqueue" (Num 500) Demo.fresh
    = (Blocks, World ∅ [Single (BRPOP "queue:emptyqueue" (Num 0))] 0 0)
  ∧ ApiController_dequeue Demo.rt "emptyqueue" (Some "1500") Demo.fresh
    = (Returns NoContent, World ∅ [Single (BRPOP "queue:emptyqueue" (Num 1))] 0 0).
Proof. vm_compute. done. Qed.

(** Peek only reads, whatever the count: the keyspace after the call is the
    keyspace before it. *)
Lemma peekMessages_reads_only (E : runtime) n (count : jsnum) :
  preserves E eq (peekMessages E n count).
Proof.
  unfold peekMessages. destruct (validateQueueName n); simpl.
  all: compose ltac:(apply reads_keep; done).
Qed.

(** A peek request without a count asks for ten messages. *)
Lemma peek_default_count (E : runtime) n :
  QueuesController_peekMessages E n None
  = only_bad_request E (peekMessages E n (Num 10)).
Proof. reflexivity. Qed.

(** C10 (peek contract), at a failing input.  With [count = 0] the range sent
    to LRANGE is [0 .. -1], the whole list: peek returns all three messages of
    a queue of three where [min(0, 100) = 0] were asked for, and all 101
    messages of a queue of 101, above the ceiling of 100. *)
Theorem peek_count_zero_returns_everything :
  (QueuesController_peekMessages Demo.rt "orders" (Some "0")
     (bulkEnqueue Demo.rt "orders"
        {| messages := [JStr "A"; JStr "B"; JStr "C"] |} Demo.fresh).2).1
  = Returns {| peek_queue := "orders";
               peek_messages := [envelope "msg_0" (JStr "A") "0";
                                 envelope "msg_1" (JStr "B") "1000";
                                 envelope "msg_2" (JStr "C") "2000"];
               peek_count := 3; peek_totalDepth := 3 |}
  ∧ match (QueuesController_peekMessages Demo.rt "orders" (Some "0")
             (bulkEnqueue Demo.rt "orders"
                {| messages := replicate 101 JNull |} Demo.fresh).2).1 with
    | Returns r => Some (length (peek_messages r))
    | _ => None
    end = Some 101%nat.
Proof. vm_compute. done. Qed.

(** ** Racing consumers *)

Section Racing.
Context (E : runtime) (Hup : store_up E).
Implicit Types (w : world (wire E)) (n : string) (c : consumer)
  (cs : list consumer).

(** The two steps, run back to back, are the call. *)
Lemma dequeueMessage_in_two_steps n tm w :
  dequeueMessage E n tm w
  = bind E (dequeue_pop E n tm)
      (λ r, match r with
            | Some m => dequeue_count E n m
            | None => ret E None
            end) w.
Proof.
  unfold dequeueMessage, dequeue_pop, dequeue_count, bind.
  destruct (negb (validateQueueName n)); [done|].
  destruct (js_gt tm 60000); [done|].
  destruct (redis_brpop E (queueKey n) (Math_floor_div tm 1000) w)
    as [[[[k x]|]|e|] w1]; try done.
  destruct (JSON_parse E x) as [msg|]; [|done]. simpl.
  by destruct (assign_prop _ _ msg).
Qed.

Lemma dequeue_pop_some n t w l x v m :
  validateQueueName n = true → typed w n → (0 ≤ t ≤ 60000)%Z →
  items w n = l ++ [x] →
  JSON_parse E x = Some v →
  assign_prop "dequeuedAt" (JStr (toISOString E (clock E (reads w)))) v = Some m →
  ∃ w',
    dequeue_pop E n (Num t) w = (Returns (Some m), w')
    ∧ items w' n = l
    ∧ totalDequeued w' n = totalDequeued w n
    ∧ typed w' n.
Proof.
  intros Hn (Hl & He & Hd) [Hgt Hsec]%accepted_timeout Hitems Hparse Hstamp.
  unfold dequeue_pop. rewrite Hn. service_keys n.
  simpl (negb _). rewrite Hgt. cbv beta iota.
  unfold bind, Math_floor_div, now.
  rewrite (redis_brpop_some E Hup _ _ l x) by done. simpl.
  rewrite Hparse. simpl. rewrite Hstamp.
  unfold ret. eexists; split; [reflexivity|].
  views. repeat split; try done.
  all: destruct l; simpl; look; done.
Qed.

Lemma dequeue_pop_empty n t w :
  validateQueueName n = true → typed w n → (0 ≤ t ≤ 60000)%Z →
  items w n = [] →
  dequeue_pop E n (Num t) w
  = (if (t <? 1000)%Z then Blocks else Returns None,
     sent_world E (db w) (BRPOP (queueKey n) (Num (t / 1000))) w).
Proof.
  intros Hn (Hl & He & Hd) Ht Hitems.
  destruct (accepted_timeout t) as [Hgt Hsec]; [lia|].
  unfold dequeue_pop. rewrite Hn. service_keys n.
  simpl (negb _). rewrite Hgt. cbv beta iota.
  unfold bind, Math_floor_div.
  rewrite redis_brpop_none by (try done; by apply listy_empty).
  destruct (Z.ltb_spec t 1000) as [Hlt|Hge].
  - rewrite (Z.div_small t 1000) by lia. done.
  - destruct (Z.eqb_spec (t / 1000) 0) as [Hz|]; [|done].
    assert (1 ≤ t / 1000)%Z by (apply Z.div_le_lower_bound; lia). lia.
Qed.

(** A timeout that is not accepted: the call throws, at the ceiling or at
    BRPOP, and the keyspace is as it was. *)
Lemma dequeue_pop_refused n tm w :
  validateQueueName n = true → accepted tm = false →
  ∃ e w', dequeue_pop E n tm w = (Throws e, w') ∧ db w' = db w.
Proof.
  intros Hn Hacc. unfold dequeue_pop. rewrite Hn. simpl (negb _). cbv beta iota.
  destruct (timeout_cases tm) as [(t & -> & Ht)|[Hgt|[Hgt Hsec]]].
  - exfalso. simpl in Hacc. apply andb_false_iff in Hacc as [H|H].
    + apply Z.leb_gt in H. lia.
    + apply Z.leb_gt in H. lia.
  - rewrite Hgt. by eexists _, _.
  - rewrite Hgt.
    destruct (redis_brpop_refused E Hup (queueKey n) (Math_floor_div tm 1000) w
                Hsec) as [msg Hpop].
    unfold bind. rewrite Hpop. by eexists _, _.
Qed.

Lemma dequeue_count_spec n m w :
  typed w n →
  ∃ w',
    dequeue_count E n m w = (Returns (Some m), w')
    ∧ items w' n = items w n
    ∧ totalDequeued w' n = (totalDequeued w n + 1)%Z
    ∧ typed w' n.
Proof.
  intros (Hl & He & Hd). unfold dequeue_count, bind. service_keys n.
  rewrite redis_incr_up by typed_side. simpl.
  unfold ret. eexists; split; [reflexivity|].
  views. repeat split; try done; lia.
Qed.

Lemma omap_insert_same {A B} (f : A → option B) (l : list A) i x y :
  l !! i = Some x → f y = f x → omap f (<[i := y]> l) = omap f l.
Proof.
  unfold omap.
  revert i. induction l as [|a l IH]; intros [|i] Hi Hf; simpl in *; try done.
  - injection Hi as ->. by rewrite Hf.
  - by rewrite (IH i).
Qed.

Lemma omap_insert_new {A B} (f : A → option B) (l : list A) i x y b :
  l !! i = Some x → f x = None → f y = Some b →
  omap f (<[i := y]> l) ≡ₚ b :: omap f l.
Proof.
  unfold omap.
  revert i. induction l as [|a l IH]; intros [|i] Hi Hx Hy; simpl in *; try done.
  - injection Hi as ->. by rewrite Hx, Hy.
  - destruct (f a) as [c|]; [|by apply IH].
    rewrite (IH i) by done. apply Permutation_swap.
Qed.

Lemma Exists_insert_inv {A} (P : A → Prop) (l : list A) i y :
  ¬ P y → Exists P (<[i := y]> l) → Exists P l.
Proof.
  intros Hy. rewrite !Exists_exists. intros (z & Hz & HP).
  apply list_elem_of_lookup in Hz as [j Hj].
  destruct (decide (i = j)) as [->|Hne].
  - destruct (decide (j < length l)%nat) as [Hlt|Hge].
    + rewrite list_lookup_insert_eq in Hj by done. by injection Hj as ->.
    + rewrite list_insert_ge in Hj by lia. exists z. split; [|done].
      by eapply list_elem_of_lookup_2.
  - rewrite list_lookup_insert_ne in Hj by done. exists z. split; [|done].
    by eapply list_elem_of_lookup_2.
Qed.

Lemma take_last_split {A} (L l : list A) j x :
  (j < length L)%nat →
  take (S j) L = l ++ [x] → l = take j L ∧ drop j L = x :: drop (S j) L.
Proof.
  intros [y Hj]%lookup_lt_is_Some_2 Htake.
  rewrite (take_S_r _ _ _ Hj) in Htake. apply app_inj_tail in Htake as [-> ->].
  split; [done|]. by apply drop_S.
Qed.

Lemma race_step_invariant n (timeouts : list jsnum) (L : list (wire E)) d0 i st :
  validateQueueName n = true → Forall (wellformed E) L →
  race_invariant E n timeouts L d0 st →
  race_invariant E n timeouts L d0 (race_step E n i st).
Proof.
  intros Hn HL. destruct st as [cs w].
  intros (Hty & Hfit & Hempty & Hdeq & k & ms & Hk & Hitems & Hms & Hperm).
  unfold race_step. simpl in *.
  destruct (cs !! i) as [c|] eqn:Hi;
    [|by unfold race_invariant; simpl; do 4 (split; [done|]); exists k, ms].
  destruct (Forall2_lookup_r _ _ _ _ _ Hfit Hi) as (tm & Htm & Hc).
  assert (∀ c', consumer_fits tm c' →
            Forall2 consumer_fits timeouts (<[i:=c']> cs)) as Hfits.
  { intros c' Hc'. rewrite <- (list_insert_id timeouts i tm Htm).
    by apply Forall2_insert. }
  destruct c as [tm'|m|o]; simpl in *.
  - subst tm'. destruct (accepted tm) eqn:Hacc.
    + destruct tm as [t| |]; try done. simpl in Hacc.
      apply andb_true_iff in Hacc as [Ht0%Z.leb_le Ht1%Z.leb_le].
      destruct (snoc_cases (items w n)) as [Hnil|(l & x & Hsnoc)].
      * rewrite dequeue_pop_empty by done.
        destruct (t <? 1000)%Z eqn:Hlt;
          [set (c' := Ended Blocks) | set (c' := Ended (Returns None))].
        all: assert (consumer_fits (Num t) c') as Hc'
          by (subst c'; simpl; rewrite Hlt;
              split; [apply andb_true_iff; split; by apply Z.leb_le | done]).
        all: assert (omap delivered (<[i:=c']> cs) = omap delivered cs)
          as Hd by (by eapply omap_insert_same).
        all: assert (omap prize (<[i:=c']> cs) = omap prize cs)
          as Hp by (by eapply omap_insert_same).
        all: unfold race_invariant; simpl; rewrite Hd, Hp.
        all: split; [done|]; split; [by apply Hfits|].
        all: split; [done|]; split; [done|]; by exists k, ms.
      * assert (x ∈ L) as Hx.
        { apply (subseteq_take (length L - k)). rewrite <- Hitems, Hsnoc.
          apply elem_of_app. right. by apply list_elem_of_singleton. }
        destruct (proj1 (Forall_forall _ _) HL x Hx) as (v & Hparse & Hv).
        destruct (stampable_assign "dequeuedAt"
                    (JStr (toISOString E (clock E (reads w)))) v Hv) as [m Hm].
        destruct (dequeue_pop_some n t w l x v m Hn Hty ltac:(lia) Hsnoc Hparse Hm)
          as (w' & -> & Hi' & Hde' & Hty').
        assert (length L - k ≠ 0)%nat as Hpos.
        { intros Hz. rewrite Hz, take_0 in Hitems. rewrite Hitems in Hsnoc.
          by destruct l. }
        assert (length L - k = S (length L - S k))%nat as Hsucc by lia.
        rewrite Hitems, Hsucc in Hsnoc.
        apply take_last_split in Hsnoc as [Hl Hdrop]; [|lia].
        assert (omap delivered (<[i:=Counting m]> cs) = omap delivered cs)
          as Hd by (by eapply omap_insert_same).
        unfold race_invariant. simpl. rewrite Hd.
        split; [done|]. split; [|split; [|split]].
        -- apply Hfits. simpl. apply andb_true_iff. split; by apply Z.leb_le.
        -- intros Hex%Exists_insert_inv; [|by intros [|]].
           rewrite (Hempty Hex) in Hitems. symmetry in Hitems.
           apply take_nil_inv in Hitems as [Hitems|Hitems];
             [lia | rewrite Hitems in Hx; by apply elem_of_nil in Hx].
        -- by rewrite Hde'.
        -- exists (S k), (ms ++ [m]). split; [lia|]. split; [by rewrite Hi'|]. split.
           ++ rewrite Hdrop, reverse_cons. rewrite <- Hsucc.
              apply Forall2_app; [done|]. constructor; [|done].
              by exists v, (clock E (reads w)).
           ++ rewrite (omap_insert_new prize cs i _ _ m Hi) by done.
              rewrite <- Hperm. by rewrite Permutation_app_comm.
    + destruct (dequeue_pop_refused n tm w Hn Hacc) as (e & w' & -> & Hdb).
      assert (omap delivered (<[i:=Ended (Throws e)]> cs) = omap delivered cs)
        as Hd by (by eapply omap_insert_same).
      assert (omap prize (<[i:=Ended (Throws e)]> cs) = omap prize cs)
        as Hp by (by eapply omap_insert_same).
      unfold race_invariant, typed, items, totalDequeued in *. simpl.
      rewrite Hd, Hp, Hdb.
      split; [done|]. split; [by apply Hfits|]. split; [|split; [done|]].
      * intros Hex%Exists_insert_inv; [by apply Hempty | by intros [|]].
      * by exists k, ms.
  - destruct (dequeue_count_spec n m w Hty) as (w' & -> & Hi' & Hde' & Hty').
    assert (omap prize (<[i:=Ended (Returns (Some m))]> cs) = omap prize cs)
      as Hp by (by eapply omap_insert_same).
    pose proof (omap_insert_new delivered cs i _ (Ended (Returns (Some m))) m Hi
                  eq_refl eq_refl) as Hd.
    apply Permutation_length in Hd. simpl in Hd.
    unfold race_invariant. simpl. rewrite Hp, Hd, Hi', Hde', Hdeq.
    split; [done|]. split; [|split; [|split]].
    + by apply Hfits.
    + intros Hex%Exists_insert_inv; [by apply Hempty | by intros [|]].
    + lia.
    + by exists k, ms.
  - rewrite list_insert_id by done.
    by unfold race_invariant; simpl; do 4 (split; [done|]); exists k, ms.
Qed.

Lemma race_invariant_kept n timeouts (L : list (wire E)) d0 schedule st :
  validateQueueName n = true → Forall (wellformed E) L →
  race_invariant E n timeouts L d0 st →
  race_invariant E n timeouts L d0 (race E n schedule st).
Proof.
  intros Hn HL. revert st. unfold race.
  induction schedule as [|i schedule IH]; intros st Hst; simpl; [done|].
  by apply IH, race_step_invariant.
Qed.

Lemma omap_calling {B} (f : consumer → option B) (timeouts : list jsnum) :
  (∀ tm, f (Calling tm) = None) → omap f (Calling <$> timeouts) = [].
Proof.
  intros Hf. unfold omap.
  induction timeouts as [|t ts IH]; simpl; [done|]. by rewrite Hf.
Qed.

Lemma race_invariant_start n (timeouts : list jsnum) w :
  typed w n →
  race_invariant E n timeouts (items w n) (totalDequeued w n)
    (Calling <$> timeouts, w).
Proof.
  intros Hty. unfold race_invariant. simpl.
  rewrite !omap_calling by done. simpl.
  split; [done|]. split; [|split; [|split; [lia|]]].
  - apply Forall2_fmap_r, Forall_Forall2_diag, Forall_forall. by intros tm _.
  - intros Hex. apply Exists_exists in Hex as (c & Hc & Hto).
    apply list_elem_of_fmap in Hc as (t & -> & _). by destruct Hto.
  - exists 0%nat, []. rewrite Nat.sub_0_r, take_ge, drop_ge by lia.
    split; [lia|]. split; [done|]. split; [apply Forall2_nil_2 | done].
Qed.

Lemma race_step_length n i st : length (race_step E n i st).1 = length st.1.
Proof.
  unfold race_step. destruct (st.1 !! i); [|done].
  destruct (consumer_step E n _ _). simpl. by rewrite length_insert.
Qed.

Lemma race_length n schedule st : length (race E n schedule st).1 = length st.1.
Proof.
  revert st. unfold race. induction schedule as [|i schedule IH]; intros st; [done|].
  simpl. by rewrite IH, race_step_length.
Qed.

Lemma consumer_step_progress n c w :
  progress (consumer_step E n c w).1 = 2%nat
  ∨ (S (progress c) ≤ progress (consumer_step E n c w).1)%nat.
Proof.
  destruct c as [tm|m|o]; simpl.
  - destruct (dequeue_pop E n tm w) as [[[m|]|e|] w']; simpl; auto.
  - destruct (dequeue_count E n m w). simpl. auto.
  - auto.
Qed.

(** Each time the scheduler picks a consumer it comes one command further,
    until it has ended; the other consumers stay where they are. *)
Lemma race_progress n schedule : ∀ st i c,
  st.1 !! i = Some c →
  ∃ c', (race E n schedule st).1 !! i = Some c'
        ∧ (progress c' = 2%nat
           ∨ (progress c + count_occ Nat.eq_dec schedule i ≤ progress c')%nat).
Proof.
  unfold race. induction schedule as [|j schedule IH]; intros st i c Hi;
    cbn [foldl count_occ].
  - exists c. split; [done | right; lia].
  - destruct (Nat.eq_dec j i) as [->|Hne].
    + assert (∃ c1, (race_step E n i st).1 !! i = Some c1
                    ∧ (progress c1 = 2%nat ∨ (S (progress c) ≤ progress c1)%nat))
        as (c1 & Hc1 & Hp1).
      { unfold race_step. rewrite Hi.
        pose proof (consumer_step_progress n c st.2) as Hp.
        destruct (consumer_step E n c st.2) as [c1 w1]. simpl in *.
        exists c1. split; [|done].
        apply list_lookup_insert_eq. by eapply lookup_lt_Some. }
      destruct (IH _ i c1 Hc1) as (c' & Hc' & Hp').
      exists c'. split; [done|].
      destruct c' as [| |]; simpl in *; [right; lia | right; lia | by left].
    + assert ((race_step E n j st).1 !! i = Some c) as Hc1.
      { unfold race_step. destruct (st.1 !! j); [|done].
        destruct (consumer_step E n _ _). simpl.
        by rewrite list_lookup_insert_ne. }
      destruct (IH _ i c Hc1) as (c' & Hc' & Hp').
      by exists c'.
Qed.

Lemma race_all_ended n schedule st :
  (∀ i, (i < length st.1)%nat → (2 ≤ count_occ Nat.eq_dec schedule i)%nat) →
  Forall ended (race E n schedule st).1.
Proof.
  intros Hfair. apply Forall_lookup. intros i c' Hi'.
  assert (i < length st.1)%nat as Hlt.
  { rewrite <- (race_length n schedule). by eapply lookup_lt_Some. }
  destruct (lookup_lt_is_Some_2 _ _ Hlt) as [c Hc].
  destruct (race_progress n schedule st i c Hc) as (c'' & Hc'' & Hp).
  rewrite Hi' in Hc''. injection Hc'' as <-.
  specialize (Hfair i Hlt).
  destruct c', c; simpl in *; try done; lia.
Qed.

Lemma ended_delivered_prize cs :
  Forall ended cs → omap delivered cs = omap prize cs.
Proof.
  unfold omap. induction 1 as [|c cs Hc _ IH]; simpl; [done|].
  destruct c as [| |[[m|]| |]]; simpl in *; try done; by rewrite IH.
Qed.

(** Among consumers that have all ended, those that returned a message are
    at most those whose timeout is accepted, and are all of them when nobody
    found the list empty. *)
Lemma winners_among_accepted (timeouts : list jsnum) cs :
  Forall2 consumer_fits timeouts cs → Forall ended cs →
  (length (omap delivered cs) ≤ length (filter (λ tm, accepted tm = true) timeouts))%nat
  ∧ (Exists empty_handed cs
     ∨ length (omap delivered cs)
       = length (filter (λ tm, accepted tm = true) timeouts)).
Proof.
  unfold omap.
  induction 1 as [|tm c timeouts cs Hc _ IH]; intros Hended; [by split; [|right]|].
  apply Forall_cons in Hended as [He Hended].
  destruct (IH Hended) as [Hle Heq].
  rewrite filter_cons.
  destruct c as [| |[[m|]|e|]]; simpl in *; try done.
  - rewrite decide_True by done. simpl. split; [lia|].
    destruct Heq as [Hex| ->]; [left; by apply Exists_cons_tl | by right].
  - destruct Hc as [Hc _]. rewrite decide_True by done. simpl. split; [lia|].
    left. apply Exists_cons_hd. by left.
  - rewrite decide_False by congruence. split; [done|].
    destruct Heq as [Hex|Heq]; [left; by apply Exists_cons_tl | by right].
  - destruct Hc as [Hc _]. rewrite decide_True by done. simpl. split; [lia|].
    left. apply Exists_cons_hd. by right.
Qed.

(** Where a race stands after any schedule, and where it ends. *)
Lemma race_outcome n (timeouts : list jsnum) schedule w :
  validateQueueName n = true → typed w n →
  Forall (wellformed E) (items w n) →
  let L := items w n in
  let st := race E n schedule (Calling <$> timeouts, w) in
  Forall2 consumer_fits timeouts st.1
  ∧ (∃ (k : nat) (ms : list json),
       (k ≤ length L)%nat
       ∧ items st.2 n = take (length L - k) L
       ∧ Forall2 (stamp_of E) (reverse (drop (length L - k) L)) ms
       ∧ ms ≡ₚ omap prize st.1)
  ∧ (Exists empty_handed st.1 → items st.2 n = [])
  ∧ (Forall ended st.1 →
       omap delivered st.1 = omap prize st.1
       ∧ length (omap delivered st.1)
         = Nat.min (length (filter (λ tm, accepted tm = true) timeouts)) (length L)
       ∧ totalDequeued st.2 n
         = (totalDequeued w n
            + Z.of_nat (Nat.min (length (filter (λ tm, accepted tm = true) timeouts))
                          (length L)))%Z)
  ∧ ((∀ i, (i < length timeouts)%nat →
          (2 ≤ count_occ Nat.eq_dec schedule i)%nat) →
     Forall ended st.1).
Proof.
  intros Hn Hty HL L st.
  pose proof (race_invariant_kept n timeouts L (totalDequeued w n) schedule _ Hn HL
                (race_invariant_start n timeouts w Hty))
    as (Hty' & Hfit & Hempty & Hdeq & k & ms & Hk & Hitems & Hms & Hperm).
  fold st in Hty', Hfit, Hempty, Hdeq, Hitems, Hperm.
  split; [done|]. split; [by exists k, ms|]. split; [done|]. split.
  - intros Hended.
    pose proof (ended_delivered_prize _ Hended) as Hdp.
    destruct (winners_among_accepted timeouts st.1 Hfit Hended) as [Hle Heq].
    assert (length (omap delivered st.1) = k) as Hwin.
    { rewrite Hdp, <- Hperm, <- (Forall2_length _ _ _ Hms), length_reverse,
        length_drop. lia. }
    assert (k = Nat.min (length (filter (λ tm, accepted tm = true) timeouts))
                  (length L)) as Hmin.
    { destruct Heq as [Hex|Heq]; [|lia].
      specialize (Hempty Hex). rewrite Hitems in Hempty.
      apply take_nil_inv in Hempty as [Hz|Hz].
      - lia.
      - rewrite Hz in *. simpl in *. lia. }
    split; [done|]. split; [lia|].
    rewrite Hdeq, Hwin, Hmin. done.
  - intros Hfair. apply race_all_ended. simpl. by rewrite length_fmap.
Qed.

(** Two consumers with accepted timeouts, one message: when both calls have
    ended, one of them has returned the message and the other has found
    nothing. *)
Lemma race_of_two n (t1 t2 : Z) (x : wire E) schedule w :
  validateQueueName n = true → typed w n →
  items w n = [x] → wellformed E x →
  (0 ≤ t1 ≤ 60000)%Z → (0 ≤ t2 ≤ 60000)%Z →
  let st := race E n schedule ([Calling (Num t1); Calling (Num t2)], w) in
  Forall ended st.1 →
  ∃ m, stamp_of E x m
       ∧ (st.1 = [Ended (Returns (Some m)); ends_empty_handed (Num t2)]
          ∨ st.1 = [ends_empty_handed (Num t1); Ended (Returns (Some m))]).
Proof.
  intros Hn Hty Hitems Hx Ht1 Ht2 st Hended.
  destruct (race_outcome n [Num t1; Num t2] schedule w Hn Hty)
    as (Hfit & (k & ms & Hk & _ & Hms & Hperm) & _ & Hend & _);
    [rewrite Hitems; by apply Forall_singleton|].
  change (Calling <$> [Num t1; Num t2])
    with [Calling (Num t1); Calling (Num t2)] in Hfit, Hperm, Hend.
  fold st in Hfit, Hperm, Hend. rewrite Hitems in *. simpl in Hk.
  destruct (Hend Hended) as (Hdp & Hwin & _).
  assert (accepted (Num t1) = true) as Ha1
    by (apply andb_true_iff; split; apply Z.leb_le; lia).
  assert (accepted (Num t2) = true) as Ha2
    by (apply andb_true_iff; split; apply Z.leb_le; lia).
  rewrite !filter_cons, !decide_True in Hwin by done. simpl in Hwin.
  rewrite <- Hdp in Hperm.
  assert (k = 1%nat) as ->.
  { apply Forall2_length in Hms. apply Permutation_length in Hperm.
    rewrite length_reverse, length_drop in Hms. simpl in Hms. lia. }
  simpl in Hms. apply Forall2_cons_inv_l in Hms as (m & ms' & Hm & Hnil & ->).
  apply Forall2_nil_inv_l in Hnil as ->.
  exists m. split; [done|].
  apply Forall2_cons_inv_l in Hfit as (c1 & cs & H1 & Hfit & Hst).
  apply Forall2_cons_inv_l in Hfit as (c2 & cs' & H2 & Hfit & ->).
  apply Forall2_nil_inv_l in Hfit as ->.
  rewrite Hst in *. clear Hst.
  apply Forall_cons in Hended as [He1 Hended].
  apply Forall_cons in Hended as [He2 _].
  unfold omap, ends_empty_handed in *.
  destruct c1 as [| |[[m1|]|e1|]], c2 as [| |[[m2|]|e2|]];
    simpl in *; try done; try congruence; try lia.
  all: apply Permutation_singleton_l in Hperm; injection Hperm as <-.
  - left. destruct H2 as [_ ->]. done.
  - left. destruct H2 as [_ ->]. done.
  - right. destruct H1 as [_ ->]. done.
  - right. destruct H1 as [_ ->]. done.
Qed.
End Racing.


Lemma demo_one_message_typed : typed Demo.one_message "orders".
Proof. vm_compute. repeat split; discriminate. Defined.

Lemma demo_one_message_items :
  items Demo.one_message "orders" = [envelope "msg_0" (JStr "A") "0"].
Proof. vm_compute. reflexivity. Defined.


(** * Further properties *)

(** ** One queue's calls and another queue's keys *)

#[local] Instance kept_at_reflexive {W} q : Reflexive (@kept_at W q).
Proof. by intros d kd. Qed.

#[local] Instance kept_at_transitive {W} q : Transitive (@kept_at W q).
Proof. intros d1 d2 d3 H12 H23 kd. by rewrite H23, H12. Qed.

Section Isolation.
Context (E : runtime).

Lemma kept_at_elsewhere q (c : cmd (wire E)) :
  (∀ kd, key_of kd q ≠ cmd_key c) → ∀ d, kept_at q d (exec c d).2.
Proof. intros Hc d kd. apply exec_elsewhere, Hc. Qed.

Ltac apart n q Hn Hq Hne :=
  first
    [ intros ?; rewrite exec_reads by done; reflexivity
    | apply kept_at_elsewhere;
      let H := fresh in
      intros ? H; simpl in H;
      rewrite ?queueKey_of in H;
      change (metadataKey n) with (key_of KMeta n) in H;
      change (enqueuedKey n) with (key_of KEnq n) in H;
      change (dequeuedKey n) with (key_of KDeq n) in H;
      apply key_of_inj in H; [destruct H; congruence | exact Hq | exact Hn] ].

Lemma bulk_envelopes_kept_at q ps :
  preserves E (kept_at q) (bulk_envelopes E ps).
Proof. induction ps as [|p ps IH]; simpl; compose idtac. exact IH. Qed.

Lemma perform_kept_at (c : call) q :
  validateQueueName (call_queue c) = true → validateQueueName q = true →
  call_queue c ≠ q → preserves E (kept_at q) (perform E c).
Proof.
  destruct c as [n dto|n t|n k|n dto|n|n|n|n|n|n msg|n t]; simpl;
    intros Hn Hq Hne;
    unfold enqueueMessage, dequeueMessage, peekMessages, bulkEnqueue,
      purgeQueue, createQueue, getQueueInfo, deleteQueue, getQueueMetrics,
      api_enqueue, api_dequeue, message_age;
    rewrite Hn; simpl (negb _); cbv beta iota.
  all: try (compose ltac:(apart n q Hn Hq Hne); fail).
  unfold discard.
  apply preserves_bind; [apply _ | | intros ?; apply preserves_ret; apply _].
  apply preserves_bind; [apply _ | apply bulk_envelopes_kept_at | intros built].
  apply preserves_bind; [apply _ | | intros ?; compose idtac].
  apply preserves_pipeline_exec; [apply _ | apply _ |].
  intros c d [Hin|Hin]%elem_of_app.
  - apply list_elem_of_fmap in Hin as (v & -> & _). revert d.
    apart n q Hn Hq Hne.
  - apply list_elem_of_singleton in Hin as ->. revert d.
    apart n q Hn Hq Hne.
Qed.
End Isolation.

(** X1 (isolation of queues).  Whatever a call on one queue does, and however
    it ends, on any store, failing or not, the four keys of every other
    well-named queue hold after the call what they held before it: its
    messages, its metadata and its two counters. *)
Theorem queues_are_isolated (E : runtime) (c : call) (q : string) (kd : kind)
    (w : world (wire E)) :
  validateQueueName q = true → call_queue c ≠ q →
  db (perform E c w).2 !! key_of kd q = db w !! key_of kd q.
Proof.
  intros Hq Hne.
  destruct (validateQueueName (call_queue c)) eqn:Hn;
    [|by rewrite perform_invalid].
  exact (perform_kept_at E c q Hn Hq Hne w kd).
Qed.

Lemma queues_are_isolated_witness :
  db (perform Demo.rt (CallPurge "jobs") Demo.one_message).2 !! key_of KList "orders"
  = db Demo.one_message !! key_of KList "orders".
Proof.
  apply (queues_are_isolated Demo.rt (CallPurge "jobs") "orders" KList
           Demo.one_message); [reflexivity | discriminate].
Defined.

(** ** The metadata record *)

#[local] Instance metadata_kept_reflexive {W} q : Reflexive (@metadata_kept W q).
Proof. by intros d v. Qed.

#[local] Instance metadata_kept_transitive {W} q : Transitive (@metadata_kept W q).
Proof. intros d1 d2 d3 H12 H23 v Hv. by apply H23, H12. Qed.

Section Metadata.
Context (E : runtime).
Implicit Types (w : world (wire E)).

(** EXISTS answers for the keyspace it is sent to, or the store rejects it;
    what follows runs on that same keyspace. *)
Lemma preserves_exists_then {B} (P : relation (gmap string (rval (wire E))))
    `{!Reflexive P} k (f : bool → M E B) :
  (∀ w, is_Some (db w !! k) → P (db w) (db (f true w).2)) →
  (∀ w, db w !! k = None → P (db w) (db (f false w).2)) →
  preserves E P (bind E (redis_exists E k) f).
Proof.
  intros Hyes Hno w. unfold redis_exists, bind, send, answer.
  destruct (faults E _); simpl; [reflexivity|].
  destruct (db w !! k) as [v|] eqn:Hk; simpl.
  - apply (Hyes (sent_world E (db w) (EXISTS k) w)). simpl. by rewrite Hk.
  - apply (Hno (sent_world E (db w) (EXISTS k) w)). simpl. by rewrite Hk.
Qed.

Lemma metadata_kept_elsewhere q (c : cmd (wire E)) :
  key_of KMeta q ≠ cmd_key c → ∀ d, metadata_kept q d (exec c d).2.
Proof. intros Hc d v Hv. by rewrite exec_elsewhere. Qed.

Ltac beside n :=
  first
    [ intros ?; rewrite exec_reads by done; reflexivity
    | apply metadata_kept_elsewhere;
      let H := fresh in
      intros H; simpl in H;
      rewrite ?queueKey_of in H;
      change (enqueuedKey n) with (key_of KEnq n) in H;
      change (dequeuedKey n) with (key_of KDeq n) in H;
      apply key_of_same_name in H; discriminate H ].

Lemma bulk_envelopes_metadata_kept q ps :
  preserves E (metadata_kept q) (bulk_envelopes E ps).
Proof. induction ps as [|p ps IH]; simpl; compose idtac. exact IH. Qed.

Lemma perform_metadata_kept (c : call) :
  is_delete c = false →
  preserves E (metadata_kept (call_queue c)) (perform E c).
Proof.
  destruct c as [n dto|n t|n k|n dto|n|n|n|n|n|n msg|n t]; intros Hc;
    try done; simpl;
    unfold enqueueMessage, dequeueMessage, peekMessages, bulkEnqueue,
      purgeQueue, createQueue, getQueueInfo, getQueueMetrics, api_enqueue,
      api_dequeue, message_age;
    destruct (validateQueueName n) eqn:Hn; simpl (negb _); cbv beta iota.
  all: try (compose ltac:(beside n); fail).
  - (* enqueueMessage *)
    unfold discard.
    apply preserves_bind; [apply _ | | intros ?; apply preserves_ret; apply _].
    apply preserves_bind; [apply _ | apply preserves_generateMessageId; apply _ | intros id].
    apply preserves_bind; [apply _ | apply preserves_now; apply _ | intros t].
    apply preserves_exists_then; [apply _ | |].
    + intros w _. revert w.
      change (preserves E (metadata_kept n)
        (bind E (ret E tt) (λ _,
           bind E (redis_lpush E (queueKey n)
                     (JSON_stringify E (envelope id (message dto) (toISOString E t))))
             (λ _, bind E (redis_incr E (enqueuedKey n)) (λ _,
                ret E {| enq_success := true; enq_queue := n;
                         enq_messageId := id;
                         enq_timestamp := toISOString E t |}))))).
      compose ltac:(beside n).
    + intros w Hnone v Hv. simpl in Hv. rewrite metadataKey_of in Hnone.
      congruence.
  - (* bulkEnqueue *)
    unfold discard.
    apply preserves_bind; [apply _ | | intros ?; apply preserves_ret; apply _].
    apply preserves_bind; [apply _ | apply bulk_envelopes_metadata_kept | intros built].
    apply preserves_bind; [apply _ | | intros ?; compose idtac].
    apply preserves_pipeline_exec; [apply _ | apply _ |].
    intros c d [Hin|Hin]%elem_of_app.
    + apply list_elem_of_fmap in Hin as (v & -> & _). revert d. beside n.
    + apply list_elem_of_singleton in Hin as ->. revert d. beside n.
  - (* createQueue *)
    unfold discard.
    apply preserves_bind; [apply _ | | intros ?; apply preserves_ret; apply _].
    apply preserves_exists_then; [apply _ | |].
    + intros w _. reflexivity.
    + intros w Hnone v Hv. rewrite metadataKey_of in Hnone. congruence.
Qed.
End Metadata.

(** X2 (the metadata record is written once).  Once a well-named queue has a
    metadata record, no call other than the deletion of that queue changes it,
    on any store and however the call ends: [enqueueMessage] writes the record
    only when EXISTS has answered that there is none, [createQueue] refuses,
    and no other call writes the key.  So [createdAt] is the time of the first
    creation or enqueue since the last deletion. *)
Theorem metadata_is_written_once (E : runtime) (c : call) (q : string)
    (v : rval (wire E)) (w : world (wire E)) :
  validateQueueName q = true →
  (is_delete c = true → call_queue c ≠ q) →
  db w !! metadataKey q = Some v →
  db (perform E c w).2 !! metadataKey q = Some v.
Proof.
  intros Hq Hdel Hv. rewrite metadataKey_of in *.
  destruct (validateQueueName (call_queue c)) eqn:Hn;
    [|by rewrite perform_invalid].
  destruct (decide (call_queue c = q)) as [<-|Hne].
  - apply (perform_metadata_kept E c); [|done].
    destruct (is_delete c); [by destruct Hdel | done].
  - by rewrite (perform_kept_at E c q Hn Hq Hne w KMeta).
Qed.

Lemma metadata_is_written_once_witness :
  db (perform Demo.rt (CallEnqueue "orders" (Demo.dto (JStr "B")))
        Demo.one_message).2 !! metadataKey "orders"
  = Some (RStr (metadata_record "1000" "orders")).
Proof.
  apply (metadata_is_written_once Demo.rt
           (CallEnqueue "orders" (Demo.dto (JStr "B"))) "orders"
           (RStr (metadata_record "1000" "orders")) Demo.one_message);
    [reflexivity | discriminate | reflexivity].
Defined.

(** ** Calls that only ask *)

(** X3 (reads change nothing).  [peekMessages], [getQueueInfo] and
    [getQueueMetrics] leave the keyspace exactly as they found it, for every
    queue name, every count, every state of the store, and whether the store
    answers or fails: each command they send is a read. *)
Theorem reads_change_nothing (E : runtime) (c : call) (w : world (wire E)) :
  is_read c = true → db (perform E c w).2 = db w.
Proof.
  intros Hc. symmetry. revert w.
  change (preserves E eq (perform E c)).
  destruct c as [n dto|n t|n k|n dto|n|n|n|n|n|n msg|n t]; try done; simpl;
    unfold peekMessages, getQueueInfo, getQueueMetrics, message_age;
    destruct (validateQueueName n); simpl (negb _); cbv beta iota.
  all: compose ltac:(apply reads_keep; done).
Qed.

Lemma reads_change_nothing_witness :
  db (perform Demo.rt (CallPeek "orders" (Num 0)) Demo.one_message).2
  = db Demo.one_message.
Proof.
  apply (reads_change_nothing Demo.rt (CallPeek "orders" (Num 0)) Demo.one_message).
  reflexivity.
Defined.

(** ** Dequeue of what cannot be stamped *)

Section Lost.
Context (E : runtime) (Hup : store_up E).
Implicit Types (w : world (wire E)) (n : string).

Lemma dequeueMessage_unstamped n t w l x :
  validateQueueName n = true → typed w n → (0 ≤ t ≤ 60000)%Z →
  items w n = l ++ [x] →
  (∀ v, JSON_parse E x = Some v → stampable v = false) →
  ∃ w',
    dequeueMessage E n (Num t) w
    = (Throws (match JSON_parse E x with Some _ => TypeError | None => SyntaxError end),
       w')
    ∧ items w' n = l
    ∧ totalEnqueued w' n = totalEnqueued w n
    ∧ totalDequeued w' n = totalDequeued w n.
Proof.
  intros Hn (Hl & He & Hd) [Hgt Hsec]%accepted_timeout Hitems Hbad.
  unfold dequeueMessage. rewrite Hn. service_keys n.
  simpl (negb _). rewrite Hgt. cbv beta iota.
  unfold bind at 1. unfold Math_floor_div.
  rewrite (redis_brpop_some E Hup _ _ l x) by done. cbv beta iota.
  destruct (JSON_parse E x) as [v|] eqn:Hparse.
  - specialize (Hbad v eq_refl). unfold bind, now. simpl.
    assert (assign_prop "dequeuedAt" (JStr (toISOString E (clock E (reads w)))) v
            = None) as -> by (by destruct v).
    unfold throw. eexists; split; [reflexivity|].
    views. repeat split; try done. all: by destruct l.
  - unfold throw. eexists; split; [reflexivity|].
    views. repeat split; try done. all: by destruct l.
Qed.
End Lost.

(** X4 (a message that cannot be stamped is lost).  On a store that answers,
    when the oldest text of a queue does not parse, or parses to [null], a
    boolean, a number or a string, which is what a post of such a value
    through the API service leaves on the list, [dequeueMessage] with an
    accepted timeout throws (a SyntaxError, or the TypeError of setting
    [dequeuedAt] on a value that takes no property) after BRPOP has removed
    the text: the message is gone from the list, no caller has received it,
    and the dequeued counter has not moved. *)
Theorem unstampable_message_is_lost (E : runtime) (queueName : string) (t : Z)
    (w : world (wire E)) (l : list (wire E)) (x : wire E) :
  store_up E →
  validateQueueName queueName = true → typed w queueName → (0 ≤ t ≤ 60000)%Z →
  items w queueName = l ++ [x] →
  (∀ v, JSON_parse E x = Some v → stampable v = false) →
  ∃ e w',
    dequeueMessage E queueName (Num t) w = (Throws e, w')
    ∧ (e = SyntaxError ∨ e = TypeError)
    ∧ items w' queueName = l
    ∧ totalEnqueued w' queueName = totalEnqueued w queueName
    ∧ totalDequeued w' queueName = totalDequeued w queueName.
Proof.
  intros Hup Hn Hty Ht Hitems Hbad.
  destruct (dequeueMessage_unstamped E Hup queueName t w l x Hn Hty Ht Hitems Hbad)
    as (w' & Hrun & Hrest).
  eexists _, w'. split; [exact Hrun|]. split; [|exact Hrest].
  destruct (JSON_parse E x); [by right | by left].
Qed.

Lemma unstampable_message_is_lost_witness :
  ∃ e w',
    dequeueMessage Demo.rt "orders" (Num 1000)
      (api_enqueue Demo.rt "orders" (JStr "hello") Demo.fresh).2
    = (Throws e, w')
    ∧ (e = SyntaxError ∨ e = TypeError)
    ∧ items w' "orders" = []
    ∧ totalEnqueued w' "orders"
      = totalEnqueued (api_enqueue Demo.rt "orders" (JStr "hello") Demo.fresh).2
          "orders"
    ∧ totalDequeued w' "orders"
      = totalDequeued (api_enqueue Demo.rt "orders" (JStr "hello") Demo.fresh).2
          "orders".
Proof.
  apply (unstampable_message_is_lost Demo.rt "orders" 1000
           (api_enqueue Demo.rt "orders" (JStr "hello") Demo.fresh).2 []
           (JStr "hello"));
    [ exact demo_store_up | reflexivity | | lia | reflexivity | ].
  - repeat split; vm_compute; done.
  - intros v [= <-]. reflexivity.
Defined.

(** ** The controllers' [catch] *)

Section Catch.
Context (E : runtime).
Implicit Types (w : world (wire E)).

Lemma only_bad_request_returns {A} (m : M E A) w a w' :
  m w = (Returns a, w') → only_bad_request E m w = (Returns a, w').
Proof. unfold only_bad_request, try_catch. by intros ->. Qed.

Lemma only_bad_request_blocks {A} (m : M E A) w w' :
  m w = (Blocks, w') → only_bad_request E m w = (Blocks, w').
Proof. unfold only_bad_request, try_catch. by intros ->. Qed.

Lemma only_bad_request_bad {A} (m : M E A) w msg w' :
  m w = (Throws (BadRequestException msg), w') →
  only_bad_request E m w = (Throws (BadRequestException msg), w').
Proof. unfold only_bad_request, try_catch. by intros ->. Qed.

Lemma only_bad_request_other {A} (m : M E A) w e w' :
  m w = (Throws e, w') → (∀ msg, e ≠ BadRequestException msg) →
  only_bad_request E m w = (Throws internal_server_error, w').
Proof.
  unfold only_bad_request, try_catch. intros -> He.
  destruct e; try done. by destruct (He msg).
Qed.

(** BRPOP with a timeout that is no number or is negative: the store's error,
    or the failure of the store, and the keyspace untouched. *)
Lemma redis_brpop_unusable k (s : jsnum) w :
  match s with Num s => (s < 0)%Z | _ => True end →
  ∃ msg, redis_brpop E k s w
         = (Throws (ReplyError msg), sent_world E (db w) (BRPOP k s) w).
Proof.
  intros Hs. unfold redis_brpop, bind, send, answer.
  destruct (faults E _); [by eexists|]. simpl.
  destruct s as [s| |]; [|by eexists..].
  destruct (Z.ltb_spec s 0); [by eexists | lia].
Qed.

Lemma unusable_seconds (tm : jsnum) :
  unusable tm →
  js_gt tm 60000 = false
  ∧ match Math_floor_div tm 1000 with Num s => (s < 0)%Z | _ => True end.
Proof.
  destruct tm as [t| |[|]]; [|done..]. intros Ht. simpl in Ht. split.
  - unfold js_gt. destruct (Z.ltb_spec 60000 t); [lia | done].
  - simpl. apply Z.div_lt_upper_bound; lia.
Qed.
End Catch.



(** ** The API controller *)

(** X6 (round trip and "no content" at the API controller).  On a store that
    answers, with a JSON codec that round-trips, for a well-named queue that is
    empty and a [timeout] parameter that parses to an accepted number: a POST
    of a JSON value followed by a GET takes the value off the list again and
    counts it as dequeued; the GET answers 200 with that same value as the
    body, unless the value is [null], which the controller takes for "no
    message" and answers 204 without a body.  A GET alone, with a timeout of a
    second or more, answers 204 without a body and changes nothing. *)
Theorem api_controller_round_trip (E : runtime) (queueName : string)
    (msg : json) (timeout : option string) (t : Z) (w : world (wire E)) :
  store_up E → codec_ok E →
  validateQueueName queueName = true →
  typed w queueName → items w queueName = [] →
  parseInt (or_default timeout "10000") = Num t → (0 ≤ t ≤ 60000)%Z →
  (∃ w', api_post_then_get E queueName msg timeout w
         = (Returns match msg with JNull => NoContent | _ => OkJson msg end, w')
         ∧ items w' queueName = []
         ∧ totalDequeued w' queueName = (totalDequeued w queueName + 1)%Z)
  ∧ ((1000 ≤ t)%Z →
     ∃ w', ApiController_dequeue E queueName timeout w = (Returns NoContent, w')
           ∧ db w' = db w).
Proof.
  intros Hup Hcodec Hn Hty Hempty Hparse Ht. split.
  - unfold api_post_then_get, ApiController_enqueue, ApiController_dequeue.
    rewrite Hparse.
    destruct (api_enqueue_spec E Hup queueName msg w Hn Hty)
      as (w1 & Hrun1 & Hi1 & _ & Hd1 & _ & Hty1 & _).
    rewrite Hempty in Hi1.
    destruct (api_dequeue_some E Hup queueName t w1 [] _ msg Hn Hty1 Ht Hi1
                (Hcodec _)) as (w2 & Hrun2 & Hi2 & _ & Hd2 & _).
    exists w2. split; [|split; [exact Hi2 | by rewrite Hd2, Hd1]].
    unfold bind at 1.
    rewrite (only_bad_request_returns E _ _ _ _ Hrun1).
    apply only_bad_request_returns. unfold bind. rewrite Hrun2.
    by destruct msg.
  - intros Hsec. unfold ApiController_dequeue. rewrite Hparse.
    eexists. split.
    + apply only_bad_request_returns. unfold bind.
      rewrite api_dequeue_empty by done.
      destruct (Z.eqb_spec (t / 1000) 0) as [Hz|_]; [|reflexivity].
      exfalso. assert (1 ≤ t / 1000)%Z by (apply Z.div_le_lower_bound; lia). lia.
    + reflexivity.
Qed.

Lemma api_controller_round_trip_witness :
  (∃ w', api_post_then_get Demo.rt "orders" (JObj [("text", JStr "Hello")])
           (Some "2000") Demo.fresh
         = (Returns (OkJson (JObj [("text", JStr "Hello")])), w')
         ∧ items w' "orders" = []
         ∧ totalDequeued w' "orders" = (totalDequeued Demo.fresh "orders" + 1)%Z)
  ∧ ((1000 ≤ 2000)%Z →
     ∃ w', ApiController_dequeue Demo.rt "orders" (Some "2000") Demo.fresh
           = (Returns NoContent, w')
           ∧ db w' = db Demo.fresh).
Proof.
  apply (api_controller_round_trip Demo.rt "orders" (JObj [("text", JStr "Hello")])
           (Some "2000") 2000 Demo.fresh);
    [ exact demo_store_up | exact demo_codec_ok | reflexivity
    | apply demo_fresh_typed | apply demo_fresh_items | reflexivity | lia ].
Defined.

(** ** Bulk enqueue, then dequeues *)

Section Drain.
Context (E : runtime) (Hup : store_up E) (Hcodec : codec_ok E).
Implicit Types (w : world (wire E)) (n : string).

Lemma bulk_built_envelopes ps d r :
  envelopes_of E (bulk_built E ps d r).*2 ps.
Proof.
  revert d r. induction ps as [|p ps IH]; intros d r; simpl; constructor.
  - by eexists _, _.
  - apply IH.
Qed.

Lemma drain_envelopes n (ps : list json) : ∀ (texts : list (wire E)) (ts : list Z) w,
  validateQueueName n = true → typed w n →
  envelopes_of E texts ps → items w n = reverse texts →
  length ts = length ps → Forall (λ t, 0 ≤ t ≤ 60000)%Z ts →
  ∃ rs w',
    drain E n (Num <$> ts) w = (Returns rs, w')
    ∧ payload_of <$> rs = Some <$> ps
    ∧ items w' n = []
    ∧ totalDequeued w' n = (totalDequeued w n + Z.of_nat (length ps))%Z
    ∧ totalEnqueued w' n = totalEnqueued w n.
Proof.
  induction ps as [|p ps IH]; intros texts ts w Hn Hty Henv Hitems Hlen Hts.
  - apply Forall2_nil_inv_r in Henv as ->. destruct ts; [|done].
    exists [], w. simpl. repeat split; try done. lia.
  - apply Forall2_cons_inv_r in Henv as (x & texts' & (id & stamp & ->) & Henv & ->).
    destruct ts as [|t ts]; [done|]. apply Forall_cons in Hts as [Ht Hts].
    rewrite reverse_cons in Hitems.
    destruct (dequeueMessage_envelope E Hup Hcodec n t w _ _ _ _ Hn Hty Ht Hitems)
      as (w1 & Hrun & Hi1 & He1 & Hd1 & Hty1 & _).
    destruct (IH texts' ts w1 Hn Hty1 Henv Hi1) as (rs & w2 & Hrest & Hp & Hi2 & Hd2 & He2);
      [by injection Hlen | done |].
    eexists (_ :: rs), w2. split.
    + rewrite fmap_cons. simpl. unfold bind at 1. rewrite Hrun.
      unfold bind. rewrite Hrest. reflexivity.
    + rewrite fmap_cons, Hp, Hi2, Hd2, He2, Hd1, He1. simpl.
      repeat split; try done. lia.
Qed.
End Drain.

(** X7 (bulk enqueue is FIFO).  On a store that answers, with a JSON codec
    that round-trips: after [bulkEnqueue] of any list of payloads on a
    well-named empty queue, as many [dequeueMessage] calls with accepted
    timeouts return the payloads one by one in the order of the input list,
    and leave the queue empty, with the dequeued counter moved by the number of
    payloads. *)
Theorem bulk_enqueue_is_fifo (E : runtime) (queueName : string)
    (dto : BulkEnqueueDto) (timeouts : list Z) (w : world (wire E)) :
  store_up E → codec_ok E →
  validateQueueName queueName = true →
  typed w queueName → items w queueName = [] →
  length timeouts = length (messages dto) →
  Forall (λ t, 0 ≤ t ≤ 60000)%Z timeouts →
  ∃ rs w',
    bulk_then_drain E queueName dto (Num <$> timeouts) w = (Returns rs, w')
    ∧ payload_of <$> rs = Some <$> messages dto
    ∧ items w' queueName = []
    ∧ totalDequeued w' queueName
      = (totalDequeued w queueName + Z.of_nat (length (messages dto)))%Z
    ∧ totalEnqueued w' queueName
      = (totalEnqueued w queueName + Z.of_nat (length (messages dto)))%Z.
Proof.
  intros Hup Hcodec Hn Hty Hempty Hlen Hts.
  destruct (bulkEnqueue_spec E Hup queueName dto w Hn Hty)
    as (w1 & Hrun & Hi1 & He1 & Hd1 & _ & Hty1 & _).
  rewrite Hempty, app_nil_r in Hi1.
  destruct (drain_envelopes E Hup Hcodec queueName (messages dto) _ timeouts w1
              Hn Hty1 (bulk_built_envelopes E _ _ _) Hi1 Hlen Hts)
    as (rs & w2 & Hrest & Hp & Hi2 & Hd2 & He2).
  exists rs, w2. split.
  - unfold bulk_then_drain, bind. by rewrite Hrun.
  - rewrite Hp, Hi2, Hd2, He2, Hd1, He1. done.
Qed.

Lemma bulk_enqueue_is_fifo_witness :
  ∃ rs w',
    bulk_then_drain Demo.rt "orders" {| messages := [JStr "A"; JStr "B"] |}
      (Num <$> [1000; 0]%Z) Demo.fresh = (Returns rs, w')
    ∧ payload_of <$> rs = Some <$> [JStr "A"; JStr "B"]
    ∧ items w' "orders" = []
    ∧ totalDequeued w' "orders" = (totalDequeued Demo.fresh "orders" + Z.of_nat 2)%Z
    ∧ totalEnqueued w' "orders" = (totalEnqueued Demo.fresh "orders" + Z.of_nat 2)%Z.
Proof.
  apply (bulk_enqueue_is_fifo Demo.rt "orders"
           {| messages := [JStr "A"; JStr "B"] |} [1000; 0]%Z Demo.fresh);
    [ exact demo_store_up | exact demo_codec_ok | reflexivity
    | apply demo_fresh_typed | apply demo_fresh_items | reflexivity | ].
  apply Forall_cons. split; [lia|]. apply Forall_singleton. lia.
Defined.

(** ** Creation and deletion *)

(** X8 (what [createQueue] tests).  On a store that answers, for a well-named
    queue: when the metadata key exists the call throws "Queue already exists"
    and changes nothing; when it does not, the call succeeds, whatever the
    list and the counters hold, stores the record of [createdAt] and [name]
    under the metadata key and touches no other key, and the timestamp it
    returns is the [createdAt] it stored.  So a queue that has messages but no
    metadata, as one fed through the API service has, can still be created. *)
Theorem create_tests_the_metadata_only (E : runtime) (queueName : string)
    (w : world (wire E)) :
  store_up E → validateQueueName queueName = true →
  (is_Some (db w !! metadataKey queueName) →
   ∃ w', createQueue E queueName w = (Throws queue_exists, w') ∧ db w' = db w)
  ∧ (db w !! metadataKey queueName = None →
     ∃ w' ts,
       createQueue E queueName w
       = (Returns {| create_success := true; create_queue := queueName;
                     create_timestamp := ts |}, w')
       ∧ db w'
         = <[metadataKey queueName
               := RStr (JSON_stringify E (metadata_record ts queueName))]> (db w)).
Proof.
  intros Hup Hn. rewrite metadataKey_of. split.
  - intros Hm. rewrite createQueue_existing by done. by eexists.
  - intros Hm. rewrite createQueue_new by done. by eexists _, _.
Qed.

Lemma create_tests_the_metadata_only_witness :
  (is_Some (db Demo.one_message !! metadataKey "orders") →
   ∃ w', createQueue Demo.rt "orders" Demo.one_message = (Throws queue_exists, w')
         ∧ db w' = db Demo.one_message)
  ∧ (db Demo.one_message !! metadataKey "orders" = None →
     ∃ w' ts,
       createQueue Demo.rt "orders" Demo.one_message
       = (Returns {| create_success := true; create_queue := "orders";
                     create_timestamp := ts |}, w')
       ∧ db w'
         = <[metadataKey "orders"
               := RStr (JSON_stringify Demo.rt (metadata_record ts "orders"))]>
             (db Demo.one_message)).
Proof.
  apply (create_tests_the_metadata_only Demo.rt "orders" Demo.one_message);
    [exact demo_store_up | reflexivity].
Defined.

(** X9 (what [deleteQueue] does).  On a store that answers, for a well-named
    queue whose keys hold values of their kinds: when the queue has messages
    or a metadata record, the call returns the number of messages it held and
    afterwards none of its four keys exists, while every other key is as it
    was; when it has neither, the call throws "Queue not found" and changes
    nothing, counters that may be left from earlier traffic included. *)
Theorem delete_removes_the_queue (E : runtime) (queueName : string)
    (w : world (wire E)) :
  store_up E → validateQueueName queueName = true → typed w queueName →
  (items w queueName ≠ [] ∨ has_metadata w queueName →
   ∃ w' ts,
     deleteQueue E queueName w
     = (Returns {| delete_success := true; delete_queue := queueName;
                   delete_deletedMessages := depth w queueName;
                   delete_timestamp := ts |}, w')
     ∧ (∀ kd, db w' !! key_of kd queueName = None)
     ∧ same_elsewhere queueName w w')
  ∧ (items w queueName = [] → ¬ has_metadata w queueName →
     ∃ w', deleteQueue E queueName w = (Throws queue_not_found, w')
           ∧ db w' = db w).
Proof.
  intros Hup Hn Hty. split.
  - intros Hex. by apply deleteQueue_present.
  - intros Hnil Hm. rewrite deleteQueue_missing; [by eexists | done..|].
    unfold has_metadata in Hm. by destruct (db w !! key_of KMeta queueName); [destruct Hm|].
Qed.

Lemma delete_removes_the_queue_witness :
  (items Demo.one_message "orders" ≠ [] ∨ has_metadata Demo.one_message "orders" →
   ∃ w' ts,
     deleteQueue Demo.rt "orders" Demo.one_message
     = (Returns {| delete_success := true; delete_queue := "orders";
                   delete_deletedMessages := depth Demo.one_message "orders";
                   delete_timestamp := ts |}, w')
     ∧ (∀ kd, db w' !! key_of kd "orders" = None)
     ∧ same_elsewhere "orders" Demo.one_message w')
  ∧ (items Demo.one_message "orders" = [] →
     ¬ has_metadata Demo.one_message "orders" →
     ∃ w', deleteQueue Demo.rt "orders" Demo.one_message
           = (Throws queue_not_found, w')
           ∧ db w' = db Demo.one_message).
Proof.
  apply (delete_removes_the_queue Demo.rt "orders" Demo.one_message);
    [exact demo_store_up | reflexivity | exact demo_one_message_typed].
Defined.

(** ** Calls on an empty queue *)

Section Empty.
Context (E : runtime) (Hup : store_up E).
Implicit Types (w : world (wire E)) (n : string).

Lemma peekable_index (c : Z) :
  reads_as_int64 (- (c `min` 100)) && reads_as_int64 (-1) = peekable (Num c).
Proof.
  unfold peekable. rewrite andb_true_r.
  destruct (Z.ltb_spec (- 2 ^ 63) c) as [Hc|Hc].
  - apply reads_as_int64_bounds. lia.
  - apply not_true_is_false. rewrite <- reads_as_int64_bounds. lia.
Qed.

Lemma peekMessages_empty n (count : jsnum) w :
  validateQueueName n = true → typed w n → items w n = [] →
  ∃ w',
    peekMessages E n count w
    = (if peekable count
       then Returns {| peek_queue := n; peek_messages := []; peek_count := 0;
                       peek_totalDepth := 0 |}
       else Throws not_an_integer, w')
    ∧ db w' = db w.
Proof.
  intros Hn (Hl & He & Hd) Hitems.
  unfold peekMessages. rewrite Hn. service_keys n.
  simpl (negb _). cbv beta iota. unfold bind at 1.
  assert (∀ a, reads_as_int64 a = true →
            ∃ w',
              bind E (redis_lrange E (key_of KList n) (Num a) (Num (-1)))
                (λ msgs,
                   bind E (redis_llen E (key_of KList n)) (λ depth,
                     bind E (parse_all E (reverse msgs)) (λ parsed,
                       ret E {| peek_queue := n; peek_messages := parsed;
                                peek_count := length msgs;
                                peek_totalDepth := depth |}))) w
              = (Returns {| peek_queue := n; peek_messages := [];
                            peek_count := 0; peek_totalDepth := 0 |}, w')
              ∧ db w' = db w) as Hread.
  { intros a Ha. unfold bind.
    rewrite redis_lrange_up by done. simpl.
    rewrite redis_llen_up by done. simpl.
    fold (items w n). rewrite Hitems, lrange_nil. simpl.
    by eexists. }
  destruct count as [c| |[|]]; simpl.
  - pose proof (peekable_index c) as Hc. unfold peekable in Hc.
    destruct (- 2 ^ 63 <? c)%Z.
    + apply andb_true_iff in Hc as [Hc _]. by apply Hread.
    + rewrite redis_lrange_refused by done. by eexists.
  - unfold redis_lrange, bind. rewrite send_up by done. by eexists.
  - unfold redis_lrange, bind. rewrite send_up by done. by eexists.
  - by apply Hread.
Qed.

Lemma purgeQueue_empty n w :
  validateQueueName n = true → typed w n → items w n = [] →
  ∃ w' ts,
    purgeQueue E n w
    = (Returns {| purge_success := true; purge_queue := n;
                  purge_purgedMessages := 0; purge_timestamp := ts |}, w')
    ∧ db w' = db w.
Proof.
  intros Hn (Hl & He & Hd) Hitems. unfold purgeQueue. rewrite Hn.
  service_keys n. simpl (negb _). cbv beta iota. unfold bind at 1.
  rewrite redis_llen_up by done. fold (items w n). rewrite Hitems.
  cbv beta iota. unfold bind at 1. rewrite redis_del_up by done. cbv beta iota.
  unfold bind, now, ret. simpl. eexists _, _; split; [reflexivity|].
  simpl. apply delete_id. by apply listy_empty.
Qed.

Lemma getQueueMetrics_empty n w :
  validateQueueName n = true → typed w n → items w n = [] →
  ∃ w' ts,
    getQueueMetrics E n w
    = (Returns {| metrics_queue := n; metrics_depth := 0;
                  metrics_enqueueRate := (0, 0, 0)%Z;
                  metrics_dequeueRate := (0, 0, 0)%Z;
                  metrics_averageWaitTime := 0;
                  metrics_oldestMessageAge := None;
                  metrics_timestamp := ts |}, w')
    ∧ db w' = db w.
Proof.
  intros Hn (Hl & He & Hd) Hitems. unfold getQueueMetrics. rewrite Hn.
  service_keys n. simpl (negb _). cbv beta iota. unfold bind at 1.
  rewrite redis_llen_up by done. fold (items w n). rewrite Hitems.
  cbv beta iota. simpl. unfold bind, now, ret. simpl.
  by eexists _, _.
Qed.
End Empty.

(** X10 (calls on an empty queue).  On a store that answers, for a well-named
    queue whose list is empty, whether the queue was ever created or not:
    peek returns no message and depth 0 for every count above [-2^63] and
    for [Infinity], and for a count that is no number or lies further down it
    throws the error of LRANGE, which cannot read the index made from it;
    purge reports success with 0 purged messages; metrics report depth 0 and
    no oldest message; a dequeue with an accepted timeout of a second or more
    returns no message; and info throws "Queue not found".  None of the five
    changes the keyspace, so none of them brings the queue into being. *)
Theorem calls_on_an_empty_queue (E : runtime) (queueName : string)
    (w : world (wire E)) :
  store_up E → validateQueueName queueName = true →
  typed w queueName → items w queueName = [] →
  (∀ count : jsnum, ∃ w',
     peekMessages E queueName count w
     = (if peekable count
        then Returns {| peek_queue := queueName; peek_messages := [];
                        peek_count := 0; peek_totalDepth := 0 |}
        else Throws not_an_integer, w')
     ∧ db w' = db w)
  ∧ (∃ w' ts,
       purgeQueue E queueName w
       = (Returns {| purge_success := true; purge_queue := queueName;
                     purge_purgedMessages := 0; purge_timestamp := ts |}, w')
       ∧ db w' = db w)
  ∧ (∃ w' ts,
       getQueueMetrics E queueName w
       = (Returns {| metrics_queue := queueName; metrics_depth := 0;
                     metrics_enqueueRate := (0, 0, 0)%Z;
                     metrics_dequeueRate := (0, 0, 0)%Z;
                     metrics_averageWaitTime := 0;
                     metrics_oldestMessageAge := None;
                     metrics_timestamp := ts |}, w')
       ∧ db w' = db w)
  ∧ (∀ t : Z, (1000 ≤ t ≤ 60000)%Z → ∃ w',
       dequeueMessage E queueName (Num t) w = (Returns None, w')
       ∧ db w' = db w)
  ∧ (∃ w', getQueueInfo E queueName w = (Throws queue_not_found, w')
           ∧ db w' = db w).
Proof.
  intros Hup Hn Hty Hitems. repeat split.
  - intros count. by apply peekMessages_empty.
  - by apply purgeQueue_empty.
  - by apply getQueueMetrics_empty.
  - intros t Ht. rewrite dequeueMessage_empty by (try done; lia).
    destruct (Z.eqb_spec (t / 1000) 0) as [Hz|_]; [|by eexists].
    exfalso. assert (1 ≤ t / 1000)%Z by (apply Z.div_le_lower_bound; lia). lia.
  - rewrite getQueueInfo_missing by done. by eexists.
Qed.

Lemma calls_on_an_empty_queue_witness :
  (∀ count : jsnum, ∃ w',
     peekMessages Demo.rt "jobs" count Demo.one_message
     = (if peekable count
        then Returns {| peek_queue := "jobs"; peek_messages := [];
                        peek_count := 0; peek_totalDepth := 0 |}
        else Throws not_an_integer, w')
     ∧ db w' = db Demo.one_message)
  ∧ (∃ w' ts,
       purgeQueue Demo.rt "jobs" Demo.one_message
       = (Returns {| purge_success := true; purge_queue := "jobs";
                     purge_purgedMessages := 0; purge_timestamp := ts |}, w')
       ∧ db w' = db Demo.one_message)
  ∧ (∃ w' ts,
       getQueueMetrics Demo.rt "jobs" Demo.one_message
       = (Returns {| metrics_queue := "jobs"; metrics_depth := 0;
                     metrics_enqueueRate := (0, 0, 0)%Z;
                     metrics_dequeueRate := (0, 0, 0)%Z;
                     metrics_averageWaitTime := 0;
                     metrics_oldestMessageAge := None;
                     metrics_timestamp := ts |}, w')
       ∧ db w' = db Demo.one_message)
  ∧ (∀ t : Z, (1000 ≤ t ≤ 60000)%Z → ∃ w',
       dequeueMessage Demo.rt "jobs" (Num t) Demo.one_message = (Returns None, w')
       ∧ db w' = db Demo.one_message)
  ∧ (∃ w', getQueueInfo Demo.rt "jobs" Demo.one_message
           = (Throws queue_not_found, w')
           ∧ db w' = db Demo.one_message).
Proof.
  apply (calls_on_an_empty_queue Demo.rt "jobs" Demo.one_message);
    [exact demo_store_up | reflexivity | | reflexivity].
  repeat split; vm_compute; done.
Defined.

(** ** Info on a queue with messages *)

Section Info.
Context (E : runtime) (Hup : store_up E) (Hcodec : codec_ok E).
Implicit Types (w : world (wire E)) (n : string).

Lemma message_age_envelope id p ts w :
  message_age E (Some (JSON_stringify E (envelope id p ts))) w
  = (Returns (Some (js_sub (Num (clock E (reads w)))
                      (Date_getTime E (Some (JStr ts))))),
     World (db w) (log w) (S (reads w)) (draws w)).
Proof. unfold message_age. rewrite Hcodec. reflexivity. Qed.

Lemma getQueueInfo_envelopes n w l ido po tso idn pn tsn :
  validateQueueName n = true → typed w n →
  items w n = l ++ [JSON_stringify E (envelope ido po tso)] →
  head (items w n) = Some (JSON_stringify E (envelope idn pn tsn)) →
  ∃ w',
    getQueueInfo E n w
    = (Returns {| info_name := n; info_depth := depth w n;
                  info_totalEnqueued := Num (totalEnqueued w n);
                  info_totalDequeued := Num (totalDequeued w n);
                  info_oldestMessageAge :=
                    Some (js_sub (Num (clock E (reads w)))
                            (Date_getTime E (Some (JStr tso))));
                  info_newestMessageAge :=
                    Some (js_sub (Num (clock E (S (reads w))))
                            (Date_getTime E (Some (JStr tsn)))) |}, w')
    ∧ db w' = db w.
Proof.
  intros Hn (Hl & He & Hd) Hlast Hhead. unfold getQueueInfo. rewrite Hn.
  service_keys n. simpl (negb _). cbv beta iota. unfold bind at 1.
  rewrite redis_llen_up by done. fold (items w n). fold (depth w n).
  assert (items w n ≠ []) as Hne by (rewrite Hlast; by destruct l).
  pose proof (nonempty_length _ Hne) as Hlen.
  assert (0 < depth w n)%Z as Hpos by (unfold depth; lia).
  destruct (Z.eqb_spec (depth w n) 0) as [|_]; [lia|].
  unfold bind at 1. unfold ret at 1. cbv beta iota.
  destruct (Z.ltb_spec 0 (depth w n)) as [_|]; [|lia].
  unfold bind at 1. unfold bind at 1.
  rewrite redis_lindex_up by done. simpl.
  unfold bind at 1. rewrite redis_lindex_up by done. simpl.
  fold (items w n).
  assert (lindex (items w n) (-1) = Some (JSON_stringify E (envelope ido po tso)))
    as -> by (rewrite Hlast; apply lindex_last).
  assert (lindex (items w n) 0 = Some (JSON_stringify E (envelope idn pn tsn)))
    as ->.
  { destruct (items w n) as [|x r]; [done|]. injection Hhead as ->.
    apply lindex_first. }
  unfold bind at 1. rewrite message_age_envelope. cbv beta iota.
  unfold bind at 1. rewrite message_age_envelope. cbv beta iota.
  unfold ret at 1. unfold bind at 1.
  rewrite redis_get_count_up by done. simpl.
  unfold bind at 1. rewrite redis_get_count_up by done. simpl.
  unfold ret. by eexists.
Qed.
End Info.

(** X11 (info on a queue with messages).  On a store that answers, with a JSON
    codec that round-trips, for a well-named queue whose list ends in the
    engine's own envelope and begins with one: [getQueueInfo] returns the
    length of the list as depth and the two counters as stored; the oldest
    message's age is the first reading of the clock less the time its
    [enqueuedAt] stands for, and the newest message's age is the next reading
    less the time of its own [enqueuedAt]; the keyspace is left as it was. *)
Theorem info_of_a_queue_with_messages (E : runtime) (queueName : string)
    (w : world (wire E)) (l : list (wire E))
    (oldestId : string) (oldestPayload : json) (oldestAt : string)
    (newestId : string) (newestPayload : json) (newestAt : string) :
  store_up E → codec_ok E →
  validateQueueName queueName = true → typed w queueName →
  items w queueName
  = l ++ [JSON_stringify E (envelope oldestId oldestPayload oldestAt)] →
  head (items w queueName)
  = Some (JSON_stringify E (envelope newestId newestPayload newestAt)) →
  ∃ w',
    getQueueInfo E queueName w
    = (Returns {| info_name := queueName; info_depth := depth w queueName;
                  info_totalEnqueued := Num (totalEnqueued w queueName);
                  info_totalDequeued := Num (totalDequeued w queueName);
                  info_oldestMessageAge :=
                    Some (js_sub (Num (clock E (reads w)))
                            (Date_getTime E (Some (JStr oldestAt))));
                  info_newestMessageAge :=
                    Some (js_sub (Num (clock E (S (reads w))))
                            (Date_getTime E (Some (JStr newestAt)))) |}, w')
    ∧ db w' = db w.
Proof.
  intros Hup Hcodec Hn Hty Hlast Hhead.
  by eapply getQueueInfo_envelopes.
Qed.

Lemma info_of_a_queue_with_messages_witness :
  ∃ w',
    getQueueInfo Demo.rt "orders" Demo.one_message
    = (Returns {| info_name := "orders";
                  info_depth := depth Demo.one_message "orders";
                  info_totalEnqueued := Num (totalEnqueued Demo.one_message "orders");
                  info_totalDequeued := Num (totalDequeued Demo.one_message "orders");
                  info_oldestMessageAge :=
                    Some (js_sub (Num (clock Demo.rt (reads Demo.one_message)))
                            (Date_getTime Demo.rt (Some (JStr "0"))));
                  info_newestMessageAge :=
                    Some (js_sub (Num (clock Demo.rt (S (reads Demo.one_message))))
                            (Date_getTime Demo.rt (Some (JStr "0")))) |}, w')
    ∧ db w' = db Demo.one_message.
Proof.
  apply (info_of_a_queue_with_messages Demo.rt "orders" Demo.one_message []
           "msg_0" (JStr "A") "0" "msg_0" (JStr "A") "0");
    [ exact demo_store_up | exact demo_codec_ok | reflexivity
    | exact demo_one_message_typed | reflexivity | reflexivity ].
Defined.

(** ** When the store rejects every command *)

Section Down.
Context (E : runtime) (Hdown : store_down E).
Implicit Types (w : world (wire E)).

Lemma send_down (c : cmd (wire E)) w :
  send E c w = (Throws store_unavailable, sent_world E (db w) c w).
Proof. unfold send, answer. by rewrite Hdown. Qed.

Lemma run_batch_down cs : ∀ i d, (run_batch E i cs d).2 = d.
Proof.
  induction cs as [|c cs IH]; intros i d; simpl; [done|].
  unfold answer. rewrite Hdown. specialize (IH (S i) d).
  by destruct (run_batch E (S i) cs d).
Qed.

Lemma bulkEnqueue_down n (dto : BulkEnqueueDto) w :
  validateQueueName n = true →
  ∃ r w',
    bulkEnqueue E n dto w = (Returns r, w')
    ∧ bulk_success r = true
    ∧ bulk_enqueuedCount r = length (messages dto)
    ∧ db w' = db w.
Proof.
  intros Hn. unfold bulkEnqueue. rewrite Hn. simpl (negb _). cbv beta iota.
  unfold bind at 1. rewrite bulk_envelopes_built.
  unfold bind, pipeline_exec. simpl.
  match goal with |- context [run_batch E ?i ?cs ?d] =>
    pose proof (run_batch_down cs i d) as Hsame;
    destruct (run_batch E i cs d) as [rs d'] end.
  simpl in Hsame. subst d'. unfold ret. eexists _, _.
  split; [reflexivity|]. simpl.
  by rewrite length_fmap, length_bulk_built.
Qed.

Lemma perform_down (c : call) w :
  validateQueueName (call_queue c) = true →
  db (perform E c w).2 = db w
  ∧ (perform E c w).1
    = match c with
      | CallBulkEnqueue _ _ => Returns tt
      | CallDequeue _ t | CallApiDequeue _ t =>
          Throws (if js_gt t 60000 then timeout_too_large else store_unavailable)
      | _ => Throws store_unavailable
      end.
Proof.
  destruct c as [n dto|n t|n k|n dto|n|n|n|n|n|n msg|n t]; simpl; intros Hn.
  4: { destruct (bulkEnqueue_down n dto w Hn) as (r & w' & Hrun & _ & _ & Hdb).
       unfold discard, bind. by rewrite Hrun. }
  all: unfold discard, enqueueMessage, dequeueMessage, peekMessages, purgeQueue,
         createQueue, getQueueInfo, deleteQueue, getQueueMetrics, api_enqueue,
         api_dequeue; rewrite Hn; simpl (negb _); cbv beta iota.
  all: try destruct (js_gt t 60000); try done.
  all: unfold bind, generateMessageId, now, redis_exists, redis_lpush,
         redis_llen, redis_brpop, redis_lrange, bind; simpl;
       rewrite send_down; done.
Qed.
End Down.

(** X12 (a store that rejects every command).  When the store rejects
    whatever it is sent, a call on a well-named queue leaves the keyspace as it
    was, and every call but one ends with the store's error (a dequeue whose
    timeout is above the ceiling still ends with the bad request, which comes
    first).  The one is [bulkEnqueue]: the errors of its pipeline stay in the
    result of [exec()], which it does not read, so it reports success for all
    its messages while none was stored. *)
Theorem store_down_outcomes (E : runtime) (c : call) (w : world (wire E)) :
  store_down E → validateQueueName (call_queue c) = true →
  db (perform E c w).2 = db w
  ∧ (perform E c w).1
    = match c with
      | CallBulkEnqueue _ _ => Returns tt
      | CallDequeue _ t | CallApiDequeue _ t =>
          Throws (if js_gt t 60000 then timeout_too_large else store_unavailable)
      | _ => Throws store_unavailable
      end
  ∧ ∀ dto, ∃ r w',
      bulkEnqueue E (call_queue c) dto w = (Returns r, w')
      ∧ bulk_success r = true
      ∧ bulk_enqueuedCount r = length (messages dto)
      ∧ db w' = db w.
Proof.
  intros Hdown Hn.
  destruct (perform_down E Hdown c w Hn) as [Hdb Hout].
  split; [exact Hdb|]. split; [exact Hout|].
  intros dto. by apply bulkEnqueue_down.
Qed.

Lemma store_down_outcomes_witness :
  db (perform DemoServer.rt_down (CallPurge "orders") Demo.one_message).2
  = db Demo.one_message
  ∧ (perform DemoServer.rt_down (CallPurge "orders") Demo.one_message).1
    = Throws store_unavailable
  ∧ ∀ dto, ∃ r w',
      bulkEnqueue DemoServer.rt_down "orders" dto Demo.one_message = (Returns r, w')
      ∧ bulk_success r = true
      ∧ bulk_enqueuedCount r = length (messages dto)
      ∧ db w' = db Demo.one_message.
Proof.
  apply (store_down_outcomes DemoServer.rt_down (CallPurge "orders")
           Demo.one_message); [intros i; reflexivity | reflexivity].
Defined.

(** ** The errors an endpoint answers with *)

Section Errors.
Context (E : runtime) (V : pipes).
Implicit Types (w : world (wire E)) (P : exn → Prop).

Lemma only_ret {A} P (a : A) : throws_only E P (ret E a).
Proof. by intros w e. Qed.

Lemma only_throw {A} P e : P e → throws_only E P (@throw E A e).
Proof. intros He w e' [= <-]. exact He. Qed.

Lemma only_now P : throws_only E P (now E).
Proof. by intros w e. Qed.

Lemma only_generateMessageId P : throws_only E P (generateMessageId E).
Proof. by intros w e. Qed.

Lemma only_bind {A B} P (m : M E A) (f : A → M E B) :
  throws_only E P m → (∀ a, throws_only E P (f a)) →
  throws_only E P (bind E m f).
Proof.
  intros Hm Hf w e. unfold bind. specialize (Hm w).
  destruct (m w) as [[a|e'|] w']; simpl in *; [apply Hf | | done].
  intros [= <-]. by apply Hm.
Qed.

Lemma only_send P (c : cmd (wire E)) :
  (∀ msg, P (ReplyError msg)) → throws_only E P (send E c).
Proof.
  intros HP w e. unfold send.
  destruct (answer E (sent (log w)) c (db w)) as [r d]. simpl.
  destruct r; simpl; try done. intros [= <-]. apply HP.
Qed.

Lemma only_pipeline_exec P cs : throws_only E P (pipeline_exec E cs).
Proof.
  intros w e. unfold pipeline_exec.
  by destruct (run_batch E (sent (log w)) cs (db w)).
Qed.

Lemma only_parse_all P xs : P SyntaxError → throws_only E P (parse_all E xs).
Proof.
  intros HP. induction xs as [|x xs IH]; intros w e; simpl; [done|].
  destruct (JSON_parse E x); simpl; [|by intros [= <-]].
  unfold bind. specialize (IH w e).
  by destruct (parse_all E xs w) as [[| |] ?].
Qed.

Lemma only_bulk_envelopes P ps : throws_only E P (bulk_envelopes E ps).
Proof.
  induction ps as [|p ps IH]; simpl; [apply only_ret|].
  apply only_bind; [apply only_generateMessageId | intros id].
  apply only_bind; [apply only_now | intros t].
  apply only_bind; [exact IH | intros rest]. apply only_ret.
Qed.

Lemma only_try_catch {A} (Q P : exn → Prop) (m : M E A) h :
  throws_only E Q m → (∀ e, Q e → throws_only E P (h e)) →
  throws_only E P (try_catch E m h).
Proof.
  intros Hm Hh w e. unfold try_catch. specialize (Hm w).
  destruct (m w) as [[a|e'|] w']; simpl in *; try done.
  apply Hh. by apply Hm.
Qed.

Lemma only_discard {A} P (m : M E A) :
  throws_only E P m → throws_only E P (discard E m).
Proof. intros Hm. apply only_bind; [exact Hm | intros a; apply only_ret]. Qed.

(** The [catch] of a controller method lets the endpoint's errors through and
    turns the others into the internal server error. *)
Lemma caught_only_bad_request {A} (r : route) (m : M E A) :
  match r with GetQueue _ | DeleteQueue _ => False | _ => True end →
  throws_only E (may_throw V r) m →
  throws_only E (may_answer V r) (only_bad_request E m).
Proof.
  intros Hr Hm. eapply only_try_catch; [exact Hm|].
  intros e [He|[[msg ->]|[->| ->]]]; try (apply only_throw; by right; left).
  destruct He as [->|[->|He]].
  - apply only_throw. by left.
  - apply only_throw. by right; left.
  - destruct r; try done; try destruct He as (msg & Hmsg & He); subst e;
      apply only_throw; right; right; try done; by exists msg.
Qed.

Lemma caught_bad_request_or_not_found {A} (r : route) (m : M E A) :
  match r with GetQueue _ | DeleteQueue _ => True | _ => False end →
  throws_only E (may_throw V r) m →
  throws_only E (may_answer V r) (bad_request_or_not_found E m).
Proof.
  intros Hr Hm. eapply only_try_catch; [exact Hm|].
  intros e [He|[[msg ->]|[->| ->]]]; try (apply only_throw; by right; left).
  destruct He as [->|[->|He]].
  - apply only_throw. by left.
  - apply only_throw. by right; left.
  - destruct r; try done; subst e; apply only_throw; by right; right.
Qed.
End Errors.

Ltac allowed :=
  unfold may_throw, may_answer;
  first
    [ by left; left
    | by left; right; right
    | by right; left; eexists
    | by right; right; left
    | by right; right; right ].

Ltac only_compose :=
  unfold redis_exists, redis_set, redis_del, redis_lpush, redis_incr,
    redis_llen, redis_brpop, redis_lrange, redis_lindex, redis_get_count;
  repeat first
    [ apply only_ret
    | apply only_throw; allowed
    | apply only_now
    | apply only_generateMessageId
    | apply only_parse_all; allowed
    | apply only_bulk_envelopes
    | apply only_pipeline_exec
    | apply only_send; intros ?; allowed
    | apply only_bind; [ | intros ?]
    | match goal with
      | |- throws_only _ _ (if ?b then _ else _) => destruct b
      | |- throws_only _ _ (match ?x with _ => _ end) => destruct x
      end ].

(** X13 (the errors of the endpoints).  Whatever the store holds, whether it
    answers or fails, and whatever the validation pipes make of a body: for a
    request whose body has been parsed, an endpoint of the two controllers
    that names a queue throws nothing but the bad request "Invalid queue
    name"; "Internal server error"; at the two dequeue endpoints the bad
    request "Timeout exceeds maximum (60s)"; at the create endpoint the bad
    request "Queue already exists"; at the info and delete endpoints "Queue
    not found"; and at the enqueue and bulk enqueue endpoints of the queues
    controller the bad request with which the pipes refuse that body.  No
    error of the store, of the JSON parser or of a property assignment reaches
    the caller as it is, and "Queue not found" comes from no other
    endpoint. *)
Theorem endpoint_errors (E : runtime) (V : pipes) (r : route)
    (w : world (wire E)) (e : exn) :
  (handle E V r w).1 = Throws e → may_answer V r e.
Proof.
  revert w e. change (throws_only E (may_answer V r) (handle E V r)).
  destruct r as [n|n body|n tm|n k|n body|n|n|n|n|n msg|n tm]; simpl;
    apply only_discard;
    unfold QueuesController_createQueue, QueuesController_enqueueMessage,
      QueuesController_dequeueMessage, QueuesController_peekMessages,
      QueuesController_bulkEnqueue, QueuesController_purgeQueue,
      QueuesController_getQueueInfo, QueuesController_deleteQueue,
      QueuesController_getQueueMetrics, ApiController_enqueue,
      ApiController_dequeue.
  2: destruct (enqueue_pipe V body) as [refusal|dto] eqn:Hpipe;
       [apply only_throw; right; right; by exists refusal|].
  5: destruct (bulk_pipe V body) as [refusal|messages] eqn:Hpipe;
       [apply only_throw; right; right; by exists refusal|].
  all: first [ apply caught_only_bad_request; [exact I|]
             | apply caught_bad_request_or_not_found; [exact I|] ];
    unfold bulkEnqueue_of, createQueue, enqueueMessage, dequeueMessage,
      peekMessages, bulkEnqueue, purgeQueue, getQueueInfo, deleteQueue,
      getQueueMetrics, api_enqueue, api_dequeue, message_age;
    only_compose.
Qed.

Lemma endpoint_errors_witness :
  may_answer DemoServer.validation (PostMessage "jobs" (JObj []))
    (BadRequestException "message should not be empty").
Proof.
  apply (endpoint_errors Demo.rt DemoServer.validation
           (PostMessage "jobs" (JObj [])) Demo.fresh
           (BadRequestException "message should not be empty")).
  reflexivity.
Defined.

(** ** Peek with a count of at least one *)

(** X14 (peek returns the oldest messages).  On a store that answers, with a
    JSON codec that round-trips, for a well-named queue and a count of at
    least one: [peekMessages] returns the [min(count, 100)] oldest messages of
    the queue, or all of them when there are fewer, the oldest first, with
    their number and with the full depth of the queue, and leaves the
    keyspace as it was. *)
Theorem peek_returns_the_oldest (E : runtime) (queueName : string) (count : Z)
    (w : world (wire E)) (vs : list json) :
  store_up E → codec_ok E →
  validateQueueName queueName = true → typed w queueName → (1 ≤ count)%Z →
  items w queueName = JSON_stringify E <$> vs →
  ∃ w',
    peekMessages E queueName (Num count) w
    = (Returns {| peek_queue := queueName;
                  peek_messages := take (Z.to_nat (count `min` 100)) (reverse vs);
                  peek_count :=
                    length (take (Z.to_nat (count `min` 100)) (reverse vs));
                  peek_totalDepth := Z.of_nat (length vs) |}, w')
    ∧ db w' = db w.
Proof.
  intros Hup Hcodec Hn Hty Hc Hitems.
  rewrite (peekMessages_positive E Hup Hcodec queueName count w vs) by done.
  by eexists.
Qed.

Lemma peek_returns_the_oldest_witness :
  ∃ w',
    peekMessages Demo.rt "orders" (Num 5) Demo.one_message
    = (Returns {| peek_queue := "orders";
                  peek_messages :=
                    take (Z.to_nat (5 `min` 100))
                      (reverse [envelope "msg_0" (JStr "A") "0"]);
                  peek_count :=
                    length (take (Z.to_nat (5 `min` 100))
                              (reverse [envelope "msg_0" (JStr "A") "0"]));
                  peek_totalDepth :=
                    Z.of_nat (length [envelope "msg_0" (JStr "A") "0"]) |}, w')
    ∧ db w' = db Demo.one_message.
Proof.
  apply (peek_returns_the_oldest Demo.rt "orders" 5 Demo.one_message
           [envelope "msg_0" (JStr "A") "0"]);
    [ exact demo_store_up | exact demo_codec_ok | reflexivity
    | exact demo_one_message_typed | lia | reflexivity ].
Defined.

(** ** What a bulk enqueue returns *)

Section BulkResult.
Context (E : runtime).

Lemma bulk_built_ids ps d r :
  Forall2 (λ (built : string * wire E) p,
             ∃ ts, built.2 = JSON_stringify E (envelope built.1 p ts))
    (bulk_built E ps d r) ps.
Proof.
  revert d r. induction ps as [|p ps IH]; intros d r; simpl; constructor.
  - by eexists.
  - apply IH.
Qed.
End BulkResult.

(** X15 (what a bulk enqueue returns and sends).  On a store that answers, for
    a well-named queue whose keys hold values of their kinds, [bulkEnqueue] of
    [N] payloads sends one request, a pipeline of [N + 1] commands; it returns
    success, the count [N] and [N] message ids; the texts it has put on the
    list, the first payload's deepest, are the envelopes of the payloads in
    input order, each carrying the id returned at its position; and the
    enqueued counter has moved by [N]. *)
Theorem bulk_enqueue_result (E : runtime) (queueName : string)
    (dto : BulkEnqueueDto) (w : world (wire E)) :
  store_up E → validateQueueName queueName = true → typed w queueName →
  ∃ r w' texts cs,
    bulkEnqueue E queueName dto w = (Returns r, w')
    ∧ bulk_success r = true
    ∧ bulk_enqueuedCount r = length (messages dto)
    ∧ items w' queueName = reverse texts ++ items w queueName
    ∧ Forall2 (λ (built : string * wire E) p,
                 ∃ ts, built.2 = JSON_stringify E (envelope built.1 p ts))
        (zip (bulk_messageIds r) texts) (messages dto)
    ∧ length (bulk_messageIds r) = length (messages dto)
    ∧ length texts = length (messages dto)
    ∧ totalEnqueued w' queueName
      = (totalEnqueued w queueName + Z.of_nat (length (messages dto)))%Z
    ∧ log w' = log w ++ [Pipeline cs]
    ∧ length cs = S (length (messages dto)).
Proof.
  intros Hup Hn Hty.
  destruct (bulkEnqueue_spec E Hup queueName dto w Hn Hty)
    as (w' & Hrun & Hi & He & _ & _ & _ & _ & Hlog).
  eexists _, w', _, _. split; [exact Hrun|]. simpl.
  split; [done|]. split; [done|]. split; [exact Hi|].
  split; [rewrite zip_fst_snd; apply bulk_built_ids|].
  split; [by rewrite length_fmap, length_bulk_built|].
  split; [by rewrite length_fmap, length_bulk_built|].
  split; [exact He|]. split; [exact Hlog|].
  rewrite length_app, !length_fmap, length_bulk_built. simpl. lia.
Qed.

Lemma bulk_enqueue_result_witness :
  ∃ r w' texts cs,
    bulkEnqueue Demo.rt "orders" {| messages := [JStr "A"; JStr "B"] |} Demo.fresh
    = (Returns r, w')
    ∧ bulk_success r = true
    ∧ bulk_enqueuedCount r = length [JStr "A"; JStr "B"]
    ∧ items w' "orders" = reverse texts ++ items Demo.fresh "orders"
    ∧ Forall2 (λ (built : string * json) p,
                 ∃ ts, built.2 = envelope built.1 p ts)
        (zip (bulk_messageIds r) texts) [JStr "A"; JStr "B"]
    ∧ length (bulk_messageIds r) = length [JStr "A"; JStr "B"]
    ∧ length texts = length [JStr "A"; JStr "B"]
    ∧ totalEnqueued w' "orders"
      = (totalEnqueued Demo.fresh "orders" + Z.of_nat (length [JStr "A"; JStr "B"]))%Z
    ∧ log w' = log Demo.fresh ++ [Pipeline cs]
    ∧ length cs = S (length [JStr "A"; JStr "B"]).
Proof.
  apply (bulk_enqueue_result Demo.rt "orders"
           {| messages := [JStr "A"; JStr "B"] |} Demo.fresh);
    [exact demo_store_up | reflexivity | apply demo_fresh_typed].
Defined.

(** ** Strings *)

Lemma append_assoc (a b c : string) : (a +:+ b) +:+ c = a +:+ (b +:+ c).
Proof.
  induction a as [|x a IH]; [done|]. by rewrite !append_cons, IH.
Qed.

Lemma prefix_cons c p d s :
  String.prefix (String c p) (String d s)
  = (if Ascii.eqb c d then String.prefix p s else false).
Proof.
  simpl. destruct (Ascii.ascii_dec c d) as [->|Hne].
  - by rewrite Ascii.eqb_refl.
  - by apply Ascii.eqb_neq in Hne as ->.
Qed.

Lemma prefix_app p s : String.prefix p (p +:+ s) = true.
Proof.
  induction p as [|c p IH]; [by destruct s|].
  by rewrite append_cons, prefix_cons, Ascii.eqb_refl.
Qed.

Lemma split_from_skip sep t : ∀ piece rest,
  split_from sep (String.length t) piece (t +:+ rest) = split_from sep 0 piece rest.
Proof.
  induction t as [|c t IH]; intros piece rest; [done|].
  rewrite append_cons. simpl. apply IH.
Qed.

(** A piece that is free of the separator's first character ends where the
    separator begins. *)
Lemma split_from_piece c0 sep' a : ∀ piece rest,
  all_chars (λ c, negb (Ascii.eqb c c0)) a = true →
  split_from (String c0 sep') 0 piece (a +:+ String c0 sep' +:+ rest)
  = (piece +:+ a) :: split_from (String c0 sep') 0 "" rest.
Proof.
  induction a as [|c a IH]; intros piece rest Ha.
  - rewrite append_nil_l, append_nil_r, append_cons.
    cbn [split_from]. rewrite <- append_cons, prefix_app.
    replace (String.length (String c0 sep') - 1)%nat with (String.length sep')
      by (simpl; lia).
    by rewrite split_from_skip.
  - simpl in Ha. apply andb_prop in Ha as [Hc Ha].
    rewrite append_cons. cbn [split_from]. rewrite prefix_cons.
    rewrite Ascii.eqb_sym. apply negb_true_iff in Hc. rewrite Hc.
    rewrite IH by done. by rewrite append_assoc, append_cons, append_nil_l.
Qed.

(** The first piece of a text split at colons is the text up to its first
    colon. *)
Lemma split_colon_head v : ∀ piece,
  head (split_from ":" 0 piece v) = Some (piece +:+ before_colon v).
Proof.
  induction v as [|c v IH]; intros piece; [simpl; by rewrite append_nil_r|].
  cbn [split_from before_colon]. rewrite prefix_cons. rewrite Ascii.eqb_sym.
  destruct (Ascii.eqb c ":") eqn:Hc.
  - replace (String.prefix "" v) with true by (by destruct v).
    simpl. by rewrite append_nil_r.
  - rewrite IH. by rewrite append_assoc, append_cons, append_nil_l.
Qed.

Lemma all_chars_and f g s :
  all_chars (λ c, f c && g c) s = all_chars f s && all_chars g s.
Proof.
  induction s as [|c s IH]; [done|]. simpl. rewrite IH.
  destruct (f c), (g c), (all_chars f s), (all_chars g s); reflexivity.
Qed.

(** ** [parseRedisInfo] *)

Lemma no_line_break_no_CR s :
  no_line_break s = true → all_chars (λ c, negb (Ascii.eqb c CR)) s = true.
Proof.
  unfold no_line_break. rewrite all_chars_and. by intros [? _]%andb_prop.
Qed.

Lemma split_render_info entries :
  forallb entry_ok entries = true →
  split CRLF (render_info entries) = (info_line <$> entries) ++ [""].
Proof.
  unfold split. induction entries as [|e entries IH]; [done|].
  simpl. intros [He Hrest]%andb_prop.
  pose proof (split_from_piece CR (String LF "") (info_line e) ""
                (render_info entries)) as Hpiece.
  fold CRLF in Hpiece. rewrite Hpiece; [by rewrite append_nil_l, IH|].
  apply no_line_break_no_CR.
  destruct e as [text|name value]; simpl in *.
  - by apply andb_prop in He as [_ ?].
  - apply andb_prop in He as [[_ Hname]%andb_prop Hvalue].
    unfold no_line_break in *. rewrite !all_chars_app. simpl.
    by rewrite Hname, Hvalue.
Qed.

(** A text that begins with [key:] has a colon. *)
Lemma prefix_colon key : ∀ text,
  String.prefix (key +:+ ":") text = true → no_colon text = false.
Proof.
  unfold no_colon. induction key as [|c key IH]; intros [|d text]; try done.
  - rewrite append_nil_l, prefix_cons.
    destruct (Ascii.eqb ":" d) eqn:Hd; [|done]. intros _. cbn [all_chars].
    by rewrite Ascii.eqb_sym, Hd.
  - rewrite append_cons, prefix_cons.
    destruct (Ascii.eqb c d); [|done]. intros H%IH. cbn [all_chars]. rewrite H.
    apply andb_false_r.
Qed.

(** With no colon in either name, a field begins with [key:] exactly when it
    is the field of that name. *)
Lemma prefix_field key : ∀ name value,
  no_colon key = true → no_colon name = true →
  String.prefix (key +:+ ":") (name +:+ ":" +:+ value) = String.eqb name key.
Proof.
  unfold no_colon. induction key as [|c key IH]; intros [|d name] value Hk Hn;
    rewrite ?append_cons, ?append_nil_l, ?prefix_cons;
    cbn [all_chars String.eqb] in *.
  - rewrite Ascii.eqb_refl. by destruct value.
  - apply andb_prop in Hn as [Hd _]. apply negb_true_iff in Hd.
    by rewrite Ascii.eqb_sym, Hd.
  - apply andb_prop in Hk as [Hc _]. apply negb_true_iff in Hc. by rewrite Hc.
  - apply andb_prop in Hk as [_ Hk]. apply andb_prop in Hn as [_ Hn].
    rewrite (Ascii.eqb_sym d c). destruct (Ascii.eqb c d); [by apply IH | done].
Qed.

Lemma first_field_entries key entries :
  no_colon key = true → forallb entry_ok entries = true →
  first_field ((info_line <$> entries) ++ [""]) key
  = before_colon <$> field_named key entries.
Proof.
  intros Hkey. induction entries as [|e entries IH]; intros Hok.
  - simpl. unfold startsWith. by destruct key.
  - simpl in Hok. apply andb_prop in Hok as [He Hrest].
    rewrite fmap_cons. cbn [app first_field]. unfold startsWith.
    destruct e as [text|name value]; simpl in *.
    + apply andb_prop in He as [Htext _].
      destruct (String.prefix (key +:+ ":") text) eqn:Hp; [|by apply IH].
      apply prefix_colon in Hp. congruence.
    + apply andb_prop in He as [[Hname _]%andb_prop _].
      rewrite prefix_field by done.
      destruct (String.eqb name key); [|by apply IH]. simpl.
      unfold split. rewrite split_from_piece by exact Hname.
      rewrite append_nil_l. simpl.
      pose proof (split_colon_head value "") as Hhead.
      rewrite append_nil_l in Hhead.
      by destruct (split_from ":" 0 "" value).
Qed.

(** X16 ([parseRedisInfo] on the text of an INFO reply).  For a reply made of
    lines that each end in CR LF, a line being a heading without a colon or a
    field [name:value] whose name has no colon, and for a key without a colon:
    [parseRedisInfo] returns the value of the first field of that name, cut at
    its first colon if it has one, and [null] when the reply has no field of
    that name.  A field whose name only begins with the key is not taken for
    it. *)
Theorem parseRedisInfo_reads_the_first_field (entries : list info_entry)
    (key : string) :
  no_colon key = true → forallb entry_ok entries = true →
  parseRedisInfo (render_info entries) key
  = before_colon <$> field_named key entries.
Proof.
  intros Hkey Hok. unfold parseRedisInfo.
  rewrite split_render_info by done. by apply first_field_entries.
Qed.

Lemma parseRedisInfo_reads_the_first_field_witness :
  parseRedisInfo
    (render_info [Heading "# Memory"; Field "used_memory" "1048576";
                  Field "used_memory_human" "1.00M"; Field "ratio" "1:2"])
    "used_memory"
  = before_colon
      <$> field_named "used_memory"
            [Heading "# Memory"; Field "used_memory" "1048576";
             Field "used_memory_human" "1.00M"; Field "ratio" "1:2"].
Proof.
  apply (parseRedisInfo_reads_the_first_field
           [Heading "# Memory"; Field "used_memory" "1048576";
            Field "used_memory_human" "1.00M"; Field "ratio" "1:2"]
           "used_memory"); reflexivity.
Defined.

(** ** The Redis client's retry policy and the health check *)

(** X17 (the retry policy).  [retryStrategy] gives up from the fourth attempt
    on, and before that waits 50 ms times the number of the attempt: 50, 100
    and 150 ms for the three attempts it allows.  The delay grows by a fixed
    step, and the cap of 2000 ms in the code is never what decides it. *)
Theorem retry_gives_up_after_three (times : Z) :
  (retryStrategy times = None ↔ (3 < times)%Z)
  ∧ (∀ delay, retryStrategy times = Some delay →
       delay = (50 * times)%Z ∧ (delay ≤ 150)%Z)
  ∧ retryStrategy 1 = Some 50%Z
  ∧ retryStrategy 2 = Some 100%Z
  ∧ retryStrategy 3 = Some 150%Z.
Proof.
  unfold retryStrategy. split; [|split; [|done]].
  - destruct (Z.ltb_spec 3 times); split; try done; lia.
  - intros delay. destruct (Z.ltb_spec 3 times); [done|].
    intros [= <-]. lia.
Qed.

(** X18 (the health check).  [checkHealth] answers from the status the Redis
    client reports and from the clock alone: it sends nothing to the store and
    never throws.  It answers 200 with status "healthy" and redis "connected"
    exactly when the client's status is "ready", and 503 with "unhealthy" and
    "disconnected" for every other status; the uptime is handed on as
    given. *)
Theorem health_follows_the_client_status (E : runtime) {U : Type}
    (client_status : string) (uptime : U) (w : world (wire E)) :
  ∃ code body,
    checkHealth E client_status uptime w
    = (Returns (code, body), World (db w) (log w) (S (reads w)) (draws w))
    ∧ health_uptime body = uptime
    ∧ health_timestamp body = toISOString E (clock E (reads w))
    ∧ (client_status = "ready" →
       code = 200%Z ∧ health_isHealthy body = true
       ∧ health_status body = "healthy" ∧ health_redis body = "connected")
    ∧ (client_status ≠ "ready" →
       code = 503%Z ∧ health_isHealthy body = false
       ∧ health_status body = "unhealthy" ∧ health_redis body = "disconnected").
Proof.
  unfold checkHealth, getHealthStatus, isReady, bind, now, ret.
  destruct (String.eqb_spec client_status "ready") as [->|Hne]; simpl;
    eexists _, _; repeat split; try done.
Qed.

(** ** Keys as [listQueues] and [getSystemStats] read them *)

Lemma valid_no_colon n : validateQueueName n = true → no_colon n = true.
Proof.
  intros Hn%valid_all_chars. unfold no_colon.
  induction n as [|c n IH]; [done|]. simpl in *.
  apply andb_prop in Hn as [Hc Hn]. rewrite IH by done.
  rewrite andb_true_r. apply negb_true_iff.
  destruct (Ascii.eqb_spec c ":") as [->|]; [|done]. by vm_compute in Hc.
Qed.

Lemma includes_unfold sub s :
  includes sub s
  = String.prefix sub s
    || match s with String _ r => includes sub r | EmptyString => false end.
Proof. by destruct s. Qed.

Lemma includes_colon_free p a t :
  no_colon a = true →
  includes (String ":" p) (a +:+ t) = includes (String ":" p) t.
Proof.
  unfold no_colon. induction a as [|c a IH]; [done|].
  cbn [all_chars]. intros [Hc Ha]%andb_prop. apply negb_true_iff in Hc.
  rewrite append_cons, includes_unfold, prefix_cons.
  rewrite Ascii.eqb_sym, Hc. by apply IH.
Qed.

Lemma includes_at_colon p t :
  includes (String ":" p) (String ":" t)
  = String.prefix p t || includes (String ":" p) t.
Proof. by rewrite includes_unfold, prefix_cons, Ascii.eqb_refl. Qed.

Lemma key_of_unfold kd n :
  key_of kd n = "queue" +:+ String ":" (n +:+ key_suffix kd).
Proof. reflexivity. Qed.

Lemma includes_key p kd n :
  validateQueueName n = true →
  includes (String ":" p) (key_of kd n)
  = String.prefix p (n +:+ key_suffix kd) || includes (String ":" p) (key_suffix kd).
Proof.
  intros Hn%valid_no_colon.
  rewrite key_of_unfold, includes_colon_free by done.
  by rewrite includes_at_colon, includes_colon_free.
Qed.

(** A colon-free text at the front of a name and its suffix is at the front
    of the name. *)
Lemma prefix_name p : ∀ n kd,
  no_colon p = true → String.prefix p (n +:+ key_suffix kd) = String.prefix p n.
Proof.
  unfold no_colon. induction p as [|c p IH]; intros n kd Hp.
  - by destruct n, kd.
  - cbn [all_chars] in Hp. apply andb_prop in Hp as [Hc Hp].
    apply negb_true_iff in Hc. destruct n as [|d n].
    + rewrite append_nil_l. destruct kd; simpl key_suffix; try done;
        by rewrite prefix_cons, Hc.
    + rewrite append_cons, !prefix_cons. destruct (Ascii.eqb c d); [by apply IH | done].
Qed.

(** [p:] is at the front of a name and its suffix only when the name is [p]
    and has a suffix. *)
Lemma prefix_name_colon p n kd :
  no_colon p = true → no_colon n = true →
  String.prefix (p +:+ ":") (n +:+ key_suffix kd)
  = String.eqb n p && negb (is_list kd).
Proof.
  intros Hp Hn. destruct kd; cbn [key_suffix is_list negb].
  - rewrite append_nil_r, andb_false_r.
    destruct (String.prefix (p +:+ ":") n) eqn:Hpre; [|done].
    apply prefix_colon in Hpre. congruence.
  - rewrite andb_true_r. by apply (prefix_field p n "metadata").
  - rewrite andb_true_r. by apply (prefix_field p n "stats:enqueued").
  - rewrite andb_true_r. by apply (prefix_field p n "stats:dequeued").
Qed.

Lemma includes_stats kd n :
  validateQueueName n = true →
  includes ":stats:" (key_of kd n)
  = (String.eqb n "stats" && negb (is_list kd)) || is_counter kd.
Proof.
  intros Hn. rewrite includes_key by done.
  rewrite (prefix_name_colon "stats"); [|done|by apply valid_no_colon].
  by destruct kd.
Qed.

Lemma includes_metadata kd n :
  validateQueueName n = true →
  includes ":metadata" (key_of kd n)
  = String.prefix "metadata" n || is_metadata kd.
Proof.
  intros Hn. rewrite includes_key by done.
  rewrite prefix_name by done. by destruct kd.
Qed.

Lemma glob_star s : glob "*" s = true.
Proof. induction s as [|c s IH]; [done|]. simpl in *. exact IH. Qed.

Lemma glob_cons c p s :
  Ascii.eqb c "*" = false → Ascii.eqb c "?" = false →
  glob (String c p) s
  = match s with
    | String c' r => Ascii.eqb c c' && glob p r
    | EmptyString => false
    end.
Proof. intros H1 H2. simpl. by rewrite H1, H2. Qed.

Lemma glob_queue k : glob "queue:*" k = String.prefix "queue:" k.
Proof.
  do 6 (rewrite glob_cons by done; destruct k as [|? k]; [done|];
        rewrite prefix_cons; destruct (Ascii.eqb _ _);
        [rewrite andb_true_l|done]).
  rewrite glob_star. by destruct k.
Qed.

Lemma glob_key kd n : glob "queue:*" (key_of kd n) = true.
Proof. rewrite glob_queue. apply prefix_app. Qed.

Lemma replace_first_unfold pat rep s :
  replace_first pat rep s
  = if String.prefix pat s then rep +:+ string_drop (String.length pat) s
    else match s with
         | String c r => String c (replace_first pat rep r)
         | EmptyString => EmptyString
         end.
Proof. by destruct s. Qed.

Lemma replace_queue rest : replace_first "queue:" "" ("queue:" +:+ rest) = rest.
Proof. by rewrite replace_first_unfold, prefix_app. Qed.

Lemma replace_colon_free p rep a t :
  no_colon a = true →
  replace_first (String ":" p) rep (a +:+ t)
  = a +:+ replace_first (String ":" p) rep t.
Proof.
  unfold no_colon. induction a as [|c a IH]; [done|].
  cbn [all_chars]. intros [Hc Ha]%andb_prop. apply negb_true_iff in Hc.
  rewrite !append_cons, replace_first_unfold, prefix_cons.
  rewrite Ascii.eqb_sym, Hc. by rewrite IH.
Qed.

(** The name [listQueues] reads off a key it takes for a metadata key. *)
Lemma name_of_key kd n :
  validateQueueName n = true →
  replace_first ":metadata" "" (replace_first "queue:" "" (key_of kd n))
  = if is_metadata kd then n else n +:+ key_suffix kd.
Proof.
  intros Hn%valid_no_colon. unfold key_of. rewrite replace_queue.
  rewrite replace_colon_free by done.
  destruct kd; simpl; by rewrite ?append_nil_r.
Qed.

Lemma elem_of_Set_add names x y : y ∈ Set_add names x ↔ y ∈ names ∨ y = x.
Proof.
  unfold Set_add. case_bool_decide as Hin.
  - split; [by left | intros [?| ->]; done].
  - rewrite elem_of_app, list_elem_of_singleton. done.
Qed.

Lemma elem_of_foldl_Set_add xs : ∀ names y,
  y ∈ foldl Set_add names xs ↔ y ∈ names ∨ y ∈ xs.
Proof.
  induction xs as [|x xs IH]; intros names y; simpl.
  - rewrite elem_of_nil. tauto.
  - rewrite IH, elem_of_Set_add, elem_of_cons. tauto.
Qed.

Lemma NoDup_Set_add names x : NoDup names → NoDup (Set_add names x).
Proof.
  intros Hnd. unfold Set_add. case_bool_decide as Hin; [done|].
  apply NoDup_app. split; [done|]. split; [|apply NoDup_singleton].
  intros y Hy ->%list_elem_of_singleton. done.
Qed.

Lemma NoDup_foldl_Set_add xs : ∀ names,
  NoDup names → NoDup (foldl Set_add names xs).
Proof.
  induction xs as [|x xs IH]; intros names Hnd; simpl; [done|].
  by apply IH, NoDup_Set_add.
Qed.

(** ** The keys the engine writes *)

#[local] Instance engine_kept_reflexive {W} : Reflexive (@engine_kept W).
Proof. intros d Hd. exact Hd. Qed.

#[local] Instance engine_kept_transitive {W} : Transitive (@engine_kept W).
Proof. intros d1 d2 d3 H12 H23 H. by apply H23, H12. Qed.

Section EngineStore.
Context (E : runtime).
Implicit Types (d : gmap string (rval (wire E))) (w : world (wire E)).

Lemma engine_store_insert d k kd n v :
  validateQueueName n = true → k = key_of kd n → holds_kind kd v →
  engine_store d → engine_store (<[k := v]> d).
Proof.
  intros Hn -> Hv Hd k' v'.
  destruct (decide (k' = key_of kd n)) as [->|Hne].
  - rewrite lookup_insert_eq. intros [= <-]. by exists kd, n.
  - rewrite lookup_insert_ne by done. apply Hd.
Qed.

Lemma engine_store_delete d k : engine_store d → engine_store (delete k d).
Proof.
  intros Hd k' v'. destruct (decide (k' = k)) as [->|Hne].
  - by rewrite lookup_delete_eq.
  - rewrite lookup_delete_ne by done. apply Hd.
Qed.

Lemma engine_store_incr_by d k z :
  (∃ n kd, validateQueueName n = true ∧ is_counter kd = true ∧ k = key_of kd n) →
  engine_store d → engine_store (incr_by k z d).2.
Proof.
  intros (n & kd & Hn & Hkd & ->) Hd. unfold incr_by.
  destruct (d !! key_of kd n) as [[l|s|c]|] eqn:Hk; simpl; try done.
  all: eapply engine_store_insert; try done; by destruct kd.
Qed.

Lemma exec_engine_store (c : cmd (wire E)) d :
  fits c → engine_kept d (exec c d).2.
Proof.
  intros Hc Hd. destruct c; simpl in *.
  - done.
  - destruct Hc as (n & Hn & ->). by eapply engine_store_insert.
  - by destruct (d !! k) as [[| |]|].
  - by apply engine_store_delete.
  - destruct Hc as (n & Hn & ->).
    destruct (d !! key_of KList n) as [[l|s|z]|] eqn:Hk; simpl; try done.
    all: by eapply engine_store_insert.
  - destruct timeout as [t| |]; [|done..]. destruct (t <? 0)%Z; [done|].
    destruct (d !! k) as [[l| |]|] eqn:Hk; try done; try by destruct (t =? 0)%Z.
    destruct (last l); [|by destruct (t =? 0)%Z]. simpl.
    destruct (removelast l) as [|x l'] eqn:Hl'; [by apply engine_store_delete|].
    destruct (Hd k _ Hk) as (kd & n & Hn & -> & Hkind).
    eapply engine_store_insert; try done. by destruct kd.
  - destruct start as [a| |], stop as [b| |]; try done.
    by destruct (reads_as_int64 a && reads_as_int64 b), (d !! k) as [[| |]|].
  - by destruct (d !! k) as [[| |]|].
  - by destruct (d !! k) as [[| |]|].
  - by apply engine_store_incr_by.
  - by apply engine_store_incr_by.
Qed.

Ltac own n Hn :=
  intros ?; apply exec_engine_store; simpl; try done;
  rewrite ?queueKey_of;
  first
    [ by exists n
    | by exists n, KEnq
    | by exists n, KDeq ].

Lemma bulk_envelopes_engine_kept ps :
  preserves E engine_kept (bulk_envelopes E ps).
Proof. induction ps as [|p ps IH]; simpl; compose idtac. exact IH. Qed.

Lemma perform_engine_kept (c : call) : preserves E engine_kept (perform E c).
Proof.
  destruct c as [n dto|n t|n k|n dto|n|n|n|n|n|n msg|n t]; simpl;
    unfold enqueueMessage, dequeueMessage, peekMessages, bulkEnqueue,
      purgeQueue, createQueue, getQueueInfo, deleteQueue, getQueueMetrics,
      api_enqueue, api_dequeue, message_age;
    destruct (validateQueueName n) eqn:Hn; simpl (negb _); cbv beta iota.
  all: try (compose ltac:(own n Hn); fail).
  unfold discard.
  apply preserves_bind; [apply _ | | intros ?; apply preserves_ret; apply _].
  apply preserves_bind; [apply _ | apply bulk_envelopes_engine_kept | intros built].
  apply preserves_bind; [apply _ | | intros ?; compose idtac].
  apply preserves_pipeline_exec; [apply _ | apply _ |].
  intros c d [Hin|Hin]%elem_of_app.
  - apply list_elem_of_fmap in Hin as (v & -> & _). revert d. own n Hn.
  - apply list_elem_of_singleton in Hin as ->. revert d. own n Hn.
Qed.

Lemma after_engine_store (cs : list call) w :
  engine_store (db w) → engine_store (db (after E cs w)).
Proof.
  revert w. induction cs as [|c cs IH]; intros w Hw; [done|].
  simpl. apply IH. by apply perform_engine_kept.
Qed.
End EngineStore.

(** X19 (the keys of the store are the engine's).  Whatever calls are made, in
    any number and order, on any queue names, with a store that answers or
    fails at any point: when every key held a value of its kind under one of
    the four keys of a well-named queue before a call, the same is true after
    it; so it is true at every moment of a store that started empty.  A list
    key never holds an empty list, a metadata key holds a string, a counter
    key an integer, and there is no key of any other form. *)
Theorem store_holds_engine_keys_only (E : runtime) :
  (∀ (c : call) (w : world (wire E)),
     engine_store (db w) → engine_store (db (perform E c w).2))
  ∧ (∀ cs : list call, engine_store (db (after E cs (empty_world E)))).
Proof.
  split.
  - intros c w. apply perform_engine_kept.
  - intros cs. apply after_engine_store. intros k v. simpl.
    by rewrite lookup_empty.
Qed.

(** ** The scanning client on a store that answers *)

Section ScanClient.
Context (E : runtime) (Srv : server (wire E)) (Hup : store_up E).
Implicit Types (s : scanning (wire E)) (k : string).

Lemma scan_bind_returns {A B} (m : SM E A) (f : A → SM E B) s a s' :
  m s = (Returns a, s') → scan_bind E m f s = f a s'.
Proof. unfold scan_bind. by intros ->. Qed.

Lemma scan_bind_throws {A B} (m : SM E A) (f : A → SM E B) s e s' :
  m s = (Throws e, s') → scan_bind E m f s = (Throws e, s').
Proof. unfold scan_bind. by intros ->. Qed.

Lemma scan_send_up (c : cmd (wire E)) s :
  scan_send E c s
  = (settle E (exec c (db (base s))).1,
     Scanning (sent_world E (exec c (db (base s))).2 c (base s)) (scans s)).
Proof.
  unfold scan_send, answer. rewrite Hup. by destruct (exec c (db (base s))).
Qed.

Lemma scan_keys_up pattern s :
  scan_keys E Srv pattern s
  = (Returns (filter (λ k, glob pattern k = true) (keys_order Srv (db (base s)))),
     scanned E (KEYS pattern) s).
Proof. unfold scan_keys. by rewrite Hup. Qed.

Lemma scan_info_up section s :
  scan_info E Srv section s
  = (Returns (info_reply Srv (commands_sent E s) section), scanned E (INFO section) s).
Proof. unfold scan_info. by rewrite Hup. Qed.

(** LLEN is refused for a key that holds something other than a list, and
    answers the length for a list key or a missing key; the keyspace stays as
    it is. *)
Lemma scan_llen_cases k s :
  (∃ s', scan_llen E k s = (Throws wrong_type, s')
         ∧ db (base s') = db (base s))
  ∨ (∃ s', scan_llen E k s
           = (Returns (Z.of_nat (length (list_at (db (base s)) k))), s')
           ∧ db (base s') = db (base s)
           ∧ ∀ v, db (base s) !! k = Some v → ∃ l, v = RList l).
Proof.
  unfold list_at, scan_llen, scan_bind. rewrite scan_send_up. simpl.
  destruct (db (base s) !! k) as [[l| |]|]; simpl.
  - right. eexists. repeat split. intros v [= <-]. by eexists.
  - left. by eexists.
  - left. by eexists.
  - right. eexists. repeat split. done.
Qed.

Lemma scan_llen_list k s :
  listy (db (base s)) k →
  scan_llen E k s
  = (Returns (Z.of_nat (length (list_at (db (base s)) k))),
     Scanning (sent_world E (db (base s)) (LLEN k) (base s)) (scans s)).
Proof.
  unfold listy, list_at, scan_llen, scan_bind. rewrite scan_send_up. simpl.
  by destruct (db (base s) !! k) as [[l| |]|].
Qed.

(** The loop of [getSystemStats] ends at the first key that holds something
    other than a list. *)
Lemma total_depths_wrong keys : ∀ acc cnt s k v,
  k ∈ keys → db (base s) !! k = Some v → (∀ l, v ≠ RList l) →
  ∃ s', total_depths E keys acc cnt s = (Throws wrong_type, s')
        ∧ db (base s') = db (base s).
Proof.
  induction keys as [|k0 keys IH]; intros acc cnt s k v Hin Hk Hv.
  - by apply elem_of_nil in Hin.
  - cbn [total_depths].
    destruct (scan_llen_cases k0 s) as [(s' & Hrun & Hdb)|(s' & Hrun & Hdb & Hlist)].
    + rewrite (scan_bind_throws _ _ _ _ _ Hrun). by exists s'.
    + rewrite (scan_bind_returns _ _ _ _ _ Hrun).
      apply elem_of_cons in Hin as [->|Hin].
      { destruct (Hlist v Hk) as [l ->]. by destruct (Hv l). }
      rewrite <- Hdb in Hk.
      edestruct (IH) as (s'' & Hrest & Hdb'); [exact Hin | exact Hk | exact Hv |].
      exists s''. split; [exact Hrest | congruence].
Qed.

(** On list keys the loop adds up the lengths and counts every key as
    active. *)
Lemma total_depths_lists keys : ∀ acc cnt s,
  Forall (λ k, ∃ l, db (base s) !! k = Some (RList l) ∧ l ≠ []) keys →
  ∃ s',
    total_depths E keys acc cnt s
    = (Returns ((acc + Z.of_nat
                         (sum_list_with (λ k, length (list_at (db (base s)) k)) keys))%Z,
                (cnt + Z.of_nat (length keys))%Z), s')
    ∧ db (base s') = db (base s).
Proof.
  induction keys as [|k0 keys IH]; intros acc cnt s Hkeys.
  - exists s. simpl. unfold scan_ret. by rewrite !Z.add_0_r.
  - apply Forall_cons in Hkeys as [(l & Hk0 & Hl) Hkeys].
    cbn [total_depths].
    rewrite (scan_bind_returns _ _ _ _ _ (scan_llen_list k0 s
               ltac:(unfold listy; by rewrite Hk0))).
    assert (list_at (db (base s)) k0 = l) as Hat
      by (unfold list_at; by rewrite Hk0).
    rewrite Hat. destruct l as [|x l]; [done|].
    destruct (Z.ltb_spec 0 (Z.of_nat (length (x :: l)))) as [_|Hlen];
      [|simpl in Hlen; lia].
    set (s1 := Scanning _ _).
    destruct (IH (acc + Z.of_nat (length (x :: l)))%Z (cnt + 1)%Z s1 Hkeys)
      as (s' & Hrun & Hdb).
    exists s'. split; [|exact Hdb]. rewrite Hrun. subst s1.
    cbn [base db sent_world].
    cbn [sum_list_with]. rewrite Hat. do 3 f_equal; simpl length; lia.
Qed.
End ScanClient.

(** ** System statistics *)

Section SystemStats.
Context (E : runtime) (Srv : server (wire E)).
Context (Hup : store_up E) (Hkeys : keys_listed Srv).
Implicit Types (s : scanning (wire E)) (n k : string).

(** The keys [getSystemStats] asks the length of. *)
Lemma elem_of_queueKeys k s :
  k ∈ filter (λ k, includes ":stats:" k = false)
        (filter (λ k, glob "queue:*" k = true) (keys_order Srv (db (base s))))
  ↔ includes ":stats:" k = false ∧ glob "queue:*" k = true
    ∧ is_Some (db (base s) !! k).
Proof.
  rewrite !list_elem_of_filter. by rewrite (proj2 (Hkeys (db (base s)))).
Qed.

Lemma getSystemStats_wrong n v s :
  validateQueueName n = true → n ≠ "stats" →
  db (base s) !! metadataKey n = Some (RStr v) →
  ∃ s', getSystemStats E Srv s = (Throws wrong_type, s')
        ∧ db (base s') = db (base s).
Proof.
  intros Hn Hstats Hmeta. unfold getSystemStats.
  rewrite (scan_bind_returns E _ _ _ _ _ (scan_keys_up E Srv Hup _ s)).
  cbv beta zeta.
  match goal with |- context [total_depths E ?ks _ _] =>
    destruct (total_depths_wrong E Hup ks 0%Z 0%Z (scanned E (KEYS "queue:*") s)
                (metadataKey n) (RStr v)) as (s' & Hrun & Hdb);
      [ apply (elem_of_queueKeys (metadataKey n) s) | exact Hmeta | done | ]
  end.
  - rewrite metadataKey_of, includes_stats, glob_key, <- metadataKey_of by done.
    rewrite Hmeta. simpl. rewrite andb_true_r, orb_false_r.
    split; [|by split]. by apply String.eqb_neq.
  - rewrite (scan_bind_throws E _ _ _ _ _ Hrun). by exists s'.
Qed.
Lemma sum_list_with_fmap {A B} (f : A → B) (g : B → nat) (l : list A) :
  sum_list_with g (f <$> l) = sum_list_with (g ∘ f) l.
Proof.
  induction l as [|x l IH]; [done|].
  rewrite fmap_cons. cbn [sum_list_with]. by rewrite IH.
Qed.

Lemma items_lookup (w : world (wire E)) n :
  items w n ≠ [] → db w !! key_of KList n = Some (RList (items w n)).
Proof.
  unfold items, list_at. by destruct (db w !! key_of KList n) as [[| |]|].
Qed.

(** On a store of the engine's own without metadata, the keys asked are the
    list keys of the queues that have messages. *)
Lemma queueKeys_lists s (qs : list string) :
  engine_store (db (base s)) →
  (∀ n, validateQueueName n = true → db (base s) !! metadataKey n = None) →
  NoDup qs →
  (∀ n, n ∈ qs ↔ validateQueueName n = true ∧ items (base s) n ≠ []) →
  filter (λ k, includes ":stats:" k = false)
    (filter (λ k, glob "queue:*" k = true) (keys_order Srv (db (base s))))
  ≡ₚ key_of KList <$> qs.
Proof.
  intros Hstore Hmeta Hnd Hqs. apply NoDup_Permutation.
  - apply NoDup_filter, NoDup_filter, Hkeys.
  - apply NoDup_fmap_2_strong; [|done].
    intros x y [Hx _]%Hqs [Hy _]%Hqs Heq.
    by destruct (key_of_inj _ _ _ _ Hx Hy Heq).
  - intros k. rewrite elem_of_queueKeys, list_elem_of_fmap. split.
    + intros (Hstats & _ & [v Hv]).
      destruct (Hstore k v Hv) as (kd & n & Hn & -> & Hkind).
      rewrite includes_stats in Hstats by done.
      destruct kd; simpl in Hstats.
      * exists n. split; [done|]. apply Hqs. split; [done|].
        unfold items, list_at. rewrite Hv. by destruct v.
      * rewrite <- metadataKey_of, Hmeta in Hv by done. done.
      * by rewrite orb_true_r in Hstats.
      * by rewrite orb_true_r in Hstats.
    + intros (n & -> & [Hn Hne]%Hqs).
      rewrite includes_stats, glob_key by done. simpl.
      rewrite andb_false_r. repeat split.
      rewrite items_lookup by done. by eexists.
Qed.

Lemma getSystemStats_lists s (qs : list string) :
  engine_store (db (base s)) →
  (∀ n, validateQueueName n = true → db (base s) !! metadataKey n = None) →
  NoDup qs →
  (∀ n, n ∈ qs ↔ validateQueueName n = true ∧ items (base s) n ≠ []) →
  ∃ st s' i,
    getSystemStats E Srv s = (Returns st, s')
    ∧ db (base s') = db (base s)
    ∧ stats_total st = length qs
    ∧ stats_active st = Z.of_nat (length qs)
    ∧ stats_empty st = 0%Z
    ∧ stats_totalDepth st
      = Z.of_nat (sum_list_with (λ n, length (items (base s) n)) qs)
    ∧ stats_memoryUsed st
      = or_default (parseRedisInfo (info_reply Srv i "memory") "used_memory_human")
          "N/A".
Proof.
  intros Hstore Hmeta Hnd Hqs.
  pose proof (queueKeys_lists s qs Hstore Hmeta Hnd Hqs) as Hperm.
  unfold getSystemStats.
  rewrite (scan_bind_returns E _ _ _ _ _ (scan_keys_up E Srv Hup _ s)).
  cbv beta zeta.
  set (queueKeys := filter _ (filter _ _)) in *.
  destruct (total_depths_lists E Hup queueKeys 0%Z 0%Z
              (scanned E (KEYS "queue:*") s)) as (s1 & Hrun & Hdb1).
  { apply Forall_forall. intros k Hk. rewrite Hperm in Hk.
    apply list_elem_of_fmap in Hk as (n & -> & [Hn Hne]%Hqs).
    exists (items (base s) n). split; [by apply items_lookup | done]. }
  rewrite (scan_bind_returns E _ _ _ _ _ Hrun).
  rewrite (scan_bind_returns E _ _ _ _ _ (scan_info_up E Srv Hup _ s1)).
  unfold scan_bind, quiet, now, scan_ret. simpl.
  eexists _, _, _. split; [reflexivity|]. simpl.
  rewrite Hperm, length_fmap, sum_list_with_fmap.
  repeat split; try done; lia.
Qed.
End SystemStats.

Lemma demo_keys_listed : keys_listed DemoServer.srv.
Proof.
  intros d. split; [apply NoDup_fst_map_to_list|].
  intros k. simpl. rewrite list_elem_of_fmap. split.
  - intros ([k' v] & -> & Hin). apply elem_of_map_to_list in Hin. by exists v.
  - intros [v Hv]. exists (k, v). split; [done|]. by apply elem_of_map_to_list.
Defined.

(** X20 (system statistics fail once a queue has metadata).  On a store that
    answers, with KEYS listing every key: when some well-named queue other
    than one called [stats] has a metadata record, which every queue made by
    [createQueue] or fed by [enqueueMessage] has, [getSystemStats] asks LLEN
    of that record's key along with the list keys, Redis refuses the command
    for a key that holds a string, and the call throws that error; the
    controller answers "Internal server error".  The keyspace is unchanged. *)
Theorem system_stats_fail_on_metadata (E : runtime) (Srv : server (wire E))
    (queueName : string) (v : wire E) (s : scanning (wire E)) :
  store_up E → keys_listed Srv →
  validateQueueName queueName = true → queueName ≠ "stats" →
  db (base s) !! metadataKey queueName = Some (RStr v) →
  ∃ s',
    getSystemStats E Srv s = (Throws wrong_type, s')
    ∧ QueuesController_getSystemStats E Srv s = (Throws internal_server_error, s')
    ∧ db (base s') = db (base s).
Proof.
  intros Hup Hkeys Hn Hstats Hmeta.
  destruct (getSystemStats_wrong E Srv Hup Hkeys queueName v s Hn Hstats Hmeta)
    as (s' & Hrun & Hdb).
  exists s'. split; [exact Hrun|]. split; [|exact Hdb].
  unfold QueuesController_getSystemStats, always_internal. by rewrite Hrun.
Qed.

Lemma system_stats_fail_on_metadata_witness :
  ∃ s',
    getSystemStats Demo.rt DemoServer.srv (DemoServer.start Demo.one_message)
    = (Throws wrong_type, s')
    ∧ QueuesController_getSystemStats Demo.rt DemoServer.srv
        (DemoServer.start Demo.one_message)
      = (Throws internal_server_error, s')
    ∧ db (base s') = db (base (DemoServer.start Demo.one_message)).
Proof.
  apply (system_stats_fail_on_metadata Demo.rt DemoServer.srv "orders"
           (metadata_record "1000" "orders") (DemoServer.start Demo.one_message));
    [ exact demo_store_up | exact demo_keys_listed | reflexivity
    | discriminate | reflexivity ].
Defined.

Lemma demo_posted :
  engine_store (db DemoServer.posted)
  ∧ (∀ n, validateQueueName n = true → db DemoServer.posted !! metadataKey n = None)
  ∧ (∀ n, n ∈ ["jobs"] ↔ validateQueueName n = true ∧ items DemoServer.posted n ≠ []).
Proof.
  destruct (api_enqueue_spec Demo.rt demo_store_up "jobs" (JObj [("id", JNum 1)])
              Demo.fresh eq_refl (demo_fresh_typed _))
    as (w' & Hrun & Hi & _ & _ & Hmeta & _ & Hsame & _).
  assert (w' = DemoServer.posted) as -> by (unfold DemoServer.posted; by rewrite Hrun).
  assert (∀ n kd, validateQueueName n = true → n ≠ "jobs" →
            db DemoServer.posted !! key_of kd n = None) as Hother.
  { intros n kd Hn Hne. rewrite Hsame; [apply lookup_empty|].
    intros kd' Heq. by apply key_of_inj in Heq as [_ ?]. }
  split; [|split].
  - apply (perform_engine_kept Demo.rt
             (CallApiEnqueue "jobs" (JObj [("id", JNum 1)])) Demo.fresh).
    intros k v. simpl. by rewrite lookup_empty.
  - intros n Hn. rewrite metadataKey_of.
    destruct (decide (n = "jobs")) as [->|Hne]; [|by apply Hother].
    etransitivity; [exact Hmeta | apply lookup_empty].
  - intros n. rewrite list_elem_of_singleton. split.
    + intros ->. split; [done|]. intros Hnil.
      pose proof (eq_trans (eq_sym Hi) Hnil) as Hbad. discriminate Hbad.
    + intros [Hn Hne]. destruct (decide (n = "jobs")) as [->|Hne']; [done|].
      exfalso. apply Hne. unfold items, list_at.
      pose proof (Hother n KList Hn Hne') as Hnone.
      by destruct (db DemoServer.posted !! key_of KList n).
Qed.

(** X21 (system statistics on a store without metadata).  On a store that
    answers, with KEYS listing every key, when the store holds the engine's
    keys only and no queue has a metadata record (as when every message came
    in through the API service): [getSystemStats] returns; its total is the
    number of queues that have messages, every one of them counts as active
    and none as empty, since a list that runs empty is no key any more; the
    total depth is the sum of the lengths of their lists; the memory figure is
    what [parseRedisInfo] reads under [used_memory_human] in the reply to INFO,
    or "N/A" when it reads nothing or an empty value.  The keyspace is
    unchanged. *)
Theorem system_stats_without_metadata (E : runtime) (Srv : server (wire E))
    (s : scanning (wire E)) (queues : list string) :
  store_up E → keys_listed Srv →
  engine_store (db (base s)) →
  (∀ n, validateQueueName n = true → db (base s) !! metadataKey n = None) →
  NoDup queues →
  (∀ n, n ∈ queues ↔ validateQueueName n = true ∧ items (base s) n ≠ []) →
  ∃ st s' i,
    getSystemStats E Srv s = (Returns st, s')
    ∧ db (base s') = db (base s)
    ∧ stats_total st = length queues
    ∧ stats_active st = Z.of_nat (length queues)
    ∧ stats_empty st = 0%Z
    ∧ stats_totalDepth st
      = Z.of_nat (sum_list_with (λ n, length (items (base s) n)) queues)
    ∧ stats_memoryUsed st
      = or_default (parseRedisInfo (info_reply Srv i "memory") "used_memory_human")
          "N/A".
Proof.
  intros Hup Hkeys Hstore Hmeta Hnd Hqs.
  by apply getSystemStats_lists.
Qed.

Lemma system_stats_without_metadata_witness :
  ∃ st s' i,
    getSystemStats Demo.rt DemoServer.srv (DemoServer.start DemoServer.posted)
    = (Returns st, s')
    ∧ db (base s') = db (base (DemoServer.start DemoServer.posted))
    ∧ stats_total st = length ["jobs"]
    ∧ stats_active st = Z.of_nat (length ["jobs"])
    ∧ stats_empty st = 0%Z
    ∧ stats_totalDepth st
      = Z.of_nat (sum_list_with
                    (λ n, length (items (base (DemoServer.start DemoServer.posted)) n))
                    ["jobs"])
    ∧ stats_memoryUsed st
      = or_default
          (parseRedisInfo (info_reply DemoServer.srv i "memory") "used_memory_human")
          "N/A".
Proof.
  apply (system_stats_without_metadata Demo.rt DemoServer.srv
           (DemoServer.start DemoServer.posted) ["jobs"]);
    [ exact demo_store_up | exact demo_keys_listed | apply demo_posted
    | apply demo_posted | apply NoDup_singleton | apply demo_posted ].
Defined.

(** ** The scanning operations only read *)

Section ScanReads.
Context (E : runtime) (Srv : server (wire E)).
Implicit Types (s : scanning (wire E)).

Lemma scan_reads_ret {A} (a : A) : scan_reads (scan_ret E a).
Proof. by intros s. Qed.

Lemma scan_reads_bind {A B} (m : SM E A) (f : A → SM E B) :
  scan_reads m → (∀ a, scan_reads (f a)) → scan_reads (scan_bind E m f).
Proof.
  intros Hm Hf s. unfold scan_bind. specialize (Hm s).
  destruct (m s) as [[a|e|] s']; simpl in *; try done.
  by rewrite Hf.
Qed.

Lemma scan_reads_send (c : cmd (wire E)) :
  cmd_reads c = true → scan_reads (scan_send E c).
Proof.
  intros Hc s. unfold scan_send, answer.
  destruct (faults E _); simpl; [done|].
  pose proof (exec_reads E c (db (base s)) Hc) as Hsame.
  by destruct (exec c (db (base s))).
Qed.

Lemma scan_reads_keys pattern : scan_reads (scan_keys E Srv pattern).
Proof. by intros s. Qed.

Lemma scan_reads_info section : scan_reads (scan_info E Srv section).
Proof. by intros s. Qed.

Lemma scan_reads_quiet {A} (m : M E A) :
  preserves E eq m → scan_reads (quiet E m).
Proof.
  intros Hm s. unfold quiet. specialize (Hm (base s)).
  by destruct (m (base s)).
Qed.

Lemma scan_reads_llen k : scan_reads (scan_llen E k).
Proof.
  apply scan_reads_bind; [by apply scan_reads_send | intros r; apply scan_reads_ret].
Qed.

Lemma scan_reads_total_depths keys : ∀ acc cnt,
  scan_reads (total_depths E keys acc cnt).
Proof.
  induction keys as [|k keys IH]; intros acc cnt; simpl.
  - apply scan_reads_ret.
  - apply scan_reads_bind; [apply scan_reads_llen | intros depth; apply IH].
Qed.

Lemma scan_reads_getSystemStats : scan_reads (getSystemStats E Srv).
Proof.
  unfold getSystemStats.
  apply scan_reads_bind; [apply scan_reads_keys | intros keys].
  apply scan_reads_bind; [apply scan_reads_total_depths | intros totals].
  apply scan_reads_bind; [apply scan_reads_info | intros info].
  apply scan_reads_bind; [|intros t; apply scan_reads_ret].
  apply scan_reads_quiet. by intros w.
Qed.

Lemma message_age_reads v : preserves E eq (message_age E v).
Proof.
  intros w. destruct (message_age_returns E v w) as (a & r & ->). done.
Qed.

Lemma scan_reads_list_llen n : scan_reads (list_llen E n).
Proof.
  apply scan_reads_bind; [apply scan_reads_llen | intros d; apply scan_reads_ret].
Qed.

Lemma scan_reads_list_get x : scan_reads (list_get E x).
Proof.
  apply scan_reads_bind; [by apply scan_reads_send | intros r; apply scan_reads_ret].
Qed.

Lemma scan_reads_list_lindex x : scan_reads (list_lindex E x).
Proof.
  unfold list_lindex.
  apply scan_reads_bind; [|intros a; apply scan_reads_ret].
  destruct (0 <? x.1.2)%Z; [|apply scan_reads_ret].
  apply scan_reads_bind.
  - apply scan_reads_bind; [by apply scan_reads_send | intros r; apply scan_reads_ret].
  - intros oldest. apply scan_reads_quiet, message_age_reads.
Qed.

Lemma each_reads {A B} (step : A → SM E B) running :
  (∀ a, scan_reads (step a)) → ∀ s, db (base (each E step running s).2) = db (base s).
Proof.
  intros Hstep. induction running as [|[a|e|] rest IH]; intros s; simpl; [done|..].
  - specialize (Hstep a s). destruct (step a s) as [o s1].
    specialize (IH s1). destruct (each E step rest s1) as [os s2].
    simpl in *. congruence.
  - specialize (IH s). by destruct (each E step rest s).
  - specialize (IH s). by destruct (each E step rest s).
Qed.

Lemma scan_reads_listQueues : scan_reads (listQueues E Srv).
Proof.
  intros s. unfold listQueues.
  pose proof (scan_reads_keys "queue:*" s) as Hkeys.
  destruct (scan_keys E Srv "queue:*" s) as [[keys|e|] s0]; simpl in *; try done.
  pose proof (each_reads (list_llen E) (Returns <$> queue_names keys)
                scan_reads_list_llen s0) as H1.
  destruct (each E (list_llen E) _ s0) as [r1 s1].
  pose proof (each_reads (list_get E) r1 scan_reads_list_get s1) as H2.
  destruct (each E (list_get E) r1 s1) as [r2 s2].
  pose proof (each_reads (list_lindex E) r2 scan_reads_list_lindex s2) as H3.
  destruct (each E (list_lindex E) r2 s2) as [r3 s3].
  simpl in *. congruence.
Qed.
End ScanReads.

(** X22 (listing and statistics only read).  [listQueues] and
    [getSystemStats] leave the keyspace exactly as they found it, whatever it
    holds, in whatever order KEYS lists it, and whether the store answers or
    fails at any of their commands; so do the two controller methods around
    them. *)
Theorem scans_change_nothing (E : runtime) (Srv : server (wire E))
    (s : scanning (wire E)) :
  db (base (listQueues E Srv s).2) = db (base s)
  ∧ db (base (getSystemStats E Srv s).2) = db (base s)
  ∧ db (base (QueuesController_listQueues E Srv s).2) = db (base s)
  ∧ db (base (QueuesController_getSystemStats E Srv s).2) = db (base s).
Proof.
  pose proof (scan_reads_listQueues E Srv s) as Hl.
  pose proof (scan_reads_getSystemStats E Srv s) as Hs.
  unfold QueuesController_listQueues, QueuesController_getSystemStats,
    always_internal.
  destruct (listQueues E Srv s) as [[?|?|] ?],
    (getSystemStats E Srv s) as [[?|?|] ?]; done.
Qed.

(** ** Listing the queues *)

Section Listing.
Context (E : runtime) (Srv : server (wire E)).
Context (Hup : store_up E) (Hkeys : keys_listed Srv).
Implicit Types (s : scanning (wire E)) (n k : string).

Lemma first_thrown_only {A} (os : list (outcome A)) e :
  Forall (λ o, thrown o = None ∨ thrown o = Some e) os →
  Throws e ∈ os → first_thrown os = Some e.
Proof.
  unfold first_thrown. induction os as [|o os IH]; intros Hos Hin.
  - by apply elem_of_nil in Hin.
  - apply Forall_cons in Hos as [Ho Hos]. cbn [omap list_omap].
    destruct Ho as [Ho|Ho]; rewrite Ho; [|done].
    apply elem_of_cons in Hin as [<-|Hin]; [done|]. by apply IH.
Qed.

(** The first round of the mappers: each LLEN is answered or refused. *)
Lemma each_llen_round names : ∀ s,
  ∃ os s1,
    each E (list_llen E) (Returns <$> names) s = (os, s1)
    ∧ Forall (λ o, thrown o = None ∨ thrown o = Some wrong_type) os
    ∧ ∀ n v, n ∈ names → db (base s) !! queueKey n = Some v →
        (∀ l, v ≠ RList l) → Throws wrong_type ∈ os.
Proof.
  induction names as [|n0 names IH]; intros s.
  - eexists _, _. split; [reflexivity|]. split; [done|].
    intros n v Hin. by apply elem_of_nil in Hin.
  - rewrite fmap_cons. cbn [each]. unfold list_llen at 1.
    destruct (scan_llen_cases E Hup (queueKey n0) s)
      as [(s' & Hrun & Hdb)|(s' & Hrun & Hdb & Hlist)].
    + rewrite (scan_bind_throws E _ _ _ _ _ Hrun).
      destruct (IH s') as (os & s1 & -> & Hos & _).
      eexists _, _. split; [reflexivity|]. split.
      * apply Forall_cons. split; [by right | done].
      * intros. by left.
    + rewrite (scan_bind_returns E _ _ _ _ _ Hrun). unfold scan_ret.
      destruct (IH s') as (os & s1 & -> & Hos & Hwrong).
      eexists _, _. split; [reflexivity|]. split.
      * apply Forall_cons. split; [by left | done].
      * intros n v [->|Hin]%elem_of_cons Hv Hnot.
        { destruct (Hlist v Hv) as [l ->]. by destruct (Hnot l). }
        right. rewrite <- Hdb in Hv. by eapply Hwrong.
Qed.

Lemma elem_of_queue_keys k s :
  k ∈ filter (λ k, glob "queue:*" k = true) (keys_order Srv (db (base s)))
  ↔ glob "queue:*" k = true ∧ is_Some (db (base s) !! k).
Proof.
  rewrite list_elem_of_filter. by rewrite (proj2 (Hkeys (db (base s)))).
Qed.

(** The counter key of a queue named with [metadata] at the front is taken
    for a metadata key, and what is left of it for a queue name. *)
Lemma counter_taken_for_a_queue n z s :
  validateQueueName n = true → String.prefix "metadata" n = true →
  db (base s) !! enqueuedKey n = Some (RCount z) →
  (n +:+ ":stats:enqueued")
  ∈ queue_names
      (filter (λ k, glob "queue:*" k = true) (keys_order Srv (db (base s)))).
Proof.
  intros Hn Hpre Hz. unfold queue_names.
  apply elem_of_foldl_Set_add. right.
  apply list_elem_of_fmap. exists (key_of KEnq n). split.
  - unfold compose. by rewrite name_of_key.
  - apply list_elem_of_filter. split.
    + rewrite includes_metadata by done. by rewrite Hpre.
    + apply elem_of_queue_keys. rewrite glob_key. split; [done|].
      rewrite <- enqueuedKey_of. by eexists.
Qed.

Lemma listQueues_wrong n z s :
  validateQueueName n = true → String.prefix "metadata" n = true →
  db (base s) !! enqueuedKey n = Some (RCount z) →
  ∃ s', listQueues E Srv s = (Throws wrong_type, s')
        ∧ db (base s') = db (base s).
Proof.
  intros Hn Hpre Hz.
  pose proof (scan_reads_listQueues E Srv s) as Hdb.
  pose proof (counter_taken_for_a_queue n z s Hn Hpre Hz) as Hname.
  unfold listQueues in *. rewrite scan_keys_up in * by done.
  set (names := queue_names _) in *.
  destruct (each_llen_round names (scanned E (KEYS "queue:*") s))
    as (r1 & s1 & Hr1 & Hos & Hwrong).
  rewrite Hr1 in *.
  destruct (each E (list_get E) r1 s1) as [r2 s2].
  destruct (each E (list_lindex E) r2 s2) as [r3 s3].
  rewrite (first_thrown_only r1 wrong_type Hos) in *.
  - exists s3. split; [|exact Hdb].
    by destruct (first_thrown r2), (first_thrown r3).
  - eapply (Hwrong (n +:+ ":stats:enqueued") (RCount z)); [exact Hname | exact Hz | done].
  - eapply (Hwrong (n +:+ ":stats:enqueued") (RCount z)); [exact Hname | exact Hz | done].
Qed.
(** *** On a store of the engine's own *)

Lemma engine_listy (d : gmap string (rval (wire E))) n :
  engine_store d → validateQueueName n = true → listy d (key_of KList n).
Proof.
  intros Hd Hn. unfold listy.
  destruct (d !! key_of KList n) as [v|] eqn:Hv; [|done].
  destruct (Hd _ _ Hv) as (kd & n' & Hn' & Heq & Hkind).
  apply key_of_inj in Heq as [<- <-]; [|done..].
  by destruct v.
Qed.

Lemma engine_metadata (d : gmap string (rval (wire E))) n v :
  engine_store d → validateQueueName n = true →
  d !! key_of KMeta n = Some v → ∃ text, v = RStr text.
Proof.
  intros Hd Hn Hv.
  destruct (Hd _ _ Hv) as (kd & n' & Hn' & Heq & Hkind).
  apply key_of_inj in Heq as [<- <-]; [|done..].
  destruct v; try done. by eexists.
Qed.

(** The names read off the keys are the well-named queues that have a list or
    a metadata record, each once. *)
Lemma queue_names_of_store s :
  engine_store (db (base s)) → no_metadata_names (db (base s)) →
  let names :=
    queue_names
      (filter (λ k, glob "queue:*" k = true) (keys_order Srv (db (base s)))) in
  NoDup names
  ∧ ∀ n, n ∈ names
      ↔ validateQueueName n = true
        ∧ (is_Some (db (base s) !! key_of KList n)
           ∨ is_Some (db (base s) !! key_of KMeta n)).
Proof.
  intros Hstore Hnames names. split.
  { apply NoDup_foldl_Set_add, NoDup_foldl_Set_add, NoDup_nil_2. }
  intros n. subst names. unfold queue_names.
  rewrite !elem_of_foldl_Set_add, elem_of_nil, !list_elem_of_fmap.
  split.
  - intros [[[]|(k & -> & Hk)]|(k & -> & Hk)].
    + apply list_elem_of_filter in Hk as [[Hstats Hmeta] [_ [v Hv]]%elem_of_queue_keys].
      destruct (Hstore k v Hv) as (kd & n & Hn & -> & Hkind).
      rewrite includes_stats in Hstats by done.
      rewrite includes_metadata in Hmeta by done.
      apply orb_false_elim in Hstats as [_ Hcounter].
      apply orb_false_elim in Hmeta as [_ Hmeta].
      destruct kd; try done.
      unfold key_of. rewrite replace_queue. simpl. rewrite append_nil_r.
      split; [done|]. left. by eexists.
    + apply list_elem_of_filter in Hk as [Hmeta [_ [v Hv]]%elem_of_queue_keys].
      destruct (Hstore k v Hv) as (kd & n & Hn & -> & Hkind).
      rewrite includes_metadata in Hmeta by done.
      rewrite (Hnames kd n Hn) in Hmeta by (by eexists). simpl in Hmeta.
      destruct kd; try done. unfold compose. rewrite name_of_key by done. simpl.
      split; [done|]. right. by eexists.
  - intros [Hn [Hlist|Hmeta]].
    + left. right. exists (key_of KList n). split.
      * unfold key_of. rewrite replace_queue. simpl. by rewrite append_nil_r.
      * apply list_elem_of_filter. split.
        -- rewrite includes_stats, includes_metadata by done.
           rewrite (Hnames KList n Hn Hlist). simpl.
           by rewrite andb_false_r.
        -- apply elem_of_queue_keys. by rewrite glob_key.
    + right. exists (key_of KMeta n). split.
      * unfold compose. by rewrite name_of_key.
      * apply list_elem_of_filter. split.
        -- rewrite includes_metadata by done. simpl. apply orb_true_r.
        -- apply elem_of_queue_keys. by rewrite glob_key.
Qed.

(** A round in which every mapper's command is answered. *)
Lemma each_returns {A B} (step : A → SM E B) (P : A → Prop) (R : A → B → Prop)
    (d : gmap string (rval (wire E))) :
  (∀ a s, P a → db (base s) = d →
     ∃ b s', step a s = (Returns b, s') ∧ R a b ∧ db (base s') = d) →
  ∀ xs s, Forall P xs → db (base s) = d →
    ∃ bs s', each E step (Returns <$> xs) s = (Returns <$> bs, s')
             ∧ Forall2 R xs bs ∧ db (base s') = d.
Proof.
  intros Hstep. induction xs as [|x xs IH]; intros s Hxs Hd.
  - exists [], s. by repeat split.
  - apply Forall_cons in Hxs as [Hx Hxs]. rewrite fmap_cons. cbn [each].
    destruct (Hstep x s Hx Hd) as (b & s1 & -> & Hb & Hd1).
    destruct (IH s1 Hxs Hd1) as (bs & s2 & -> & Hbs & Hd2).
    exists (b :: bs), s2. repeat split; [by constructor | done].
Qed.

Lemma first_thrown_returns {A} (bs : list A) : first_thrown (Returns <$> bs) = None.
Proof. unfold first_thrown. by induction bs. Qed.

Lemma returned_returns {A} (bs : list A) : returned (Returns <$> bs) = Some bs.
Proof.
  unfold returned. apply mapM_Some. induction bs; by constructor.
Qed.

(** What a mapper makes of a well-named queue on the engine's store. *)
Lemma list_llen_returns (d : gmap string (rval (wire E))) n s :
  engine_store d → validateQueueName n = true → db (base s) = d →
  ∃ b s', list_llen E n s = (Returns b, s')
          ∧ b = (n, Z.of_nat (length (list_at d (key_of KList n))))
          ∧ db (base s') = d.
Proof.
  intros Hd Hn <-. unfold list_llen. rewrite queueKey_of.
  rewrite (scan_bind_returns E _ _ _ _ _
             (scan_llen_list E Hup _ s (engine_listy _ n Hd Hn))).
  by eexists _, _.
Qed.

Lemma list_get_returns (d : gmap string (rval (wire E))) (x : string * Z) s :
  engine_store d → validateQueueName x.1 = true → db (base s) = d →
  ∃ b s', list_get E x s = (Returns b, s')
          ∧ b = (x.1, x.2, created_at E (exec (GET (metadataKey x.1)) d).1)
          ∧ db (base s') = d.
Proof.
  intros Hd Hn <-. unfold list_get, scan_bind. rewrite scan_send_up by done.
  rewrite metadataKey_of. simpl.
  destruct (db (base s) !! key_of KMeta x.1) as [v|] eqn:Hv; simpl.
  - destruct (engine_metadata _ _ _ Hd Hn Hv) as [text ->]. simpl.
    by eexists _, _.
  - by eexists _, _.
Qed.

Lemma list_lindex_returns (d : gmap string (rval (wire E)))
    (x : string * Z * option json) s :
  engine_store d → validateQueueName x.1.1 = true → db (base s) = d →
  ∃ b s', list_lindex E x s = (Returns b, s')
          ∧ (item_name b = x.1.1 ∧ item_depth b = x.1.2 ∧ item_createdAt b = x.2
             ∧ (x.1.2 = 0%Z → item_oldestMessageAge b = None))
          ∧ db (base s') = d.
Proof.
  intros Hd Hn <-. unfold list_lindex.
  destruct (Z.ltb_spec 0 x.1.2) as [Hpos|Hzero].
  - unfold scan_lindex. unfold scan_bind at 1 2 3.
    rewrite scan_send_up by done. rewrite queueKey_of. simpl.
    pose proof (engine_listy _ x.1.1 Hd Hn) as Hl. unfold listy in Hl.
    destruct (db (base s) !! key_of KList x.1.1) as [[l| |]|]; try done; simpl.
    + destruct (lindex l (-1)) as [v|]; cbn [settle]; unfold scan_ret at 1, quiet.
      * match goal with |- context [message_age E ?v ?w0] =>
          destruct (message_age_returns E v w0) as (a & r & ->) end.
        unfold scan_ret. eexists _, _. repeat split. simpl. lia.
      * unfold scan_ret. eexists _, _. repeat split.
    + unfold quiet, scan_ret. simpl. eexists _, _. repeat split.
  - unfold scan_bind, scan_ret. by eexists _, _.
Qed.

Lemma Forall2_eq_fmap {A B} (f : A → B) xs bs :
  Forall2 (λ a b, b = f a) xs bs → bs = f <$> xs.
Proof. induction 1 as [|a b xs bs -> _ ->]; done. Qed.

Lemma created_at_record (d : gmap string (rval (wire E))) n ts :
  codec_ok E →
  d !! metadataKey n = Some (RStr (JSON_stringify E (metadata_record ts n))) →
  created_at E (exec (GET (metadataKey n)) d).1 = Some (JStr ts).
Proof. intros Hcodec Hv. simpl. rewrite Hv. simpl. by rewrite Hcodec. Qed.

Lemma created_at_missing (d : gmap string (rval (wire E))) n :
  d !! metadataKey n = None →
  created_at E (exec (GET (metadataKey n)) d).1 = Some JNull.
Proof. intros Hv. simpl. by rewrite Hv. Qed.

Lemma listQueues_lists s :
  engine_store (db (base s)) → no_metadata_names (db (base s)) →
  ∃ r s' names,
    listQueues E Srv s = (Returns r, s')
    ∧ db (base s') = db (base s)
    ∧ list_total r = length (list_queues r)
    ∧ NoDup names
    ∧ (∀ n, n ∈ names
         ↔ validateQueueName n = true
           ∧ (is_Some (db (base s) !! key_of KList n)
              ∨ is_Some (db (base s) !! key_of KMeta n)))
    ∧ Forall2
        (λ n it,
           item_name it = n
           ∧ item_depth it = depth (base s) n
           ∧ item_createdAt it
             = created_at E (exec (GET (metadataKey n)) (db (base s))).1
           ∧ (depth (base s) n = 0%Z → item_oldestMessageAge it = None))
        names (list_queues r).
Proof.
  intros Hstore Hnames.
  destruct (queue_names_of_store s Hstore Hnames) as [Hnd Hin].
  unfold listQueues. rewrite scan_keys_up by done.
  set (names := queue_names _) in *.
  assert (Forall (λ n, validateQueueName n = true) names) as Hvalid.
  { apply Forall_forall. intros n Hn. by apply Hin in Hn as [? _]. }
  set (d := db (base s)) in *.
  destruct (each_returns (list_llen E) (λ n, validateQueueName n = true)
              (λ n b, b = (n, Z.of_nat (length (list_at d (key_of KList n))))) d
              (λ a s Ha, list_llen_returns d a s Hstore Ha)
              names (scanned E (KEYS "queue:*") s) Hvalid eq_refl)
    as (bs1 & s1 & -> & Hbs1%Forall2_eq_fmap & Hd1).
  destruct (each_returns (list_get E) (λ x, validateQueueName x.1 = true)
              (λ x b, b = (x.1, x.2, created_at E (exec (GET (metadataKey x.1)) d).1))
              d (λ a s Ha, list_get_returns d a s Hstore Ha) bs1 s1)
    as (bs2 & s2 & -> & Hbs2%Forall2_eq_fmap & Hd2); [|done|].
  { subst bs1. by apply Forall_fmap. }
  destruct (each_returns (list_lindex E) (λ x, validateQueueName x.1.1 = true)
              (λ x b, item_name b = x.1.1 ∧ item_depth b = x.1.2
                      ∧ item_createdAt b = x.2
                      ∧ (x.1.2 = 0%Z → item_oldestMessageAge b = None))
              d (λ a s Ha, list_lindex_returns d a s Hstore Ha) bs2 s2)
    as (bs3 & s3 & -> & Hbs3 & Hd3); [|done|].
  { subst bs2 bs1. by apply Forall_fmap, Forall_fmap. }
  rewrite !first_thrown_returns, returned_returns. cbn [union option_union union_with option_union_with].
  eexists _, s3, names. split; [reflexivity|].
  split; [done|]. split; [done|]. split; [done|]. split; [exact Hin|].
  subst bs2 bs1. rewrite !Forall2_fmap_l in Hbs3. exact Hbs3.
Qed.
End Listing.

(** X23 (a queue named with [metadata] at the front breaks the listing).  On a
    store that answers, with KEYS listing every key: once a well-named queue
    whose name begins with [metadata] has its enqueued counter, which its
    first message gives it, [listQueues] takes the counter's key for a
    metadata key because [:metadata] occurs in it, reads a queue name off it,
    and asks LLEN of what is the counter's key again; Redis refuses, the call
    throws that error, and the controller answers "Internal server error".
    The listing fails for every queue alike. *)
Theorem listing_breaks_on_metadata_names (E : runtime) (Srv : server (wire E))
    (queueName : string) (z : Z) (s : scanning (wire E)) :
  store_up E → keys_listed Srv →
  validateQueueName queueName = true →
  String.prefix "metadata" queueName = true →
  db (base s) !! enqueuedKey queueName = Some (RCount z) →
  ∃ s',
    listQueues E Srv s = (Throws wrong_type, s')
    ∧ QueuesController_listQueues E Srv s = (Throws internal_server_error, s')
    ∧ db (base s') = db (base s).
Proof.
  intros Hup Hkeys Hn Hpre Hz.
  destruct (listQueues_wrong E Srv Hup Hkeys queueName z s Hn Hpre Hz)
    as (s' & Hrun & Hdb).
  exists s'. split; [exact Hrun|]. split; [|exact Hdb].
  unfold QueuesController_listQueues, always_internal. by rewrite Hrun.
Qed.

Lemma listing_breaks_on_metadata_names_witness :
  ∃ s',
    listQueues Demo.rt DemoServer.srv
      (DemoServer.start (api_enqueue Demo.rt "metadata" (JNum 1) Demo.fresh).2)
    = (Throws wrong_type, s')
    ∧ QueuesController_listQueues Demo.rt DemoServer.srv
        (DemoServer.start (api_enqueue Demo.rt "metadata" (JNum 1) Demo.fresh).2)
      = (Throws internal_server_error, s')
    ∧ db (base s')
      = db (base (DemoServer.start
                    (api_enqueue Demo.rt "metadata" (JNum 1) Demo.fresh).2)).
Proof.
  apply (listing_breaks_on_metadata_names Demo.rt DemoServer.srv "metadata" 1
           (DemoServer.start (api_enqueue Demo.rt "metadata" (JNum 1) Demo.fresh).2));
    [ exact demo_store_up | exact demo_keys_listed
    | reflexivity | reflexivity | reflexivity ].
Defined.

Lemma demo_one_message :
  engine_store (db Demo.one_message) ∧ no_metadata_names (db Demo.one_message).
Proof.
  destruct (enqueueMessage_spec Demo.rt demo_store_up "orders"
              (Demo.dto (JStr "A")) Demo.fresh eq_refl (demo_fresh_typed _))
    as (w' & Hrun & _ & _ & _ & _ & _ & Hsame & _).
  assert (w' = Demo.one_message) as -> by (unfold Demo.one_message; by rewrite Hrun).
  split.
  - apply (perform_engine_kept Demo.rt
             (CallEnqueue "orders" (Demo.dto (JStr "A"))) Demo.fresh).
    intros k v. simpl. by rewrite lookup_empty.
  - intros kd n Hn [v Hv].
    destruct (decide (n = "orders")) as [->|Hne]; [done|].
    rewrite Hsame in Hv.
    + exfalso. revert Hv. simpl. by rewrite lookup_empty.
    + intros kd' Heq. by apply key_of_inj in Heq as [_ ?].
Qed.

(** X24 (the listing of the queues).  On a store that answers, with a codec
    that parses what it wrote and KEYS listing every key, when the store holds
    the engine's keys only and no queue that has a key is named with
    [metadata] at the front: [listQueues] returns, and so does the controller,
    with the same list.  Its total is the length of the list; every queue is
    listed once; the queues listed are the well-named queues that have
    messages or a metadata record, so a queue that was created and holds
    nothing is listed and a queue that was emptied without ever getting a
    record is not; each entry's depth is the length of the queue's list; an
    entry of depth 0 has no age of an oldest message; the creation time is the
    one of the metadata record, and [null] for a queue without one.  The
    keyspace is unchanged. *)
Theorem list_queues_lists_the_queues (E : runtime) (Srv : server (wire E))
    (s : scanning (wire E)) :
  store_up E → codec_ok E → keys_listed Srv →
  engine_store (db (base s)) → no_metadata_names (db (base s)) →
  ∃ r s',
    listQueues E Srv s = (Returns r, s')
    ∧ QueuesController_listQueues E Srv s = (Returns r, s')
    ∧ db (base s') = db (base s)
    ∧ list_total r = length (list_queues r)
    ∧ NoDup (item_name <$> list_queues r)
    ∧ (∀ n, n ∈ item_name <$> list_queues r
         ↔ validateQueueName n = true
           ∧ (items (base s) n ≠ [] ∨ has_metadata (base s) n))
    ∧ (∀ it, it ∈ list_queues r →
         item_depth it = depth (base s) (item_name it)
         ∧ (depth (base s) (item_name it) = 0%Z → item_oldestMessageAge it = None)
         ∧ (∀ ts,
              db (base s) !! metadataKey (item_name it)
              = Some (RStr (JSON_stringify E (metadata_record ts (item_name it)))) →
              item_createdAt it = Some (JStr ts))
         ∧ (¬ has_metadata (base s) (item_name it) →
            item_createdAt it = Some JNull)).
Proof.
  intros Hup Hcodec Hkeys Hstore Hnames.
  destruct (listQueues_lists E Srv Hup Hkeys s Hstore Hnames)
    as (r & s' & names & Hrun & Hdb & Htotal & Hnd & Hin & Hitems).
  assert (item_name <$> list_queues r = names) as Hnamed.
  { clear -Hitems. induction Hitems as [|n it ns its [Hn _] _ IH]; [done|].
    by rewrite fmap_cons, IH, Hn. }
  exists r, s'. split; [exact Hrun|]. split.
  { unfold QueuesController_listQueues, always_internal. by rewrite Hrun. }
  split; [exact Hdb|]. split; [exact Htotal|]. rewrite Hnamed.
  split; [exact Hnd|]. split.
  - intros n. rewrite Hin. unfold has_metadata. split.
    + intros [Hn [[v Hv]|Hmeta]]; (split; [done|]); [left|by right].
      pose proof (engine_listy E _ n Hstore Hn) as Hl. unfold listy in Hl.
      rewrite Hv in Hl. unfold items, list_at. rewrite Hv. by destruct v.
    + intros [Hn [Hne|Hmeta]]; (split; [done|]); [left|by right].
      apply items_lookup in Hne. by eexists.
  - intros it Hit.
    apply list_elem_of_lookup in Hit as [i Hi].
    destruct (Forall2_lookup_r _ _ _ _ _ Hitems Hi) as (n & _ & <- & Hdepth & Hcreated & Hage).
    split; [exact Hdepth|]. split; [exact Hage|]. split.
    + intros ts Hts. rewrite Hcreated. by apply created_at_record.
    + intros Hnone. rewrite Hcreated. apply created_at_missing.
      unfold has_metadata in Hnone. rewrite metadataKey_of.
      by apply eq_None_not_Some.
Qed.

Lemma list_queues_lists_the_queues_witness :
  ∃ r s',
    listQueues Demo.rt DemoServer.srv (DemoServer.start Demo.one_message)
    = (Returns r, s')
    ∧ QueuesController_listQueues Demo.rt DemoServer.srv
        (DemoServer.start Demo.one_message)
      = (Returns r, s')
    ∧ db (base s') = db (base (DemoServer.start Demo.one_message))
    ∧ list_total r = length (list_queues r)
    ∧ NoDup (item_name <$> list_queues r)
    ∧ (∀ n, n ∈ item_name <$> list_queues r
         ↔ validateQueueName n = true
           ∧ (items (base (DemoServer.start Demo.one_message)) n ≠ []
              ∨ has_metadata (base (DemoServer.start Demo.one_message)) n))
    ∧ (∀ it, it ∈ list_queues r →
         item_depth it
         = depth (base (DemoServer.start Demo.one_message)) (item_name it)
         ∧ (depth (base (DemoServer.start Demo.one_message)) (item_name it) = 0%Z →
            item_oldestMessageAge it = None)
         ∧ (∀ ts,
              db (base (DemoServer.start Demo.one_message))
                !! metadataKey (item_name it)
              = Some (RStr (JSON_stringify Demo.rt
                              (metadata_record ts (item_name it)))) →
              item_createdAt it = Some (JStr ts))
         ∧ (¬ has_metadata (base (DemoServer.start Demo.one_message)) (item_name it) →
            item_createdAt it = Some JNull)).
Proof.
  apply (list_queues_lists_the_queues Demo.rt DemoServer.srv
           (DemoServer.start Demo.one_message));
    [ exact demo_store_up | exact demo_codec_ok | exact demo_keys_listed
    | apply demo_one_message | apply demo_one_message ].
Defined.

(** ** Purging, and the metrics of a queue with messages *)

Section PurgeAndMetrics.
Context (E : runtime) (Hup : store_up E).
Implicit Types (w : world (wire E)) (n : string).

Lemma getQueueMetrics_messages n w l x :
  validateQueueName n = true → typed w n → items w n = l ++ [x] →
  ∃ w' ts age,
    getQueueMetrics E n w
    = (Returns {| metrics_queue := n; metrics_depth := depth w n;
                  metrics_enqueueRate := (0, 0, 0)%Z;
                  metrics_dequeueRate := (0, 0, 0)%Z;
                  metrics_averageWaitTime := 0;
                  metrics_oldestMessageAge := age;
                  metrics_timestamp := ts |}, w')
    ∧ db w' = db w
    ∧ (JSON_parse E x = None → age = None)
    ∧ (JSON_parse E x = Some JNull → age = None)
    ∧ (∀ id p enqueuedAt,
         JSON_parse E x = Some (envelope id p enqueuedAt) →
         age = Some (js_sub (Num (clock E (reads w)))
                       (Date_getTime E (Some (JStr enqueuedAt))))).
Proof.
  intros Hn (Hl & He & Hd) Hlast. unfold getQueueMetrics. rewrite Hn.
  service_keys n. simpl (negb _). cbv beta iota. unfold bind at 1.
  rewrite redis_llen_up by done. fold (items w n). fold (depth w n).
  assert (items w n ≠ []) as Hne by (rewrite Hlast; by destruct l).
  pose proof (nonempty_length _ Hne) as Hlen.
  assert (0 < depth w n)%Z as Hpos by (unfold depth; lia).
  cbv beta iota.
  destruct (Z.ltb_spec 0 (depth w n)) as [_|]; [|lia].
  unfold bind at 1. unfold bind at 1.
  rewrite redis_lindex_up by done. simpl.
  fold (items w n).
  assert (lindex (items w n) (-1) = Some x) as ->
    by (rewrite Hlast; apply lindex_last).
  unfold message_age.
  destruct (JSON_parse E x) as [msg|]; [destruct msg|];
    unfold bind, now, ret; simpl; eexists _, _, _;
    (split; [reflexivity|]); (split; [done|]);
    (split; [done|]); (split; [done|]);
    intros id p enqueuedAt Hx; try done; by injection Hx as ->.
Qed.
End PurgeAndMetrics.

(** X25 (what a purge leaves).  On a store that answers, for a well-named
    queue whose keys hold values of their kinds: [purgeQueue] returns the
    number of messages the queue held and leaves its list empty; the metadata
    record and the two counters are as they were, and so is every key of
    another queue, so a purged queue that was created is still there.  A
    second purge reports 0 purged messages and changes nothing. *)
Theorem purge_empties_the_list_only (E : runtime) (queueName : string)
    (w : world (wire E)) :
  store_up E → validateQueueName queueName = true → typed w queueName →
  ∃ w' ts,
    purgeQueue E queueName w
    = (Returns {| purge_success := true; purge_queue := queueName;
                  purge_purgedMessages := depth w queueName;
                  purge_timestamp := ts |}, w')
    ∧ items w' queueName = []
    ∧ db w' !! metadataKey queueName = db w !! metadataKey queueName
    ∧ totalEnqueued w' queueName = totalEnqueued w queueName
    ∧ totalDequeued w' queueName = totalDequeued w queueName
    ∧ same_elsewhere queueName w w'
    ∧ ∃ w'' ts',
        purgeQueue E queueName w'
        = (Returns {| purge_success := true; purge_queue := queueName;
                      purge_purgedMessages := 0; purge_timestamp := ts' |}, w'')
        ∧ db w'' = db w'.
Proof.
  intros Hup Hn Htyped.
  destruct (purgeQueue_spec E Hup queueName w Hn Htyped)
    as (w' & ts & Hrun & Hitems & Henq & Hdeq & Hmeta & Htyped' & Hsame).
  exists w', ts. split; [exact Hrun|]. split; [exact Hitems|].
  rewrite metadataKey_of. split; [exact Hmeta|].
  split; [exact Henq|]. split; [exact Hdeq|]. split; [exact Hsame|].
  exact (purgeQueue_empty E Hup queueName w' Hn Htyped' Hitems).
Qed.

Lemma purge_empties_the_list_only_witness :
  ∃ w' ts,
    purgeQueue Demo.rt "orders" Demo.one_message
    = (Returns {| purge_success := true; purge_queue := "orders";
                  purge_purgedMessages := depth Demo.one_message "orders";
                  purge_timestamp := ts |}, w')
    ∧ items w' "orders" = []
    ∧ db w' !! metadataKey "orders" = db Demo.one_message !! metadataKey "orders"
    ∧ totalEnqueued w' "orders" = totalEnqueued Demo.one_message "orders"
    ∧ totalDequeued w' "orders" = totalDequeued Demo.one_message "orders"
    ∧ same_elsewhere "orders" Demo.one_message w'
    ∧ ∃ w'' ts',
        purgeQueue Demo.rt "orders" w'
        = (Returns {| purge_success := true; purge_queue := "orders";
                      purge_purgedMessages := 0; purge_timestamp := ts' |}, w'')
        ∧ db w'' = db w'.
Proof.
  apply (purge_empties_the_list_only Demo.rt "orders" Demo.one_message);
    [ exact demo_store_up | reflexivity | exact demo_one_message_typed ].
Defined.

(** X26 (the metrics of a queue with messages).  On a store that answers, for
    a well-named queue whose keys hold values of their kinds and whose list is
    not empty: [getQueueMetrics] returns the length of the list as depth; the
    two rates and the average wait are 0 whatever the traffic has been; the
    age of the oldest message is [null] when its text does not parse or parses
    to [null], and the clock's reading less the time of [enqueuedAt] when it
    parses to an envelope; the keyspace is left as it was. *)
Theorem metrics_of_a_queue_with_messages (E : runtime) (queueName : string)
    (w : world (wire E)) (l : list (wire E)) (x : wire E) :
  store_up E → validateQueueName queueName = true → typed w queueName →
  items w queueName = l ++ [x] →
  ∃ w' ts age,
    getQueueMetrics E queueName w
    = (Returns {| metrics_queue := queueName; metrics_depth := depth w queueName;
                  metrics_enqueueRate := (0, 0, 0)%Z;
                  metrics_dequeueRate := (0, 0, 0)%Z;
                  metrics_averageWaitTime := 0;
                  metrics_oldestMessageAge := age;
                  metrics_timestamp := ts |}, w')
    ∧ db w' = db w
    ∧ (JSON_parse E x = None → age = None)
    ∧ (JSON_parse E x = Some JNull → age = None)
    ∧ (∀ id p enqueuedAt,
         JSON_parse E x = Some (envelope id p enqueuedAt) →
         age = Some (js_sub (Num (clock E (reads w)))
                       (Date_getTime E (Some (JStr enqueuedAt))))).
Proof.
  intros Hup Hn Htyped Hlast.
  destruct (getQueueMetrics_messages E Hup queueName w l x Hn Htyped Hlast)
    as (w' & ts & age & Hrun & Hdb & Hages).
  exists w', ts, age. split; [exact Hrun|]. split; [exact Hdb|]. exact Hages.
Qed.

Lemma metrics_of_a_queue_with_messages_witness :
  ∃ w' ts age,
    getQueueMetrics Demo.rt "orders" Demo.one_message
    = (Returns {| metrics_queue := "orders";
                  metrics_depth := depth Demo.one_message "orders";
                  metrics_enqueueRate := (0, 0, 0)%Z;
                  metrics_dequeueRate := (0, 0, 0)%Z;
                  metrics_averageWaitTime := 0;
                  metrics_oldestMessageAge := age;
                  metrics_timestamp := ts |}, w')
    ∧ db w' = db Demo.one_message
    ∧ (JSON_parse Demo.rt (envelope "msg_0" (JStr "A") "0") = None → age = None)
    ∧ (JSON_parse Demo.rt (envelope "msg_0" (JStr "A") "0") = Some JNull →
       age = None)
    ∧ (∀ id p enqueuedAt,
         JSON_parse Demo.rt (envelope "msg_0" (JStr "A") "0")
         = Some (envelope id p enqueuedAt) →
         age = Some (js_sub (Num (clock Demo.rt (reads Demo.one_message)))
                       (Date_getTime Demo.rt (Some (JStr enqueuedAt))))).
Proof.
  apply (metrics_of_a_queue_with_messages Demo.rt "orders" Demo.one_message []
           (envelope "msg_0" (JStr "A") "0"));
    [ exact demo_store_up | reflexivity | exact demo_one_message_typed
    | exact demo_one_message_items ].
Defined.
